(** * text-store: a shallow embedding of [src/index.ts]

    [TextStore] keeps a document as an array of lines next to a size counter
    and two caches: [indexToPosCache] (one entry per block of
    [DEFAULT_BLOCK_SIZE] characters) and [lineToIndexCache] (one entry per
    line).  The TypeScript class is embedded function by function:

    - JavaScript integers are [Z] (exact below 2^53, the range in which the
      source's integer arithmetic is exact as well);
    - [findHighestCachedLineToIndex] halves an interval whose midpoint is not
      an integer as soon as the interval has odd width, so its numbers are
      IEEE-754 doubles ([SpecFloat], binary64);
    - the caches are JavaScript arrays with holes: [list (option T)];
    - every method is a function of the store that returns an [outcome]:
      the value and the store after the call, the error raised together with
      the store at that point, or [OutOfFuel] when a loop or a recursion did
      not finish within the given bound. *)

From Stdlib Require Import ZArith List Bool Lia String Ascii.
From Stdlib Require Import Floats.SpecFloat.
Import ListNotations.

#[local] Open Scope string_scope.
#[local] Open Scope Z_scope.
#[local] Open Scope list_scope.

(** ** JavaScript strings and arrays *)

Module Js.

(** The newline character, U+000A. *)
Definition nl : ascii := ascii_of_nat 10.

Definition is_nl (c : ascii) : bool := Ascii.eqb c nl.

Fixpoint take (n : nat) (s : string) : string :=
  match n, s with
  | S n', String c s' => String c (take n' s')
  | _, _ => EmptyString
  end.

Fixpoint drop (n : nat) (s : string) : string :=
  match n, s with
  | S n', String _ s' => drop n' s'
  | _, _ => s
  end.

Definition len (s : string) : Z := Z.of_nat (String.length s).

(** How [slice] and [splice] read an integer argument [k] against a
    length: a negative [k] counts from the end. *)
Definition rel_index (length k : Z) : Z :=
  if k <? 0 then Z.max (length + k) 0 else Z.min k length.

(** [String.prototype.slice(b, e)]. *)
Definition slice (s : string) (b e : Z) : string :=
  let from := rel_index (len s) b in
  let to := rel_index (len s) e in
  take (Z.to_nat (to - from)) (drop (Z.to_nat from) s).

(** [String.prototype.slice(b)]: up to the end of the string. *)
Definition slice_from (s : string) (b : Z) : string :=
  slice s b (len s).

(** [String.prototype.split(/\n/)]: never empty, the empty string splits
    to one empty line. *)
Fixpoint split (s : string) : list string :=
  match s with
  | EmptyString => [EmptyString]
  | String c s' =>
      if is_nl c then EmptyString :: split s'
      else match split s' with
           | h :: t => String c h :: t
           | [] => [String c EmptyString]
           end
  end.

(** [Array.prototype.join('\n')]. *)
Fixpoint join (l : list string) : string :=
  match l with
  | [] => EmptyString
  | [x] => x
  | x :: r => (x ++ String nl (join r))%string
  end.

Section Arrays.
Context {T : Type}.

Definition alen (a : list T) : Z := Z.of_nat (List.length a).

(** [a[k]] for an integer [k]: [None] is JavaScript's [undefined]. *)
Definition at_ (a : list T) (k : Z) : option T :=
  if k <? 0 then None else nth_error a (Z.to_nat k).

(** [Array.prototype.slice(b, e)]. *)
Definition aslice (a : list T) (b e : Z) : list T :=
  let from := rel_index (alen a) b in
  let to := rel_index (alen a) e in
  firstn (Z.to_nat (to - from)) (skipn (Z.to_nat from) a).

(** [Array.prototype.splice(start, deleteCount, ...items)]: the removed
    elements and the array afterwards. *)
Definition splice (a : list T) (start deleteCount : Z) (items : list T)
  : list T * list T :=
  let from := Z.to_nat (rel_index (alen a) start) in
  let count := Z.to_nat (Z.min (Z.max deleteCount 0) (alen a - Z.of_nat from)) in
  (firstn count (skipn from a),
   firstn from a ++ items ++ skipn (from + count) a).
End Arrays.

(** *** Arrays with holes

    The caches write [arr[k] = v] beyond the end of [arr]; the positions in
    between are holes and read as [undefined]. *)
Section Sparse.
Context {T : Type}.

Definition sparse_get (a : list (option T)) (k : Z) : option T :=
  match at_ a k with
  | Some (Some v) => Some v
  | _ => None
  end.

Fixpoint sparse_set_nat (a : list (option T)) (k : nat) (v : T)
  : list (option T) :=
  match k, a with
  | O, [] => [Some v]
  | O, _ :: r => Some v :: r
  | S k', [] => None :: sparse_set_nat [] k' v
  | S k', x :: r => x :: sparse_set_nat r k' v
  end.

(** [arr[k] = v].  The store only ever writes at keys [k >= 0] (block
    numbers and line numbers); a negative key would create a property
    that is not an element, which this model does not keep. *)
Definition sparse_set (a : list (option T)) (k : Z) (v : T)
  : list (option T) :=
  if k <? 0 then a else sparse_set_nat a (Z.to_nat k) v.
End Sparse.

End Js.

(** ** IEEE-754 doubles, for the one function that leaves the integers *)

Module Num.

Definition prec : Z := 53.
Definition emax : Z := 1024.

Definition t : Type := spec_float.

Definition of_Z (z : Z) : t := binary_normalize prec emax z 0 false.
Definition sub : t -> t -> t := SFsub prec emax.
Definition add : t -> t -> t := SFadd prec emax.
Definition div : t -> t -> t := SFdiv prec emax.
Definition ltb : t -> t -> bool := SFltb.
Definition eqb : t -> t -> bool := SFeqb.

(** The array index a number denotes when used as [arr[x]]: only a
    non-negative integer is one; [arr[0.5]] reads a property that no code
    of the store ever writes. *)
Definition to_index (x : t) : option Z :=
  match x with
  | S754_zero _ => Some 0
  | S754_finite false m e =>
      if 0 <=? e then Some (Z.pos m * 2 ^ e)
      else if (Z.pos m mod 2 ^ (- e)) =? 0 then Some (Z.pos m / 2 ^ (- e))
      else None
  | _ => None
  end.

End Num.

(** ** The data of [src/index.ts] *)

(** [const DEFAULT_BLOCK_SIZE = 10]. *)
Definition DEFAULT_BLOCK_SIZE : Z := 10.

(** [interface ITextPosition]. *)
Record ITextPosition : Type := mkPos { line : Z; col : Z }.

(** [interface ITextRange]; [end] is a keyword of Rocq, hence [end_]. *)
Record ITextRange : Type := mkRange { start : ITextPosition; end_ : ITextPosition }.

(** [class SCache<T>]: the key is divided by the block size.  Every caller
    passes a multiple of the block size; any other key would name a
    property that is never written. *)
Module SCache.
Section Ops.
Context {T : Type}.

Definition t : Type := list (option T).

Definition empty : t := [].

Definition get (arr : t) (idx : Z) : option T :=
  if idx mod DEFAULT_BLOCK_SIZE =? 0
  then Js.sparse_get arr (idx / DEFAULT_BLOCK_SIZE)
  else None.

Definition set (arr : t) (idx : Z) (value : T) : t :=
  if idx mod DEFAULT_BLOCK_SIZE =? 0
  then Js.sparse_set arr (idx / DEFAULT_BLOCK_SIZE) value
  else arr.

(** [this.arr = this.arr.slice(0, from / DEFAULT_BLOCK_SIZE)]; [slice]
    truncates its argument toward zero. *)
Definition flush (arr : t) (from : Z) : t :=
  Js.aslice arr 0 (Z.quot from DEFAULT_BLOCK_SIZE).
End Ops.
Arguments t : clear implicits.
End SCache.

(** [class VCache<T>]: the key is used as it is. *)
Module VCache.
Section Ops.
Context {T : Type}.

Definition t : Type := list (option T).

Definition empty : t := [].

Definition get (arr : t) (idx : Z) : option T := Js.sparse_get arr idx.

Definition set (arr : t) (idx : Z) (value : T) : t := Js.sparse_set arr idx value.

Definition flush (arr : t) (from : Z) : t := Js.aslice arr 0 from.
End Ops.
Arguments t : clear implicits.
End VCache.

(** [class TextStore]: its five private fields. *)
Record TextStore : Type := mkStore {
  str : string;
  lines : list string;
  size : Z;
  indexToPosCache : SCache.t ITextPosition;
  lineToIndexCache : VCache.t Z
}.

Definition with_indexToPosCache (s : TextStore) (c : SCache.t ITextPosition) : TextStore :=
  mkStore (str s) (lines s) (size s) c (lineToIndexCache s).

Definition with_lineToIndexCache (s : TextStore) (c : VCache.t Z) : TextStore :=
  mkStore (str s) (lines s) (size s) (indexToPosCache s) c.

(** The errors a method raises: the three [RangeError]s the source throws,
    told apart by their message, and the [TypeError] of the runtime when a
    property of [undefined] is read. *)
Inductive error : Type :=
| IndexOutOfRange      (* RangeError('Index out of range') *)
| PositionOutOfRange   (* RangeError('TextPosition out of range') *)
| InvalidPosition      (* RangeError('TextPosition is not zero-index based...') *)
| TypeError.           (* Cannot read property ... of undefined *)

Inductive outcome (A : Type) : Type :=
| Ok (a : A) (s : TextStore)
| Throw (e : error) (s : TextStore)
| OutOfFuel.

Arguments Ok {A} a s.
Arguments Throw {A} e s.
Arguments OutOfFuel {A}.

(** A method body: a function of the store. *)
Definition M (A : Type) : Type := TextStore -> outcome A.

Definition ret {A} (a : A) : M A := fun s => Ok a s.
Definition throw {A} (e : error) : M A := fun s => Throw e s.
Definition diverge {A} : M A := fun _ => OutOfFuel.

Definition bind {A B} (m : M A) (k : A -> M B) : M B :=
  fun s => match m s with
           | Ok a s' => k a s'
           | Throw e s' => Throw e s'
           | OutOfFuel => OutOfFuel
           end.

Definition this : M TextStore := fun s => Ok s s.
Definition put (s' : TextStore) : M unit := fun _ => Ok tt s'.

(** A property of a value that may be [undefined]. *)
Definition defined {A} (o : option A) : M A :=
  match o with
  | Some a => ret a
  | None => throw TypeError
  end.

Declare Scope store_scope.
Delimit Scope store_scope with store.
Notation "x <- m ;; k" := (bind m (fun x => k))
  (at level 61, m at next level, right associativity) : store_scope.
Notation "m ;;; k" := (bind m (fun _ => k))
  (at level 61, right associativity) : store_scope.
#[local] Open Scope store_scope.

(** Truthiness of a cached number: [undefined] and [0] are falsy. *)
Definition truthy (o : option Z) : bool :=
  match o with
  | Some v => negb (v =? 0)
  | None => false
  end.

Definition or_zero (o : option Z) : Z :=
  match o with
  | Some v => v
  | None => 0
  end.

(** A read-only loop or recursion that ran out of its bound. *)
Definition within_fuel {A} (o : option A) : M A :=
  match o with
  | Some a => ret a
  | None => diverge
  end.

(** ** The methods of [TextStore] *)

(** [constructor(str)]. *)
Definition constructor (s : string) : TextStore :=
  mkStore s (Js.split s) (Js.len s) SCache.empty VCache.empty.

Definition getSize : M Z :=
  s <- this ;; ret (size s).

Definition convertPosToZeroBased (pos : ITextPosition) : ITextPosition :=
  {| col := col pos - 1; line := line pos - 1 |}.

(** [checkTextPosition]: the first test reads [this.lines[pos.line].length]
    whenever [pos.line > this.lines.length] is false. *)
Definition checkTextPosition (pos : ITextPosition) : M unit :=
  s <- this ;;
  outOfRange <-
    (if line pos >? Js.alen (lines s) then ret true
     else l <- defined (Js.at_ (lines s) (line pos)) ;;
          ret (col pos >? Js.len l)) ;;
  if outOfRange : bool then throw PositionOutOfRange
  else if (col pos <? 0) || (line pos <? 0) then throw InvalidPosition
  else ret tt.

Definition roundToLowerBlockSize (index : Z) : Z :=
  (index / DEFAULT_BLOCK_SIZE) * DEFAULT_BLOCK_SIZE.

(** [findHighestCachedIndexToPos(start, end)]; the outer [option] is the
    bound on the recursion, the inner one the source's [undefined].  When
    [end - start] is odd the source's midpoint ends in [.5], is no multiple
    of the block size and is rounded down, to the same value as here. *)
Fixpoint findHighestCachedIndexToPos (fuel : nat) (cache : SCache.t ITextPosition)
    (start end_ : Z) : option (option (Z * ITextPosition)) :=
  match fuel with
  | O => None
  | S fuel' =>
      let middleIdx := (end_ - start) / 2 + start in
      let middleIdx :=
        if negb (middleIdx mod DEFAULT_BLOCK_SIZE =? 0)
        then roundToLowerBlockSize middleIdx else middleIdx in
      if middleIdx <? DEFAULT_BLOCK_SIZE then Some None
      else match SCache.get cache middleIdx with
           | Some ret =>
               if negb (start =? middleIdx) && negb (end_ =? middleIdx)
               then findHighestCachedIndexToPos fuel' cache middleIdx end_
               else Some (Some (middleIdx, ret))
           | None =>
               if negb (start =? middleIdx)
               then findHighestCachedIndexToPos fuel' cache start middleIdx
               else Some None
           end
  end.

(** [this.lineToIndexCache.get(x)] for a number [x] that need not be an
    integer. *)
Definition lineToIndexCache_get_num (cache : VCache.t Z) (x : Num.t) : option Z :=
  match Num.to_index x with
  | Some k => VCache.get cache k
  | None => None
  end.

(** [findHighestCachedLineToIndex(start, end)], on doubles.  In
    [(diff % 2 !== 0 ? diff++ : diff) / 2] both branches have the value of
    [diff] before the increment, so the midpoint is [diff / 2 + start],
    with a fractional part when [diff] is odd. *)
Fixpoint findHighestCachedLineToIndex (fuel : nat) (cache : VCache.t Z)
    (start end_ : Num.t) : option (option (Z * Z)) :=
  match fuel with
  | O => None
  | S fuel' =>
      let diff := Num.sub end_ start in
      let middleIdx := Num.add (Num.div diff (Num.of_Z 2)) start in
      if Num.ltb middleIdx (Num.of_Z 0) then Some None
      else
        let ret := lineToIndexCache_get_num cache middleIdx in
        if truthy ret then
          if negb (Num.eqb start middleIdx) && negb (Num.eqb end_ middleIdx)
          then findHighestCachedLineToIndex fuel' cache middleIdx end_
          else Some (Some (or_zero (Num.to_index middleIdx), or_zero ret))
        else if negb (Num.eqb start middleIdx)
        then findHighestCachedLineToIndex fuel' cache start middleIdx
        else Some None
  end.

(** The inner [while (closestIndex !== highestIndexableStop)] of
    [indexToPosition]: the block boundaries of one line. *)
Fixpoint indexToPosition_blocks (fuel : nat) (cache : SCache.t ITextPosition)
    (closestIndex highestIndexableStop lineNumber steppedCharCount : Z)
  : option (Z * SCache.t ITextPosition) :=
  if closestIndex =? highestIndexableStop then Some (closestIndex, cache)
  else match fuel with
       | O => None
       | S fuel' =>
           let closestIndex := closestIndex + DEFAULT_BLOCK_SIZE in
           let cache :=
             match SCache.get cache closestIndex with
             | Some _ => cache
             | None => SCache.set cache closestIndex
                         {| line := lineNumber; col := closestIndex - steppedCharCount |}
             end in
           indexToPosition_blocks fuel' cache closestIndex highestIndexableStop
             lineNumber steppedCharCount
       end.

(** The outer [while (lineNumber < lines.length)] of [indexToPosition];
    it returns the zero-based [lineNumber] and [colNumber] at its exit. *)
Fixpoint indexToPosition_lines (fuel : nat)
    (index lineNumber steppedCharCount closestIndex : Z) : M ITextPosition :=
  s <- this ;;
  if lineNumber <? Js.alen (lines s) then
    match fuel with
    | O => diverge
    | S fuel' =>
        cLine <- defined (Js.at_ (lines s) lineNumber) ;;
        let currentLine := 0 in
        let newLineCharLen := if currentLine <? Js.alen (lines s) then 1 else 0 in
        let charCount := Js.len cLine + newLineCharLen in
        let steppedCharCountAfterThisCycle := steppedCharCount + charCount in
        let highestIndexableStop := roundToLowerBlockSize steppedCharCountAfterThisCycle in
        r <- within_fuel (indexToPosition_blocks fuel (indexToPosCache s) closestIndex
                            highestIndexableStop lineNumber steppedCharCount) ;;
        let '(closestIndex, cache) := r in
        put (with_indexToPosCache s cache) ;;;
        s <- this ;;
        put (with_lineToIndexCache s
               (VCache.set (lineToIndexCache s) lineNumber
                           (steppedCharCount + newLineCharLen))) ;;;
        if steppedCharCountAfterThisCycle >? index
        then ret {| line := lineNumber; col := index - steppedCharCount |}
        else indexToPosition_lines fuel' index (lineNumber + 1)
               (steppedCharCount + charCount) closestIndex
    end
  else ret {| line := lineNumber; col := 0 |}.

(** [indexToPosition(index)]. *)
Definition indexToPosition (fuel : nat) (index : Z) : M ITextPosition :=
  s <- this ;;
  if index >? size s then throw IndexOutOfRange
  else
    let closestIndex := roundToLowerBlockSize index in
    anchor <-
      match SCache.get (indexToPosCache s) closestIndex with
      | Some p => ret (closestIndex, p)
      | None =>
          let oneBlockShortIndex := closestIndex - DEFAULT_BLOCK_SIZE in
          match SCache.get (indexToPosCache s) oneBlockShortIndex with
          | Some p => ret (oneBlockShortIndex, p)
          | None =>
              res <- within_fuel (findHighestCachedIndexToPos fuel (indexToPosCache s)
                                    DEFAULT_BLOCK_SIZE closestIndex) ;;
              match res with
              | Some r => ret r
              | None => ret (0, {| line := 0; col := 0 |})
              end
          end
      end ;;
    let '(closestIndex, closestCachedIndexToPos) := anchor in
    let steppedCharCount := closestIndex - col closestCachedIndexToPos in
    p <- indexToPosition_lines fuel index (line closestCachedIndexToPos)
           steppedCharCount closestIndex ;;
    ret {| col := col p + 1; line := line p + 1 |}.

(** The [while (cont)] of [zeroBasedPosToIndex], left by its [break]; it
    returns [offset] at the exit.  [target] is [zeroBasedPos.line]. *)
Fixpoint zeroBasedPosToIndex_lines (fuel : nat) (target currentLine offset : Z) : M Z :=
  match fuel with
  | O => diverge
  | S fuel' =>
      s <- this ;;
      let newLineCharLen := if currentLine <? Js.alen (lines s) then 1 else 0 in
      put (with_lineToIndexCache s
             (VCache.set (lineToIndexCache s) currentLine (offset + newLineCharLen))) ;;;
      if currentLine =? target then ret offset
      else
        l <- defined (Js.at_ (lines s) currentLine) ;;
        zeroBasedPosToIndex_lines fuel' target (currentLine + 1)
          (offset + (Js.len l + newLineCharLen))
  end.

(** The first half of [zeroBasedPosToIndex]: the cached entry to start
    from, as the pair of [closestLineNum] and [closestCachedLineToIdx]; the
    entry of the line itself, else that of the line before, else what the
    search finds.  The outer [option] is the bound on the search, the inner
    one is [None] when all three came back falsy. *)
Definition zeroBasedPosToIndex_anchor (fuel : nat) (cache : VCache.t Z)
    (closestLineNum : Z) : option (option (Z * Z)) :=
  let closestCachedLineToIdx := VCache.get cache closestLineNum in
  if truthy closestCachedLineToIdx
  then Some (Some (closestLineNum, or_zero closestCachedLineToIdx))
  else
    let closestCachedLineToIdx := VCache.get cache (closestLineNum - 1) in
    if truthy closestCachedLineToIdx
    then Some (Some (closestLineNum - 1, or_zero closestCachedLineToIdx))
    else findHighestCachedLineToIndex fuel cache (Num.of_Z 0) (Num.of_Z closestLineNum).

(** [zeroBasedPosToIndex(zeroBasedPos)]; [{ index: 0, line: 0 }] stands in
    when no cached entry was found. *)
Definition zeroBasedPosToIndex (fuel : nat) (zeroBasedPos : ITextPosition) : M Z :=
  s <- this ;;
  res <- within_fuel (zeroBasedPosToIndex_anchor fuel (lineToIndexCache s)
                        (line zeroBasedPos)) ;;
  let '(closestLineNum, closestCachedLineToIdx) :=
    match res with
    | Some r => r
    | None => (0, 0)
    end in
  let currentLine := closestLineNum in
  let offset := closestCachedLineToIdx - 1 in
  let cont := currentLine <=? line zeroBasedPos in
  offset <- (if cont
             then zeroBasedPosToIndex_lines fuel (line zeroBasedPos) currentLine offset
             else ret offset) ;;
  ret (offset + col zeroBasedPos).

(** [positionToIndex(pos)]. *)
Definition positionToIndex (fuel : nat) (pos : ITextPosition) : M Z :=
  let zeroBasedPos := convertPosToZeroBased pos in
  checkTextPosition zeroBasedPos ;;;
  zeroBasedPosToIndex fuel zeroBasedPos.

(** Modelled from the spec: the function [clamp] that [src/index.ts]
    imports from the package [clamp], which is not part of the repository;
    the spec says of it that an endpoint is clamped into bounds.
    [clamp value lo hi] is [value] brought into the interval between
    [lo] and [hi], whichever of the two is the smaller. *)
Definition clamp (value lo hi : Z) : Z :=
  if lo <? hi
  then (if value <? lo then lo else if value >? hi then hi else value)
  else (if value <? hi then hi else if value >? lo then lo else value).

(** [clampTextPosition(pos)]. *)
Definition clampTextPosition (pos : ITextPosition) : M ITextPosition :=
  s <- this ;;
  let clampedLine := clamp (line pos) 1 (Js.alen (lines s)) in
  l <- defined (Js.at_ (lines s) clampedLine) ;;
  ret {| col := clamp (col pos) 1 (Js.len l); line := clampedLine |}.

(** [flushCache(from)]. *)
Definition flushCache (fuel : nat) (from : ITextPosition) : M unit :=
  idx <- zeroBasedPosToIndex fuel from ;;
  s <- this ;;
  put (with_lineToIndexCache s (VCache.flush (lineToIndexCache s) (line from))) ;;;
  s <- this ;;
  put (with_indexToPosCache s
         (SCache.flush (indexToPosCache s) (roundToLowerBlockSize idx))).

(** [insert(str, at)].  The new lines reach [splice] as the arguments of
    one call ([...updatedContent.split(newLineChar)]); the limit an engine
    puts on the number of arguments of a call is not modelled, so a run of
    the model that returns stands for a call that returns or stops at that
    limit, and the theorems on reachable stores are about calls that
    return. *)
Definition insert (fuel : nat) (text : string) (at_ : ITextPosition) : M unit :=
  if Js.len text =? 0 then ret tt
  else
    let pos := convertPosToZeroBased at_ in
    checkTextPosition pos ;;;
    flushCache fuel pos ;;;
    s <- this ;;
    put (mkStore (str s) (lines s) (size s + Js.len text)
                 (indexToPosCache s) (lineToIndexCache s)) ;;;
    s <- this ;;
    l <- defined (Js.at_ (lines s) (line pos)) ;;
    let updated := (Js.slice l 0 (col pos) ++ text ++ Js.slice_from l (col pos))%string in
    let '(_, lines') := Js.splice (lines s) (line pos) 1 (Js.split updated) in
    put (mkStore (str s) lines' (size s) (indexToPosCache s) (lineToIndexCache s)).

(** [replace(range, str)]. *)
Definition replace (fuel : nat) (range : ITextRange) (text : string) : M unit :=
  let start := convertPosToZeroBased (start range) in
  let end_ := convertPosToZeroBased (end_ range) in
  checkTextPosition start ;;;
  checkTextPosition end_ ;;;
  flushCache fuel start ;;;
  s <- this ;;
  ls <- defined (Js.at_ (lines s) (line start)) ;;
  le <- defined (Js.at_ (lines s) (line end_)) ;;
  let updated := (Js.slice ls 0 (col start) ++ text ++ Js.slice_from le (col end_))%string in
  let '(removedLines, lines') :=
    Js.splice (lines s) (line start) ((line end_ + 1) - line start) (Js.split updated) in
  put (mkStore (str s) lines'
               (size s - Js.len (Js.join removedLines) + Js.len updated)
               (indexToPosCache s) (lineToIndexCache s)).

(** [remove(range)]. *)
Definition remove (fuel : nat) (range : ITextRange) : M unit :=
  replace fuel range EmptyString.

(** [getContents(range?)]. *)
Definition getContents (range : option ITextRange) : M string :=
  s <- this ;;
  match range with
  | Some range =>
      let start := convertPosToZeroBased (start range) in
      let end_ := convertPosToZeroBased (end_ range) in
      clampedStart <- clampTextPosition start ;;
      clampedEnd <- clampTextPosition end_ ;;
      ls <- defined (Js.at_ (lines s) (line clampedStart)) ;;
      le <- defined (Js.at_ (lines s) (line clampedEnd)) ;;
      ret (Js.join
             (Js.slice ls 0 (col clampedStart)
              :: Js.aslice (lines s) (line clampedStart + 1) (line clampedEnd)
              ++ [Js.slice_from le (col clampedEnd)]))
  | None => ret (Js.join (lines s))
  end.

(** ** The public interface as data, and the states a client can reach *)

Inductive call : Type :=
| Insert (text : string) (at_ : ITextPosition)
| Replace (range : ITextRange) (text : string)
| Remove (range : ITextRange)
| GetSize
| GetContents (range : option ITextRange)
| IndexToPosition (index : Z)
| PositionToIndex (pos : ITextPosition).

(** The store a call leaves behind, whether it returned or raised. *)
Definition state_of {A} (o : outcome A) : option TextStore :=
  match o with
  | Ok _ s => Some s
  | Throw _ s => Some s
  | OutOfFuel => None
  end.

Definition exec (fuel : nat) (c : call) (s : TextStore) : option TextStore :=
  match c with
  | Insert text at_ => state_of (insert fuel text at_ s)
  | Replace range text => state_of (replace fuel range text s)
  | Remove range => state_of (remove fuel range s)
  | GetSize => state_of (getSize s)
  | GetContents range => state_of (getContents range s)
  | IndexToPosition index => state_of (indexToPosition fuel index s)
  | PositionToIndex pos => state_of (positionToIndex fuel pos s)
  end.

(** The stores reached from a fresh one by calls that satisfy [allowed]. *)
Inductive reachable (allowed : nat -> call -> TextStore -> Prop) : TextStore -> Prop :=
| reach_new (s : string) : reachable allowed (constructor s)
| reach_call (fuel : nat) (c : call) (st st' : TextStore) :
    reachable allowed st -> allowed fuel c st -> exec fuel c st = Some st' ->
    reachable allowed st'.

Definition returns {A} (o : outcome A) (a : A) : Prop := exists s, o = Ok a s.

Definition raises {A} (o : outcome A) (e : error) : Prop := exists s, o = Throw e s.

(** The run came to its end with a value: it neither raised nor ran out of
    its bound. *)
Definition completes {A} (o : outcome A) : Prop :=
  match o with
  | Ok _ _ => True
  | _ => False
  end.

(** The call returns. *)
Definition call_returns (fuel : nat) (c : call) (st : TextStore) : Prop :=
  match c with
  | Insert text at_ => completes (insert fuel text at_ st)
  | Replace range text => completes (replace fuel range text st)
  | Remove range => completes (remove fuel range st)
  | GetSize => completes (getSize st)
  | GetContents range => completes (getContents range st)
  | IndexToPosition index => completes (indexToPosition fuel index st)
  | PositionToIndex pos => completes (positionToIndex fuel pos st)
  end.

(** ** What the document is *)

(** The characters a list of lines takes up when each is followed by a
    newline. *)
Fixpoint span (ls : list string) : Z :=
  match ls with
  | [] => 0
  | l :: r => Js.len l + 1 + span r
  end.

(** The zero-based offset at which line [L] begins: [0] for line [0], the
    index after the preceding newline otherwise. *)
Definition lineStart (ls : list string) (L : Z) : Z :=
  span (firstn (Z.to_nat L) ls).

(** The size counter is the length of the content. *)
Definition size_consistent (st : TextStore) : Prop :=
  size st = Js.len (Js.join (lines st)).

(** A range that does not end on a line before the one it starts on. *)
Definition ordered (c : call) : Prop :=
  match c with
  | Replace range _ | Remove range => line (start range) <= line (end_ range)
  | _ => True
  end.

(** The calls that return and whose range, if they have one, is in order. *)
Definition successful_and_ordered (fuel : nat) (c : call) (st : TextStore) : Prop :=
  ordered c /\ call_returns fuel c st.

(** ** Specifications over [M] *)

(** [wp m Q E s]: run from [s], [m] returns a value and a store in [Q] or
    raises an error with a store in [E]; nothing is said of a run that
    exhausts its bound. *)
Definition wp {A} (m : M A) (Q : A -> TextStore -> Prop)
    (E : error -> TextStore -> Prop) (s : TextStore) : Prop :=
  match m s with
  | Ok a s' => Q a s'
  | Throw e s' => E e s'
  | OutOfFuel => True
  end.

Definition same_doc (s s' : TextStore) : Prop :=
  str s' = str s /\ lines s' = lines s /\ size s' = size s.

(** [m] takes every store to one with the same document, whether it
    returns or raises. *)
Definition keeps_doc {A} (m : M A) : Prop :=
  forall s, wp m (fun _ s' => same_doc s s') (fun _ s' => same_doc s s') s.

(** ** The document after an edit *)

(** The lines after [splice(L, count, ...updated.split(/\n/))]. *)
Definition spliced (ls : list string) (L : Z) (count : nat) (updated : string) : list string :=
  firstn (Z.to_nat L) ls ++ Js.split updated ++ skipn (Z.to_nat L + count) ls.

(** The number of lines [splice(L, deleteCount, ...)] removes. *)
Definition delete_count (ls : list string) (L deleteCount : Z) : nat :=
  Z.to_nat (Z.min (Z.max deleteCount 0) (Js.alen ls - L)).

Definition doc_ok (st : TextStore) : Prop :=
  lines st <> [] /\ size_consistent st.

(** ** The invariant of the caches *)

Fixpoint has_nl (s : string) : bool :=
  match s with
  | EmptyString => false
  | String c s' => Js.is_nl c || has_nl s'
  end.

(** The block entry of offset [k] names a line and a column on it, or one
    past its end, at that offset. *)
Definition block_ok (ls : list string) (k : Z) (p : ITextPosition) : Prop :=
  exists l, Js.at_ ls (line p) = Some l
            /\ 0 <= col p <= Js.len l + 1
            /\ k = lineStart ls (line p) + col p.

Definition blocks_ok (ls : list string) (cache : SCache.t ITextPosition) : Prop :=
  forall k p, SCache.get cache k = Some p -> block_ok ls k p.

(** A line cache entry holds one more than the offset at which its line
    begins: what [indexToPosition] writes as
    [steppedCharCount + newLineCharLen] and [zeroBasedPosToIndex] reads as
    [closestCachedLineToIdx - 1]. *)
Definition lineStarts_ok (ls : list string) (cache : VCache.t Z) : Prop :=
  forall L v, VCache.get cache L = Some v -> L < Js.alen ls /\ v = lineStart ls L + 1.

Definition store_ok (st : TextStore) : Prop :=
  Forall (fun l => has_nl l = false) (lines st)
  /\ blocks_ok (lines st) (indexToPosCache st)
  /\ lineStarts_ok (lines st) (lineToIndexCache st).

(** The lookup of [zeroBasedPosToIndex] finds a cached entry, at or before
    the line it looks for, and so does not start from
    [{ index: 0, line: 0 }]. *)
Definition anchored (fuel : nat) (cache : VCache.t Z) (target : Z) : Prop :=
  exists l v, zeroBasedPosToIndex_anchor fuel cache target = Some (Some (l, v)) /\ l <= target.

(** What [flushCache(from)] leaves in the caches. *)
Definition flushed (ls : list string) (from : ITextPosition) (s' : TextStore) : Prop :=
  (forall L v, VCache.get (lineToIndexCache s') L = Some v ->
               L < line from /\ v = lineStart ls L + 1)
  /\ (forall k p, SCache.get (indexToPosCache s') k = Some p ->
                  k < lineStart ls (line from) + col from /\ block_ok ls k p).

(** [checkTextPosition(pos)] lets [pos] through. *)
Definition passes (pos : ITextPosition) (st : TextStore) : bool :=
  match checkTextPosition pos st with
  | Ok _ _ => true
  | _ => false
  end.

(** The line whose entry a call looks up in the line cache, when it gets as
    far as [zeroBasedPosToIndex]: not an [insert] of the empty string, and
    not a call that [checkTextPosition] stops. *)
Definition lookup_line (c : call) (st : TextStore) : option Z :=
  match c with
  | Insert text at_ =>
      let pos := convertPosToZeroBased at_ in
      if negb (Js.len text =? 0) && passes pos st then Some (line pos) else None
  | Replace range _ | Remove range =>
      let start := convertPosToZeroBased (start range) in
      let end_ := convertPosToZeroBased (end_ range) in
      if passes start st && passes end_ st then Some (line start) else None
  | PositionToIndex pos =>
      let pos := convertPosToZeroBased pos in
      if passes pos st then Some (line pos) else None
  | GetSize | GetContents _ | IndexToPosition _ => None
  end.

(** The calls whose lookup in the line cache, if they make one, finds an
    entry. *)
Definition lookup_anchored (fuel : nat) (c : call) (st : TextStore) : Prop :=
  match lookup_line c st with
  | Some target => anchored fuel (lineToIndexCache st) target
  | None => True
  end.

(** ** The conversions on a sound store *)

(** The fuel that covers every inner loop of a walk over [ls]. *)
Definition blocks_bound (ls : list string) : nat := Z.to_nat (span ls / 10) + 1.

(** The fuel that covers a conversion on [st]. *)
Definition conversion_bound (st : TextStore) : nat :=
  List.length (lines st) + blocks_bound (lines st).

(** What [indexToPosition(index)] has to return and to leave behind: the
    line that holds [index], as a 1-based position, and that line's entry
    in the line cache. *)
Definition locates (s : TextStore) (index : Z) (o : outcome ITextPosition) : Prop :=
  exists L l s',
    o = Ok {| line := L + 1; col := index - lineStart (lines s) L + 1 |} s'
    /\ Js.at_ (lines s) L = Some l
    /\ lineStart (lines s) L <= index <= lineStart (lines s) L + Js.len l
    /\ store_ok s' /\ same_doc s s'
    /\ VCache.get (lineToIndexCache s') L = Some (lineStart (lines s) L + 1).

(** ** The content after an edit, and the stores that calls keep sound *)

(** The lines, each followed by a newline. *)
Fixpoint terminated (ls : list string) : string :=
  match ls with
  | [] => EmptyString
  | l :: r => (l ++ String Js.nl (terminated r))%string
  end.

(** [content] with [text] in place of its characters from offset [i] up to
    offset [j]. *)
Definition content_replaced (content : string) (i j : Z) (text : string) : string :=
  (Js.take (Z.to_nat i) content ++ text ++ Js.drop (Z.to_nat j) content)%string.

(** The bound [fuel] covers the lookup of line [L] in the line cache: the
    first half of [zeroBasedPosToIndex] comes to an end. *)
Definition lookup_ends (fuel : nat) (cache : VCache.t Z) (L : Z) : Prop :=
  zeroBasedPosToIndex_anchor fuel cache L <> None.

(** There is a line, and no line holds a newline. *)
Definition lines_ok (st : TextStore) : Prop :=
  lines st <> [] /\ Forall (fun l => has_nl l = false) (lines st).

(** The calls that return, whose range, if they have one, is in order and
    whose lookup in the line cache, if they make one, finds an entry. *)
Definition well_used (fuel : nat) (c : call) (st : TextStore) : Prop :=
  ordered c /\ lookup_anchored fuel c st /\ call_returns fuel c st.

(** What the specification says of a line cache entry: the value is the
    offset at which the line begins. *)
Definition lineCache_holds_offsets (st : TextStore) : Prop :=
  forall L v, VCache.get (lineToIndexCache st) L = Some v -> v = lineStart (lines st) L.

(** What the code keeps: one more than that offset. *)
Definition lineCache_holds_offsets_plus_one (st : TextStore) : Prop :=
  forall L v, VCache.get (lineToIndexCache st) L = Some v -> v = lineStart (lines st) L + 1.

(** ** The stores of the examples *)

Definition newline : string := String Js.nl EmptyString.

Definition hello_world : string := "hello" ++ newline ++ "world".

(** [hello_world] after [indexToPosition(6)]. *)
Definition warm_store : TextStore :=
  {| str := hello_world;
     lines := ["hello"; "world"];
     size := 11;
     indexToPosCache := [None; Some {| line := 1; col := 4 |}];
     lineToIndexCache := [Some 1; Some 7] |}.

(** [warm_store] after [insert("X", {line: 2, col: 3})]. *)
Definition warm_edited_store : TextStore :=
  {| str := hello_world;
     lines := ["hello"; "woXrld"];
     size := 12;
     indexToPosCache := [];
     lineToIndexCache := [Some 1] |}.

Definition whole_range : ITextRange :=
  {| start := {| line := 1; col := 1 |}; end_ := {| line := 2; col := 6 |} |}.

(** [hello_world] after [replace(whole_range, "HI")]. *)
Definition replaced_store : TextStore :=
  {| str := hello_world;
     lines := ["HI"];
     size := 2;
     indexToPosCache := [];
     lineToIndexCache := [] |}.

(** The store of ["a"] after [indexToPosition(0)]. *)
Definition one_line_warm_store : TextStore :=
  {| str := "a";
     lines := ["a"];
     size := 1;
     indexToPosCache := [];
     lineToIndexCache := [Some 1] |}.

Definition a_b : string := "a" ++ newline ++ "b".

(** A range that ends on the line before the one it starts on. *)
Definition reversed_range : ITextRange :=
  {| start := {| line := 2; col := 1 |}; end_ := {| line := 1; col := 1 |} |}.

(** [a_b] after [replace(reversed_range, "x")]. *)
Definition reversed_store : TextStore :=
  {| str := a_b;
     lines := ["a"; "xa"; "b"];
     size := 5;
     indexToPosCache := [];
     lineToIndexCache := [Some 0] |}.

(** [reversed_store] after a second [replace(reversed_range, "x")]: the
    lines are ["a"], ["xa"], ["xa"] and ["b"], nine characters with their
    separators, and the size counter is [7].  The range below covers them
    all. *)
Definition all_four_lines : ITextRange :=
  {| start := {| line := 1; col := 1 |}; end_ := {| line := 4; col := 2 |} |}.

(** Two replacements of [reversed_range], then the removal of all there
    is. *)
Definition shrinking_calls (fuel : nat) : M unit :=
  replace fuel reversed_range "x" ;;;
  replace fuel reversed_range "x" ;;;
  remove fuel all_four_lines.

(** [a_b] after [shrinking_calls]: one empty line, and a size counter that
    the removal of nine characters has taken from [7] to [-2]. *)
Definition shrunk_store : TextStore :=
  {| str := a_b;
     lines := [EmptyString];
     size := -2;
     indexToPosCache := [];
     lineToIndexCache := [] |}.

Definition thirty : string := "0123456789abcdefghijABCDEFGHIJ".

(** [thirty] after [indexToPosition(25)] and [insert("X", {line: 1, col: 31})]:
    the line cache is empty, two block entries are left. *)
Definition edited_store : TextStore :=
  {| str := thirty;
     lines := ["0123456789abcdefghijABCDEFGHIJX"];
     size := 31;
     indexToPosCache := [None; Some {| line := 0; col := 10 |};
                         Some {| line := 0; col := 20 |}];
     lineToIndexCache := [] |}.

(** [edited_store] after [insert("\n", {line: 1, col: 1})]. *)
Definition stale_store : TextStore :=
  {| str := thirty;
     lines := [EmptyString; "0123456789abcdefghijABCDEFGHIJX"];
     size := 32;
     indexToPosCache := [None; Some {| line := 0; col := 10 |}];
     lineToIndexCache := [] |}.

(** The three calls that lead from a fresh store on [thirty] to
    [stale_store]. *)
Definition stale_calls (fuel : nat) : M unit :=
  indexToPosition fuel 25 ;;;
  insert fuel "X" {| line := 1; col := 31 |} ;;;
  insert fuel newline {| line := 1; col := 1 |}.

(** * Properties *)

(** ** Strings *)

Lemma len_nonneg : forall s, 0 <= Js.len s.
Proof. intros s. unfold Js.len. lia. Qed.

Lemma length_append : forall s1 s2,
  String.length (s1 ++ s2)%string = (String.length s1 + String.length s2)%nat.
Proof.
  induction s1 as [|c s1 IH]; intros s2; simpl; [reflexivity|].
  rewrite IH. reflexivity.
Qed.

Lemma len_append : forall s1 s2, Js.len (s1 ++ s2)%string = Js.len s1 + Js.len s2.
Proof.
  intros s1 s2. unfold Js.len. rewrite length_append. lia.
Qed.

Lemma length_take : forall n s, String.length (Js.take n s) = Nat.min n (String.length s).
Proof.
  induction n as [|n IH]; intros [|c s]; simpl; try reflexivity.
  rewrite IH. reflexivity.
Qed.

Lemma length_drop : forall n s, String.length (Js.drop n s) = (String.length s - n)%nat.
Proof.
  induction n as [|n IH]; intros [|c s]; simpl; try reflexivity.
  apply IH.
Qed.

Lemma take_all : forall n s, (String.length s <= n)%nat -> Js.take n s = s.
Proof.
  induction n as [|n IH]; intros [|c s] H; simpl in *; try reflexivity; try lia.
  rewrite IH by lia. reflexivity.
Qed.

Lemma slice_prefix : forall s c, 0 <= c <= Js.len s -> Js.slice s 0 c = Js.take (Z.to_nat c) s.
Proof.
  intros s c Hc. unfold Js.slice, Js.rel_index. simpl.
  destruct (Z.ltb_spec c 0); [lia|].
  rewrite Z.min_l by lia. rewrite (Z.min_l 0) by (pose proof (len_nonneg s); lia).
  simpl. rewrite Z.sub_0_r.
  destruct s; reflexivity. 
Qed.

Lemma slice_suffix : forall s c, 0 <= c <= Js.len s -> Js.slice_from s c = Js.drop (Z.to_nat c) s.
Proof.
  intros s c Hc. unfold Js.slice_from, Js.slice, Js.rel_index.
  destruct (Z.ltb_spec c 0); [lia|].
  destruct (Z.ltb_spec (Js.len s) 0); [pose proof (len_nonneg s); lia|].
  rewrite Z.min_id, Z.min_l by lia.
  apply take_all. rewrite length_drop. unfold Js.len in *. lia.
Qed.

(** ** [split] and [join] *)

Lemma split_not_nil : forall s, Js.split s <> [].
Proof.
  intros [|c s]; simpl; [discriminate|].
  destruct (Js.is_nl c); [discriminate|].
  destruct (Js.split s); discriminate.
Qed.

Lemma join_split : forall s, Js.join (Js.split s) = s.
Proof.
  induction s as [|c s IH]; [reflexivity|].
  simpl. destruct (Js.is_nl c) eqn:E.
  - apply Ascii.eqb_eq in E. subst c.
    pose proof (split_not_nil s) as Hne.
    destruct (Js.split s) as [|h t] eqn:Es; [congruence|].
    change (Js.join (EmptyString :: h :: t))
      with (EmptyString ++ String Js.nl (Js.join (h :: t)))%string.
    rewrite IH. reflexivity.
  - pose proof (split_not_nil s) as Hne.
    destruct (Js.split s) as [|h t] eqn:Es; [congruence|].
    destruct t as [|h' t].
    + simpl in *. rewrite IH. reflexivity.
    + change (Js.join (String c h :: h' :: t)) with (String c h ++ String Js.nl (Js.join (h' :: t)))%string.
      change (Js.join (h :: h' :: t)) with (h ++ String Js.nl (Js.join (h' :: t)))%string in IH.
      cbn [append]. f_equal. exact IH.
Qed.

Lemma span_app : forall a b, span (a ++ b) = span a + span b.
Proof.
  induction a as [|x a IH]; intros b; simpl; [reflexivity|].
  rewrite IH. lia.
Qed.

Lemma span_nonneg : forall a, 0 <= span a.
Proof.
  induction a as [|x a IH]; simpl; [lia|]. pose proof (len_nonneg x). lia.
Qed.

Lemma len_join : forall ls, ls <> [] -> Js.len (Js.join ls) = span ls - 1.
Proof.
  induction ls as [|x ls IH]; intros Hne; [congruence|].
  destruct ls as [|y ls].
  - simpl. lia.
  - change (Js.join (x :: y :: ls)) with (x ++ String Js.nl (Js.join (y :: ls)))%string.
    rewrite len_append. 
    change (Js.len (String Js.nl (Js.join (y :: ls)))) with (Z.of_nat (S (String.length (Js.join (y :: ls))))).
    specialize (IH ltac:(discriminate)). unfold Js.len in IH.
    change (span (x :: y :: ls)) with (Js.len x + 1 + span (y :: ls)). lia.
Qed.

Lemma span_split : forall s, span (Js.split s) = Js.len s + 1.
Proof.
  intros s. pose proof (len_join (Js.split s) (split_not_nil s)) as H.
  rewrite join_split in H. lia.
Qed.

(** ** The rules of [wp] *)

Lemma wp_mono {A} (m : M A) (Q Q' : A -> TextStore -> Prop) (E E' : error -> TextStore -> Prop) s :
  wp m Q E s ->
  (forall a s', Q a s' -> Q' a s') -> (forall e s', E e s' -> E' e s') ->
  wp m Q' E' s.
Proof.
  unfold wp. intros H HQ HE. destruct (m s); auto.
Qed.

Lemma wp_bind {A B} (m : M A) (k : A -> M B) Q E s :
  wp m (fun a s' => wp (k a) Q E s') E s -> wp (bind m k) Q E s.
Proof.
  unfold wp, bind. destruct (m s); auto.
Qed.

Lemma wp_ret {A} (a : A) (Q : A -> TextStore -> Prop) E s : Q a s -> wp (ret a) Q E s.
Proof. auto. Qed.

Lemma wp_throw {A} e (Q : A -> TextStore -> Prop) (E : error -> TextStore -> Prop) s :
  E e s -> wp (throw e) Q E s.
Proof. auto. Qed.

Lemma wp_diverge {A} (Q : A -> TextStore -> Prop) E s : wp diverge Q E s.
Proof. exact I. Qed.

Lemma wp_this (Q : TextStore -> TextStore -> Prop) E s : Q s s -> wp this Q E s.
Proof. auto. Qed.

Lemma wp_put s' (Q : unit -> TextStore -> Prop) E s : Q tt s' -> wp (put s') Q E s.
Proof. auto. Qed.

Lemma wp_defined {A} (o : option A) (Q : A -> TextStore -> Prop) (E : error -> TextStore -> Prop) s :
  (forall a, o = Some a -> Q a s) -> (o = None -> E TypeError s) -> wp (defined o) Q E s.
Proof.
  intros HS HN. destruct o as [a|]; [apply (HS a eq_refl) | apply (HN eq_refl)].
Qed.

Lemma wp_within_fuel {A} (o : option A) (Q : A -> TextStore -> Prop) E s :
  (forall a, o = Some a -> Q a s) -> wp (within_fuel o) Q E s.
Proof.
  intros HS. destruct o as [a|]; [apply (HS a eq_refl) | exact I].
Qed.

(** One rule of the calculus, chosen by the shape of the program. *)
Ltac wp_step :=
  lazymatch goal with
  | |- wp (bind _ _) _ _ _ => apply wp_bind
  | |- wp (ret _) _ _ _ => apply wp_ret
  | |- wp (throw _) _ _ _ => apply wp_throw
  | |- wp diverge _ _ _ => apply wp_diverge
  | |- wp this _ _ _ => apply wp_this
  | |- wp (put _) _ _ _ => apply wp_put
  | |- wp (within_fuel _) _ _ _ => apply wp_within_fuel; intros ? ?
  | |- wp (defined _) _ _ _ => apply wp_defined; [intros ? ? | intros ?]
  | |- wp (if ?b then _ else _) _ _ _ => destruct b eqn:?
  | |- wp (let '(_, _) := ?p in _) _ _ _ => destruct p eqn:?
  | |- wp (match ?o with Some _ => _ | None => _ end) _ _ _ => destruct o eqn:?
  end.

(** ** Calls that leave the document alone *)

Lemma same_doc_refl s : same_doc s s.
Proof. repeat split. Qed.

Lemma same_doc_trans s1 s2 s3 : same_doc s1 s2 -> same_doc s2 s3 -> same_doc s1 s3.
Proof. unfold same_doc. intuition congruence. Qed.

(** Close a goal about [same_doc] by computing the fields. *)
Ltac doc_solve :=
  solve [ unfold same_doc in *;
          cbn [str lines size with_lineToIndexCache with_indexToPosCache] in *;
          intuition congruence ].

(** Use the specification [H] of a call and go on from its results. *)
Ltac wp_call H :=
  eapply wp_mono; [apply H | cbn beta; intros ? ? ? | cbn beta; intros ? ? ?].

Lemma zeroBasedPosToIndex_lines_keeps_doc fuel target currentLine offset :
  keeps_doc (zeroBasedPosToIndex_lines fuel target currentLine offset).
Proof.
  revert currentLine offset.
  induction fuel as [|fuel IH]; intros currentLine offset s; simpl.
  - wp_step.
  - repeat wp_step; try doc_solve.
    wp_call IH; doc_solve.
Qed.

Lemma zeroBasedPosToIndex_keeps_doc fuel pos : keeps_doc (zeroBasedPosToIndex fuel pos).
Proof.
  intros s. unfold zeroBasedPosToIndex.
  repeat wp_step; try doc_solve;
    wp_call zeroBasedPosToIndex_lines_keeps_doc; repeat wp_step; doc_solve.
Qed.

Lemma checkTextPosition_spec pos s :
  wp (checkTextPosition pos)
     (fun _ s' => s' = s /\ 0 <= line pos /\
                  exists l, Js.at_ (lines s) (line pos) = Some l /\ 0 <= col pos <= Js.len l)
     (fun _ s' => s' = s) s.
Proof.
  unfold checkTextPosition.
  wp_step. wp_step. wp_step.
  destruct (Z.gtb_spec (line pos) (Js.alen (lines s))) as [Hgt|Hle].
  - repeat wp_step; reflexivity.
  - repeat wp_step; try reflexivity.
    split; [reflexivity|].
    apply orb_false_iff in Heqb0. destruct Heqb0 as [Hc Hl].
    apply Z.ltb_ge in Hc, Hl.
    split; [assumption|]. exists a. split; [assumption|].
    destruct (Z.gtb_spec (col pos) (Js.len a)); [discriminate | lia].
Qed.

Lemma checkTextPosition_keeps_doc pos : keeps_doc (checkTextPosition pos).
Proof.
  intros s. wp_call checkTextPosition_spec.
  - destruct H as [-> _]. apply same_doc_refl.
  - subst. apply same_doc_refl.
Qed.

Lemma positionToIndex_keeps_doc fuel pos : keeps_doc (positionToIndex fuel pos).
Proof.
  intros s. unfold positionToIndex. wp_step.
  wp_call checkTextPosition_keeps_doc; [|assumption].
  wp_call zeroBasedPosToIndex_keeps_doc; doc_solve.
Qed.

Lemma indexToPosition_lines_keeps_doc fuel index lineNumber steppedCharCount closestIndex :
  keeps_doc (indexToPosition_lines fuel index lineNumber steppedCharCount closestIndex).
Proof.
  revert lineNumber steppedCharCount closestIndex.
  induction fuel as [|fuel IH]; intros lineNumber steppedCharCount closestIndex s; simpl.
  - repeat wp_step; doc_solve.
  - repeat wp_step; try doc_solve.
    wp_call IH; doc_solve.
Qed.

Lemma indexToPosition_keeps_doc fuel index : keeps_doc (indexToPosition fuel index).
Proof.
  intros s. unfold indexToPosition.
  repeat wp_step; try doc_solve;
    wp_call indexToPosition_lines_keeps_doc; repeat wp_step; doc_solve.
Qed.

Lemma clampTextPosition_keeps_doc pos : keeps_doc (clampTextPosition pos).
Proof.
  intros s. unfold clampTextPosition. repeat wp_step; doc_solve.
Qed.

Lemma getContents_keeps_doc range : keeps_doc (getContents range).
Proof.
  intros s. unfold getContents. wp_step. wp_step. wp_step.
  - wp_step. wp_call clampTextPosition_keeps_doc; [|assumption].
    wp_step. wp_call clampTextPosition_keeps_doc; [|doc_solve].
    repeat wp_step; doc_solve.
  - wp_step. doc_solve.
Qed.

Lemma getSize_keeps_doc : keeps_doc getSize.
Proof.
  intros s. unfold getSize. repeat wp_step. doc_solve.
Qed.

Lemma flushCache_keeps_doc fuel from : keeps_doc (flushCache fuel from).
Proof.
  intros s. unfold flushCache. wp_step.
  wp_call zeroBasedPosToIndex_keeps_doc; [|assumption].
  repeat wp_step. doc_solve.
Qed.

(** ** The edits, on the document *)

Lemma at_Some_bounds {T} (a : list T) k x :
  Js.at_ a k = Some x -> 0 <= k < Js.alen a.
Proof.
  unfold Js.at_, Js.alen. destruct (Z.ltb_spec k 0) as [Hk|Hk]; [discriminate|].
  intros H. assert (H' : nth_error a (Z.to_nat k) <> None) by congruence.
  apply nth_error_Some in H'. lia.
Qed.

Lemma splice_in_bounds (ls : list string) L deleteCount updated :
  0 <= L < Js.alen ls ->
  Js.splice ls L deleteCount (Js.split updated)
  = (firstn (delete_count ls L deleteCount) (skipn (Z.to_nat L) ls),
     spliced ls L (delete_count ls L deleteCount) updated).
Proof.
  intros HL. unfold Js.splice, spliced, delete_count, Js.rel_index.
  destruct (Z.ltb_spec L 0) as [HL0|HL0]; [lia|].
  rewrite (Z.min_l L) by lia. rewrite Z2Nat.id by lia. reflexivity.
Qed.

Lemma insert_wp fuel text at_ (Q : unit -> TextStore -> Prop) E s :
  (Js.len text = 0 -> Q tt s) ->
  (forall e, E e s) ->
  (forall l,
      let pos := convertPosToZeroBased at_ in
      Js.len text <> 0 ->
      Js.at_ (lines s) (line pos) = Some l -> 0 <= col pos <= Js.len l ->
      wp (flushCache fuel pos)
         (fun _ s1 =>
            same_doc s s1 ->
            Q tt (mkStore (str s1)
                    (spliced (lines s1) (line pos) 1
                       (Js.slice l 0 (col pos) ++ text ++ Js.slice_from l (col pos))%string)
                    (size s1 + Js.len text) (indexToPosCache s1) (lineToIndexCache s1)))
         (fun e s1 => same_doc s s1 -> E e s1) s) ->
  wp (insert fuel text at_) Q E s.
Proof.
  intros Hempty HE Hedit. unfold insert.
  destruct (Z.eqb_spec (Js.len text) 0) as [H0|H0]; [apply wp_ret; auto|].
  wp_step. wp_call checkTextPosition_spec.
  2:{ subst. apply HE. }
  destruct H as (-> & Hline & l & Hl & Hcol).
  wp_step.
  specialize (Hedit l H0 Hl Hcol). cbn zeta in Hedit.
  pose proof (flushCache_keeps_doc fuel (convertPosToZeroBased at_) s) as Hkeep.
  unfold wp in *. destruct (flushCache fuel (convertPosToZeroBased at_) s) as [[] s1| |]; auto.
  specialize (Hedit Hkeep).
  destruct Hkeep as (Hstr & Hlines & Hsize).
  unfold bind, this, put. cbn [lines str size indexToPosCache lineToIndexCache].
  rewrite Hlines, Hl. cbn [defined ret].
  rewrite splice_in_bounds by (eapply at_Some_bounds; eassumption).
  unfold delete_count.
  assert (Hb := at_Some_bounds _ _ _ Hl).
  replace (Z.to_nat (Z.min (Z.max 1 0) (Js.alen (lines s) - line (convertPosToZeroBased at_)))) with 1%nat by lia.
  rewrite Hlines in Hedit. exact Hedit.
Qed.

Lemma replace_wp fuel range text (Q : unit -> TextStore -> Prop) E s :
  (forall e, E e s) ->
  (forall ls le,
      let from := convertPosToZeroBased (start range) in
      let to := convertPosToZeroBased (end_ range) in
      Js.at_ (lines s) (line from) = Some ls -> 0 <= col from <= Js.len ls ->
      Js.at_ (lines s) (line to) = Some le -> 0 <= col to <= Js.len le ->
      wp (flushCache fuel from)
         (fun _ s1 =>
            same_doc s s1 ->
            let updated := (Js.slice ls 0 (col from) ++ text ++ Js.slice_from le (col to))%string in
            let count := delete_count (lines s1) (line from) (line to + 1 - line from) in
            Q tt (mkStore (str s1)
                    (spliced (lines s1) (line from) count updated)
                    (size s1
                     - Js.len (Js.join (firstn count (skipn (Z.to_nat (line from)) (lines s1))))
                     + Js.len updated)
                    (indexToPosCache s1) (lineToIndexCache s1)))
         (fun e s1 => same_doc s s1 -> E e s1) s) ->
  wp (replace fuel range text) Q E s.
Proof.
  intros HE Hedit. unfold replace.
  wp_step. wp_call checkTextPosition_spec.
  2:{ subst. apply HE. }
  destruct H as (-> & _ & ls & Hls & Hcs).
  wp_step. wp_call checkTextPosition_spec.
  2:{ subst. apply HE. }
  destruct H as (-> & _ & le & Hle & Hce).
  wp_step.
  specialize (Hedit ls le Hls Hcs Hle Hce). cbn zeta in Hedit.
  pose proof (flushCache_keeps_doc fuel (convertPosToZeroBased (start range)) s) as Hkeep.
  unfold wp in *.
  destruct (flushCache fuel (convertPosToZeroBased (start range)) s) as [[] s1| |]; auto.
  specialize (Hedit Hkeep).
  destruct Hkeep as (Hstr & Hlines & Hsize).
  unfold bind, this, put. cbn [lines str size indexToPosCache lineToIndexCache].
  rewrite Hlines, Hls. cbn [defined ret]. rewrite Hle. cbn [defined ret].
  rewrite splice_in_bounds by (eapply at_Some_bounds; eassumption).
  rewrite Hlines in Hedit. exact Hedit.
Qed.

(** ** Size consistency *)

Lemma constructor_doc_ok s : doc_ok (constructor s).
Proof.
  split; [apply split_not_nil|].
  unfold size_consistent. simpl. rewrite join_split. reflexivity.
Qed.

Lemma same_doc_ok s s' : same_doc s s' -> doc_ok s -> doc_ok s'.
Proof.
  unfold same_doc, doc_ok, size_consistent. intros (_ & Hl & Hs) [Hne Hsz].
  rewrite Hl, Hs. split; assumption.
Qed.

Lemma middle_split {T} (a : list T) n c :
  a = firstn n a ++ firstn c (skipn n a) ++ skipn (n + c) a.
Proof.
  rewrite Nat.add_comm, <- skipn_skipn.
  rewrite (firstn_skipn c (skipn n a)). symmetry. apply firstn_skipn.
Qed.

Lemma spliced_not_nil ls L count updated : spliced ls L count updated <> [].
Proof.
  unfold spliced. pose proof (split_not_nil updated) as H.
  destruct (firstn (Z.to_nat L) ls); simpl; [|discriminate].
  destruct (Js.split updated); [congruence | discriminate].
Qed.

Lemma span_spliced ls L count updated :
  span (spliced ls L count updated)
  = span ls - span (firstn count (skipn (Z.to_nat L) ls)) + Js.len updated + 1.
Proof.
  unfold spliced. rewrite (middle_split ls (Z.to_nat L) count) at 3.
  rewrite !span_app, span_split. lia.
Qed.

Lemma len_slice_around l c text suffix :
  0 <= c <= Js.len l ->
  Js.len (Js.slice l 0 c ++ text ++ suffix)%string = c + Js.len text + Js.len suffix.
Proof.
  intros Hc. rewrite !len_append, slice_prefix by assumption.
  unfold Js.len at 1. rewrite length_take. unfold Js.len in *. lia.
Qed.

Lemma len_slice_from l c : 0 <= c <= Js.len l -> Js.len (Js.slice_from l c) = Js.len l - c.
Proof.
  intros Hc. rewrite slice_suffix by assumption.
  unfold Js.len at 1. rewrite length_drop. unfold Js.len in *. lia.
Qed.

Lemma insert_doc_ok fuel text at_ s :
  doc_ok s -> wp (insert fuel text at_) (fun _ s' => doc_ok s') (fun _ s' => doc_ok s') s.
Proof.
  intros Hok. apply insert_wp.
  - intros _. exact Hok.
  - intros _. exact Hok.
  - intros l pos Htext Hl Hcol.
    wp_call flushCache_keeps_doc; [|intros _; eapply same_doc_ok; eassumption].
    intros _. destruct H as (_ & Hlines & Hsize). destruct Hok as [Hne Hsz].
    split; [apply spliced_not_nil|].
    unfold size_consistent in *. cbn [size lines].
    rewrite len_join by apply spliced_not_nil.
    rewrite span_spliced, len_slice_around, len_slice_from by assumption.
    rewrite Hlines, Hsize, Hsz, len_join by assumption.
    pose proof (at_Some_bounds _ _ _ Hl) as Hb.
    assert (Hmid : firstn 1 (skipn (Z.to_nat (line pos)) (lines s)) = [l]).
    { unfold Js.at_ in Hl. destruct (line pos <? 0); [discriminate|].
      revert Hl. generalize (Z.to_nat (line pos)) (lines s). clear.
      induction n as [|n IH]; intros [|x a] H; simpl in *; try discriminate.
      - congruence.
      - apply IH, H. }
    rewrite Hmid. simpl. lia.
Qed.

Lemma length_removed (ls : list string) L count :
  (1 <= count)%nat -> 0 <= L < Js.alen ls ->
  firstn count (skipn (Z.to_nat L) ls) <> [].
Proof.
  intros Hc HL Hnil. apply (f_equal (@List.length string)) in Hnil.
  rewrite length_firstn, length_skipn in Hnil. unfold Js.alen in HL. simpl in Hnil. lia.
Qed.

Lemma replace_doc_ok fuel range text s :
  line (start range) <= line (end_ range) ->
  doc_ok s -> wp (replace fuel range text) (fun _ s' => doc_ok s') (fun _ s' => doc_ok s') s.
Proof.
  intros Hord Hok. apply replace_wp.
  - intros _. exact Hok.
  - intros ls le from to Hls Hcs Hle Hce.
    wp_call flushCache_keeps_doc; [|intros _; eapply same_doc_ok; eassumption].
    intros _ updated count. destruct H as (_ & Hlines & Hsize). destruct Hok as [Hne Hsz].
    split; [apply spliced_not_nil|].
    unfold size_consistent in *. cbn [size lines].
    rewrite (len_join (spliced _ _ _ _)) by apply spliced_not_nil.
    rewrite span_spliced.
    pose proof (at_Some_bounds _ _ _ Hls) as Hbs.
    pose proof (at_Some_bounds _ _ _ Hle) as Hbe.
    assert (Hcount : (1 <= count)%nat).
    { subst count from to. unfold delete_count. rewrite Hlines.
      unfold convertPosToZeroBased in *. cbn [line col] in *. lia. }
    rewrite (len_join (firstn _ _))
      by (apply length_removed; [exact Hcount | rewrite Hlines; exact Hbs]).
    rewrite Hsize, Hsz, len_join by assumption. rewrite Hlines. lia.
Qed.

Lemma remove_doc_ok fuel range s :
  line (start range) <= line (end_ range) ->
  doc_ok s -> wp (remove fuel range) (fun _ s' => doc_ok s') (fun _ s' => doc_ok s') s.
Proof. apply replace_doc_ok. Qed.

Lemma keeps_doc_ok {A} (m : M A) s :
  keeps_doc m -> doc_ok s -> wp m (fun _ s' => doc_ok s') (fun _ s' => doc_ok s') s.
Proof.
  intros Hm Hok. wp_call Hm; eapply same_doc_ok; eassumption.
Qed.

Lemma wp_state_of {A} (m : M A) (P : TextStore -> Prop) s s' :
  wp m (fun _ s1 => P s1) (fun _ s1 => P s1) s -> state_of (m s) = Some s' -> P s'.
Proof.
  unfold wp, state_of. destruct (m s); intros H E; inversion E; subst; exact H.
Qed.

Lemma exec_doc_ok fuel c st st' :
  ordered c -> doc_ok st -> exec fuel c st = Some st' -> doc_ok st'.
Proof.
  intros Hord Hok Hexec. destruct c; unfold exec in Hexec; cbn [ordered] in Hord;
    (eapply wp_state_of; [|exact Hexec]).
  - apply insert_doc_ok, Hok.
  - apply replace_doc_ok; assumption.
  - apply remove_doc_ok; assumption.
  - apply keeps_doc_ok; [apply getSize_keeps_doc | exact Hok].
  - apply keeps_doc_ok; [apply getContents_keeps_doc | exact Hok].
  - apply keeps_doc_ok; [apply indexToPosition_keeps_doc | exact Hok].
  - apply keeps_doc_ok; [apply positionToIndex_keeps_doc | exact Hok].
Qed.

(** C7 (amended).  Construct a store from any string and make any sequence
    of successful calls, calls that return, in which every replaced or
    removed range ends on a line at or after the one it starts on:
    [getSize()] is the length of [getContents()]. *)
Theorem size_consistent_ordered :
  forall st, reachable successful_and_ordered st ->
    exists n text, getSize st = Ok n st /\ getContents None st = Ok text st /\ n = Js.len text.
Proof.
  intros st Hreach.
  assert (Hok : doc_ok st).
  { induction Hreach as [s | fuel c st st' _ IH [Hord _] Hexec].
    - apply constructor_doc_ok.
    - eapply exec_doc_ok; eassumption. }
  exists (size st), (Js.join (lines st)). repeat split. apply Hok.
Qed.

(** ** The one [RangeError] of [indexToPosition] *)

Lemma indexToPosition_lines_TypeError fuel index :
  forall lineNumber steppedCharCount closestIndex s,
    wp (indexToPosition_lines fuel index lineNumber steppedCharCount closestIndex)
       (fun _ _ => True) (fun e _ => e = TypeError) s.
Proof.
  induction fuel as [|fuel IH]; intros L stepped ci s; cbn [indexToPosition_lines].
  - repeat wp_step; auto.
  - repeat wp_step; auto.
Qed.

Lemma indexToPosition_IndexOutOfRange fuel index s :
  raises (indexToPosition fuel index s) IndexOutOfRange <-> size s < index.
Proof.
  split.
  - intros [s' Hraise].
    destruct (Z.gtb_spec index (size s)) as [Hgt|Hle]; [exact Hgt|]. exfalso.
    assert (H : wp (indexToPosition fuel index) (fun _ _ => True) (fun e _ => e = TypeError) s).
    { unfold indexToPosition. wp_step. wp_step.
      destruct (Z.gtb_spec index (size s)) as [Hgt|_]; [lia|].
      repeat wp_step; auto;
        (wp_call indexToPosition_lines_TypeError; [wp_step; auto | assumption]). }
    unfold wp in H. rewrite Hraise in H. discriminate.
  - intros Hlt. exists s. unfold indexToPosition, bind, this.
    destruct (Z.gtb_spec index (size s)) as [_|Hle]; [reflexivity | lia].
Qed.

(** ** Negative indices *)

Lemma SCache_get_negative {T} (arr : SCache.t T) idx : idx < 0 -> SCache.get arr idx = None.
Proof.
  intros Hneg. unfold SCache.get, DEFAULT_BLOCK_SIZE.
  destruct (idx mod 10 =? 0); [|reflexivity].
  unfold Js.sparse_get, Js.at_.
  destruct (Z.ltb_spec (idx / 10) 0) as [H|H]; [reflexivity|].
  Z.div_mod_to_equations. lia.
Qed.

Lemma roundToLowerBlockSize_spec index :
  roundToLowerBlockSize index <= index < roundToLowerBlockSize index + 10
  /\ roundToLowerBlockSize index mod 10 = 0.
Proof.
  unfold roundToLowerBlockSize, DEFAULT_BLOCK_SIZE.
  split; [Z.div_mod_to_equations; lia|]. apply Z.mod_mul. lia.
Qed.

Lemma findHighestCachedIndexToPos_below fuel cache end_ :
  end_ < DEFAULT_BLOCK_SIZE ->
  findHighestCachedIndexToPos (S fuel) cache DEFAULT_BLOCK_SIZE end_ = Some None.
Proof.
  unfold DEFAULT_BLOCK_SIZE. intros Hend. simpl.
  set (m := (end_ - 10) / 2 + 10).
  assert (Hm : m < 10).
  { subst m. Z.div_mod_to_equations. lia. }
  assert (Hm' : (if negb (m mod DEFAULT_BLOCK_SIZE =? 0) then roundToLowerBlockSize m else m) < 10).
  { destruct (negb (m mod DEFAULT_BLOCK_SIZE =? 0)); [|exact Hm].
    pose proof (roundToLowerBlockSize_spec m). lia. }
  unfold DEFAULT_BLOCK_SIZE in *.
  destruct (Z.ltb_spec (if negb (m mod 10 =? 0) then roundToLowerBlockSize m else m) 10) as [H|H];
    [reflexivity | lia].
Qed.

Lemma indexToPosition_blocks_eq fuel cache closestIndex stop lineNumber steppedCharCount :
  indexToPosition_blocks fuel cache closestIndex stop lineNumber steppedCharCount
  = if closestIndex =? stop then Some (closestIndex, cache)
    else match fuel with
         | O => None
         | S fuel' =>
             indexToPosition_blocks fuel'
               match SCache.get cache (closestIndex + DEFAULT_BLOCK_SIZE) with
               | Some _ => cache
               | None => SCache.set cache (closestIndex + DEFAULT_BLOCK_SIZE)
                           {| line := lineNumber;
                              col := closestIndex + DEFAULT_BLOCK_SIZE - steppedCharCount |}
               end
               (closestIndex + DEFAULT_BLOCK_SIZE) stop lineNumber steppedCharCount
         end.
Proof. destruct fuel; reflexivity. Qed.

Lemma indexToPosition_blocks_overshoot :
  forall fuel cache closestIndex highestIndexableStop lineNumber steppedCharCount,
    highestIndexableStop < closestIndex ->
    indexToPosition_blocks fuel cache closestIndex highestIndexableStop
      lineNumber steppedCharCount = None.
Proof.
  induction fuel as [|fuel IH]; intros cache ci stop L stepped Hlt; simpl.
  - destruct (Z.eqb_spec ci stop); [lia | reflexivity].
  - destruct (Z.eqb_spec ci stop); [lia |].
    apply IH. unfold DEFAULT_BLOCK_SIZE. lia.
Qed.

Lemma indexToPosition_blocks_reaches (n : nat) :
  forall fuel cache closestIndex stop lineNumber steppedCharCount,
    stop = closestIndex + DEFAULT_BLOCK_SIZE * Z.of_nat n ->
    (n <= fuel)%nat ->
    exists cache',
      indexToPosition_blocks fuel cache closestIndex stop lineNumber steppedCharCount
      = Some (stop, cache').
Proof.
  unfold DEFAULT_BLOCK_SIZE.
  induction n as [|n IH]; intros fuel cache ci stop L stepped Hstop Hfuel;
    rewrite indexToPosition_blocks_eq.
  - exists cache. replace stop with ci by lia. rewrite Z.eqb_refl. reflexivity.
  - destruct fuel as [|fuel]; [lia|].
    destruct (Z.eqb_spec ci stop) as [H|H]; [lia|].
    apply IH; unfold DEFAULT_BLOCK_SIZE; lia.
Qed.

(** C10 (amended).  [indexToPosition] raises [IndexOutOfRange] exactly when
    the index exceeds the size counter: there is no lower bound.  For a
    negative index that is not above the size counter, the call raises
    nothing and returns [{line: 1, col: index + 1}], a column below [1],
    given a bound that covers the block boundaries of the first line.  The
    store has a line, as every store has; the size counter is below a
    negative index only where edits with ranges out of order have made it
    negative. *)
Theorem indexToPosition_negative_index :
  forall st index,
    lines st <> [] -> index < 0 -> index <= size st ->
    (exists fuel0, forall fuel, (fuel0 <= fuel)%nat ->
       returns (indexToPosition fuel index st) {| line := 1; col := index + 1 |})
    /\ index + 1 < 1
    /\ (forall fuel j, raises (indexToPosition fuel j st) IndexOutOfRange <-> size st < j).
Proof.
  intros st index Hne Hneg Hsize.
  split; [|split; [lia | intros fuel j; apply indexToPosition_IndexOutOfRange]].
  destruct (lines st) as [|l0 rest] eqn:Hlines; [congruence|]. clear Hne.
  pose proof (roundToLowerBlockSize_spec (Js.len l0 + 1)) as [Hround Hmod].
  pose proof (len_nonneg l0) as Hl0.
  set (n := Z.to_nat (roundToLowerBlockSize (Js.len l0 + 1) / 10)).
  assert (Hstop : roundToLowerBlockSize (Js.len l0 + 1) = 0 + DEFAULT_BLOCK_SIZE * Z.of_nat n).
  { subst n. unfold DEFAULT_BLOCK_SIZE.
    rewrite Z2Nat.id by (Z.div_mod_to_equations; lia).
    Z.div_mod_to_equations. lia. }
  exists (S n). intros fuel Hfuel.
  destruct fuel as [|fuel]; [lia|].
  unfold returns, indexToPosition, bind, this.
  destruct (Z.gtb_spec index (size st)) as [H|_]; [lia|].
  pose proof (roundToLowerBlockSize_spec index) as [Hri _].
  rewrite !SCache_get_negative by (unfold DEFAULT_BLOCK_SIZE; lia).
  rewrite findHighestCachedIndexToPos_below by (unfold DEFAULT_BLOCK_SIZE; lia).
  cbn [within_fuel ret line col].
  cbn [indexToPosition_lines]. unfold bind, this.
  rewrite Hlines.
  change (0 <? Js.alen (l0 :: rest)) with (0 <? Z.pos (Pos.of_succ_nat (List.length rest))).
  cbn [Z.ltb Z.compare]. cbn [Js.at_ Z.ltb Z.compare Z.to_nat nth_error defined ret].
  change (0 - 0) with 0.
  replace (0 + (Js.len l0 + 1)) with (Js.len l0 + 1) by lia.
  rewrite Hstop.
  destruct (indexToPosition_blocks_reaches n (S fuel) (indexToPosCache st) 0
              (0 + DEFAULT_BLOCK_SIZE * Z.of_nat n) 0 0 eq_refl)
    as [cache' Hblocks]; [lia|].
  rewrite Hblocks.
  cbn [within_fuel ret put].
  destruct (Z.gtb_spec (Js.len l0 + 1) index) as [_|H]; [|lia].
  cbn [ret line col]. replace (index - 0) with index by lia.
  eexists. reflexivity.
Qed.

(** ** Arrays with holes *)

Lemma sparse_get_nat {T} (a : list (option T)) (n : nat) :
  Js.sparse_get a (Z.of_nat n) = match nth_error a n with Some (Some v) => Some v | _ => None end.
Proof.
  unfold Js.sparse_get, Js.at_.
  destruct (Z.ltb_spec (Z.of_nat n) 0) as [H|H]; [lia|].
  rewrite Nat2Z.id. reflexivity.
Qed.

Lemma sparse_get_Some_nonneg {T} (a : list (option T)) k v :
  Js.sparse_get a k = Some v -> 0 <= k.
Proof.
  unfold Js.sparse_get, Js.at_.
  destruct (Z.ltb_spec k 0) as [H|H]; [discriminate | intros _; exact H].
Qed.

Lemma nth_error_sparse_set_nat {T} (a : list (option T)) (k n : nat) (v : T) :
  match nth_error (Js.sparse_set_nat a k v) n with Some (Some w) => Some w | _ => None end
  = if Nat.eqb n k then Some v
    else match nth_error a n with Some (Some w) => Some w | _ => None end.
Proof.
  revert a n. induction k as [|k IH]; intros a n.
  - destruct a as [|x a]; destruct n as [|n]; simpl; try reflexivity.
    destruct n; reflexivity.
  - destruct a as [|x a]; destruct n as [|n]; simpl; try reflexivity.
    + rewrite IH. destruct (Nat.eqb n k); [reflexivity|]. destruct n; reflexivity.
    + apply IH.
Qed.

Lemma sparse_get_set {T} (a : list (option T)) k k' (v : T) :
  0 <= k ->
  Js.sparse_get (Js.sparse_set a k v) k' = if k' =? k then Some v else Js.sparse_get a k'.
Proof.
  intros Hk. unfold Js.sparse_set.
  destruct (Z.ltb_spec k 0) as [H|_]; [lia|].
  destruct (Z.ltb_spec k' 0) as [Hk'|Hk'].
  - destruct (Z.eqb_spec k' k); [lia|].
    unfold Js.sparse_get, Js.at_.
    destruct (Z.ltb_spec k' 0); [reflexivity | lia].
  - rewrite <- (Z2Nat.id k') by assumption.
    rewrite !sparse_get_nat, nth_error_sparse_set_nat.
    destruct (Nat.eqb_spec (Z.to_nat k') (Z.to_nat k)) as [E|E];
      destruct (Z.eqb_spec (Z.of_nat (Z.to_nat k')) k) as [E'|E']; try reflexivity; lia.
Qed.

Lemma sparse_get_aslice {T} (a : list (option T)) n k :
  0 <= n ->
  Js.sparse_get (Js.aslice a 0 n) k = if k <? n then Js.sparse_get a k else None.
Proof.
  intros Hn. unfold Js.aslice, Js.rel_index. simpl (0 <? 0).
  destruct (Z.ltb_spec n 0) as [H|_]; [lia|].
  rewrite (Z.min_l 0) by (unfold Js.alen; lia). simpl (Z.to_nat 0). rewrite skipn_O, Z.sub_0_r.
  unfold Js.sparse_get, Js.at_.
  destruct (Z.ltb_spec k 0) as [Hk|Hk].
  - destruct (k <? n); reflexivity.
  - destruct (Z.ltb_spec k n) as [Hkn|Hkn].
    + destruct (Z.le_gt_cases n (Js.alen a)) as [Hle|Hgt].
      * rewrite Z.min_l by assumption. rewrite nth_error_firstn.
        destruct (Nat.ltb_spec (Z.to_nat k) (Z.to_nat n)) as [_|Hc]; [reflexivity | lia].
      * rewrite Z.min_r by lia. unfold Js.alen. rewrite Nat2Z.id, firstn_all. reflexivity.
    + replace (nth_error (firstn (Z.to_nat (Z.min n (Js.alen a))) a) (Z.to_nat k)) with (@None (option T)); [reflexivity|].
      symmetry. apply nth_error_None. rewrite length_firstn. unfold Js.alen. lia.
Qed.

(** ** The caches *)

Lemma VCache_get_set {T} (arr : VCache.t T) k k' (v : T) :
  0 <= k ->
  VCache.get (VCache.set arr k v) k' = if k' =? k then Some v else VCache.get arr k'.
Proof. apply sparse_get_set. Qed.

Lemma VCache_get_flush {T} (arr : VCache.t T) from k :
  0 <= from ->
  VCache.get (VCache.flush arr from) k = if k <? from then VCache.get arr k else None.
Proof. apply sparse_get_aslice. Qed.

(** Only multiples of the block size have an entry. *)
Lemma SCache_get_Some {T} (arr : SCache.t T) k v :
  SCache.get arr k = Some v -> 0 <= k /\ k mod 10 = 0.
Proof.
  unfold SCache.get, DEFAULT_BLOCK_SIZE.
  destruct (Z.eqb_spec (k mod 10) 0) as [Hm|Hm]; [|discriminate].
  intros H. apply sparse_get_Some_nonneg in H. split; [|exact Hm].
  Z.div_mod_to_equations. lia.
Qed.

Lemma SCache_get_set {T} (arr : SCache.t T) k k' (v w : T) :
  SCache.get (SCache.set arr k v) k' = Some w ->
  (k' = k /\ w = v) \/ SCache.get arr k' = Some w.
Proof.
  unfold SCache.get, SCache.set, DEFAULT_BLOCK_SIZE.
  destruct (Z.eqb_spec (k' mod 10) 0) as [Hm'|Hm']; [|discriminate].
  destruct (Z.eqb_spec (k mod 10) 0) as [Hm|Hm]; [|auto].
  destruct (Z.ltb_spec (k / 10) 0) as [Hneg|Hpos].
  - unfold Js.sparse_set. destruct (Z.ltb_spec (k / 10) 0); [auto | lia].
  - rewrite sparse_get_set by assumption.
    destruct (Z.eqb_spec (k' / 10) (k / 10)) as [E|E]; [|auto].
    intros H. left. split; [|congruence]. Z.div_mod_to_equations. lia.
Qed.

Lemma SCache_get_flush {T} (arr : SCache.t T) from k (w : T) :
  0 <= from -> from mod 10 = 0 ->
  SCache.get (SCache.flush arr from) k = Some w ->
  k < from /\ SCache.get arr k = Some w.
Proof.
  intros Hfrom Hmod. unfold SCache.get, SCache.flush, DEFAULT_BLOCK_SIZE.
  destruct (Z.eqb_spec (k mod 10) 0) as [Hm|Hm]; [|discriminate].
  rewrite sparse_get_aslice by (apply Z.quot_pos; lia).
  destruct (Z.ltb_spec (k / 10) (from ÷ 10)) as [Hlt|Hge]; [|discriminate].
  intros H. split; [|exact H].
  rewrite Z.quot_div_nonneg in Hlt by lia. Z.div_mod_to_equations. lia.
Qed.

(** ** Where a line begins *)

Lemma lineStart_zero ls : lineStart ls 0 = 0.
Proof. reflexivity. Qed.

Lemma at_nat {T} (a : list T) (n : nat) : Js.at_ a (Z.of_nat n) = nth_error a n.
Proof.
  unfold Js.at_. destruct (Z.ltb_spec (Z.of_nat n) 0) as [H|H]; [lia|].
  rewrite Nat2Z.id. reflexivity.
Qed.

Lemma span_firstn_succ ls (n : nat) l :
  nth_error ls n = Some l -> span (firstn (S n) ls) = span (firstn n ls) + Js.len l + 1.
Proof.
  revert ls. induction n as [|n IH]; intros [|x ls] H; simpl in H; try discriminate.
  - inversion H; subst. simpl. lia.
  - specialize (IH ls H). cbn [firstn span]. cbn [firstn] in IH. rewrite IH. lia.
Qed.

Lemma lineStart_succ ls L l :
  Js.at_ ls L = Some l -> lineStart ls (L + 1) = lineStart ls L + Js.len l + 1.
Proof.
  intros H. pose proof (at_Some_bounds _ _ _ H) as Hb.
  unfold lineStart. rewrite <- (Z2Nat.id L) in H by lia. rewrite at_nat in H.
  replace (Z.to_nat (L + 1)) with (S (Z.to_nat L)) by lia.
  apply span_firstn_succ, H.
Qed.

Lemma span_firstn_mono ls (n m : nat) : (n <= m)%nat -> span (firstn n ls) <= span (firstn m ls).
Proof.
  revert ls m. induction n as [|n IH]; intros ls m H.
  - simpl. apply span_nonneg.
  - destruct m as [|m]; [lia|]. destruct ls as [|x ls]; simpl; [lia|].
    specialize (IH ls m ltac:(lia)). lia.
Qed.

Lemma lineStart_mono ls L L' : 0 <= L <= L' -> lineStart ls L <= lineStart ls L'.
Proof.
  intros H. unfold lineStart. apply span_firstn_mono. lia.
Qed.

Lemma lineStart_nonneg ls L : 0 <= lineStart ls L.
Proof. apply span_nonneg. Qed.

(** [lineStart] looks at the lines before [L] only. *)
Lemma lineStart_prefix ls ls' L :
  firstn (Z.to_nat L) ls' = firstn (Z.to_nat L) ls -> lineStart ls' L = lineStart ls L.
Proof. unfold lineStart. intros ->. reflexivity. Qed.

Lemma drop_append a b : Js.drop (String.length a) (a ++ b)%string = b.
Proof.
  induction a as [|c a IH]; simpl; [destruct b; reflexivity | exact IH].
Qed.

Lemma drop_drop n m s : Js.drop n (Js.drop m s) = Js.drop (m + n) s.
Proof.
  revert s. induction m as [|m IH]; intros s; simpl.
  - reflexivity.
  - destruct s as [|c s]; [destruct n; reflexivity | apply IH].
Qed.

(** [lineStart] is an offset into the content: dropping that many
    characters of [getContents()] leaves the lines from [L] on. *)
Lemma drop_lineStart ls (n : nat) :
  (n < List.length ls)%nat ->
  Js.drop (Z.to_nat (lineStart ls (Z.of_nat n))) (Js.join ls) = Js.join (skipn n ls).
Proof.
  unfold lineStart. rewrite Nat2Z.id. revert ls.
  induction n as [|n IH]; intros ls Hn.
  - simpl. destruct (Js.join ls); reflexivity.
  - destruct ls as [|x ls]; [simpl in Hn; lia|].
    destruct ls as [|y ls]; [simpl in Hn; lia|].
    change (Js.join (x :: y :: ls)) with (x ++ String Js.nl (Js.join (y :: ls)))%string.
    cbn [firstn span skipn].
    pose proof (span_nonneg (firstn n (y :: ls))) as Hs.
    replace (Z.to_nat (Js.len x + 1 + span (firstn n (y :: ls))))
      with (String.length x + (1 + Z.to_nat (span (firstn n (y :: ls)))))%nat
      by (unfold Js.len; lia).
    rewrite <- drop_drop, drop_append. cbn [Nat.add Js.drop].
    apply IH. simpl in Hn. simpl. lia.
Qed.

(** ** The searches return what the cache holds *)

Lemma truthy_Some o : truthy o = true -> exists v, o = Some v /\ v <> 0.
Proof.
  destruct o as [v|]; simpl; [|discriminate].
  destruct (Z.eqb_spec v 0); [discriminate|]. intros _. exists v. split; [reflexivity | assumption].
Qed.

Lemma findHighestCachedLineToIndex_sound fuel cache :
  forall start end_ l v,
    findHighestCachedLineToIndex fuel cache start end_ = Some (Some (l, v)) ->
    VCache.get cache l = Some v /\ v <> 0.
Proof.
  induction fuel as [|fuel IH]; intros start end_ l v H; [discriminate|].
  cbn [findHighestCachedLineToIndex] in H.
  set (middleIdx := Num.add (Num.div (Num.sub end_ start) (Num.of_Z 2)) start) in *.
  destruct (Num.ltb middleIdx (Num.of_Z 0)); [discriminate|].
  destruct (truthy (lineToIndexCache_get_num cache middleIdx)) eqn:Ht.
  - destruct (negb (Num.eqb start middleIdx) && negb (Num.eqb end_ middleIdx)).
    + eapply IH, H.
    + apply truthy_Some in Ht. destruct Ht as (w & Hw & Hw0).
      unfold lineToIndexCache_get_num in Hw.
      destruct (Num.to_index middleIdx) as [k|] eqn:Hk; [|discriminate].
      unfold lineToIndexCache_get_num in H. rewrite Hk, Hw in H.
      simpl in H. inversion H; subst. split; assumption.
  - destruct (negb (Num.eqb start middleIdx)); [|discriminate].
    eapply IH, H.
Qed.

Lemma zeroBasedPosToIndex_anchor_sound fuel cache closestLineNum l v :
  zeroBasedPosToIndex_anchor fuel cache closestLineNum = Some (Some (l, v)) ->
  VCache.get cache l = Some v /\ v <> 0.
Proof.
  unfold zeroBasedPosToIndex_anchor.
  destruct (truthy (VCache.get cache closestLineNum)) eqn:H1.
  - apply truthy_Some in H1. destruct H1 as (w & Hw & Hw0). rewrite Hw. simpl.
    intros H. inversion H; subst. split; assumption.
  - destruct (truthy (VCache.get cache (closestLineNum - 1))) eqn:H2.
    + apply truthy_Some in H2. destruct H2 as (w & Hw & Hw0). rewrite Hw. simpl.
      intros H. inversion H; subst. split; assumption.
    + apply findHighestCachedLineToIndex_sound.
Qed.

Lemma findHighestCachedIndexToPos_sound fuel cache :
  forall start end_ k p,
    findHighestCachedIndexToPos fuel cache start end_ = Some (Some (k, p)) ->
    SCache.get cache k = Some p.
Proof.
  induction fuel as [|fuel IH]; intros start end_ k p H; [discriminate|].
  cbn [findHighestCachedIndexToPos] in H.
  set (m0 := (end_ - start) / 2 + start) in *.
  set (middleIdx := if negb (m0 mod DEFAULT_BLOCK_SIZE =? 0)
                    then roundToLowerBlockSize m0 else m0) in *.
  destruct (middleIdx <? DEFAULT_BLOCK_SIZE); [discriminate|].
  destruct (SCache.get cache middleIdx) as [r|] eqn:Hget.
  - destruct (negb (start =? middleIdx) && negb (end_ =? middleIdx)).
    + eapply IH, H.
    + inversion H; subst. exact Hget.
  - destruct (negb (start =? middleIdx)); [|discriminate].
    eapply IH, H.
Qed.

(** ** The caches stay sound *)

Lemma wp_and {A} (m : M A) Q1 Q2 E1 E2 s :
  wp m Q1 E1 s -> wp m Q2 E2 s ->
  wp m (fun a s' => Q1 a s' /\ Q2 a s') (fun e s' => E1 e s' /\ E2 e s') s.
Proof.
  unfold wp. destruct (m s); auto.
Qed.

Lemma lineStarts_ok_set ls cache L l :
  lineStarts_ok ls cache -> Js.at_ ls L = Some l ->
  lineStarts_ok ls (VCache.set cache L (lineStart ls L + 1)).
Proof.
  intros Hok Hl L' v. pose proof (at_Some_bounds _ _ _ Hl) as Hb.
  rewrite VCache_get_set by lia.
  destruct (Z.eqb_spec L' L) as [->|_]; [|apply Hok].
  intros H. inversion H; subst. split; [lia | reflexivity].
Qed.

Lemma indexToPosition_blocks_le fuel cache closestIndex stop lineNumber steppedCharCount r :
  indexToPosition_blocks fuel cache closestIndex stop lineNumber steppedCharCount = Some r ->
  closestIndex <= stop.
Proof.
  intros H. destruct (Z.le_gt_cases closestIndex stop) as [Hle|Hgt]; [exact Hle|].
  rewrite indexToPosition_blocks_overshoot in H by lia. discriminate.
Qed.

Lemma indexToPosition_blocks_ok ls L l fuel :
  forall cache closestIndex stop r,
    blocks_ok ls cache -> Js.at_ ls L = Some l ->
    lineStart ls L < closestIndex + 10 ->
    stop <= lineStart ls L + Js.len l + 1 ->
    indexToPosition_blocks fuel cache closestIndex stop L (lineStart ls L) = Some r ->
    fst r = stop /\ blocks_ok ls (snd r).
Proof.
  induction fuel as [|fuel IH]; intros cache ci stop r Hok Hl Hci Hstop H;
    rewrite indexToPosition_blocks_eq in H;
    destruct (Z.eqb_spec ci stop) as [->|Hne].
  - inversion H; subst. split; [reflexivity | exact Hok].
  - discriminate.
  - inversion H; subst. split; [reflexivity | exact Hok].
  - pose proof (indexToPosition_blocks_le _ _ _ _ _ _ _ H) as Hle.
    unfold DEFAULT_BLOCK_SIZE in *.
    eapply (IH _ (ci + 10) stop r); [ | exact Hl | lia | exact Hstop | exact H].
    destruct (SCache.get cache (ci + 10)) as [p|] eqn:Hget; [exact Hok|].
    intros k p Hk. apply SCache_get_set in Hk. destruct Hk as [[-> ->]|Hk]; [|apply Hok, Hk].
    exists l. cbn [line col]. repeat split; try assumption; lia.
Qed.

Lemma store_ok_blocks s cache :
  store_ok s -> blocks_ok (lines s) cache -> store_ok (with_indexToPosCache s cache).
Proof.
  intros (Hnl & _ & Hl) Hb. split; [|split]; assumption.
Qed.

Lemma store_ok_lineStarts s cache :
  store_ok s -> lineStarts_ok (lines s) cache -> store_ok (with_lineToIndexCache s cache).
Proof.
  intros (Hnl & Hb & _) Hl. split; [|split]; assumption.
Qed.

Lemma indexToPosition_lines_ok fuel index :
  forall lineNumber closestIndex s,
    store_ok s -> lineStart (lines s) lineNumber < closestIndex + 10 ->
    wp (indexToPosition_lines fuel index lineNumber (lineStart (lines s) lineNumber) closestIndex)
       (fun _ s' => store_ok s') (fun _ s' => store_ok s') s.
Proof.
  induction fuel as [|fuel IH]; intros L ci s Hok Hci; cbn [indexToPosition_lines].
  - repeat wp_step; exact Hok.
  - wp_step. wp_step. wp_step; [|wp_step; exact Hok].
    wp_step. wp_step; [|exact Hok]. rename a into cLine.
    assert (Hone : (0 <? Js.alen (lines s)) = true).
    { apply Z.ltb_lt. pose proof (at_Some_bounds _ _ _ H). lia. }
    rewrite Hone.
    wp_step. wp_step. destruct a as [ci' cache'].
    pose proof (roundToLowerBlockSize_spec (lineStart (lines s) L + (Js.len cLine + 1))) as [Hr _].
    apply indexToPosition_blocks_ok with (l := cLine) in H0; try assumption;
      [ | apply Hok | lia ].
    cbn [fst snd] in H0. destruct H0 as [-> Hblocks].
    repeat wp_step.
    + apply store_ok_lineStarts; [apply store_ok_blocks; assumption|].
      eapply lineStarts_ok_set; [apply Hok | exact H].
    + set (s1 := with_lineToIndexCache _ _).
      replace (lineStart (lines s) L + (Js.len cLine + 1)) with (lineStart (lines s1) (L + 1))
        by (subst s1; cbn [lines with_lineToIndexCache with_indexToPosCache];
            rewrite (lineStart_succ _ _ _ H); lia).
      apply IH.
      * subst s1. apply store_ok_lineStarts; [apply store_ok_blocks; assumption|].
        eapply lineStarts_ok_set; [apply Hok | exact H].
      * subst s1. cbn [lines with_lineToIndexCache with_indexToPosCache].
        rewrite (lineStart_succ _ _ _ H).
        pose proof (roundToLowerBlockSize_spec (lineStart (lines s) L + Js.len cLine + 1)).
        replace (lineStart (lines s) L + (Js.len cLine + 1))
          with (lineStart (lines s) L + Js.len cLine + 1) by lia.
        lia.
Qed.

Lemma indexToPosition_ok fuel index s :
  store_ok s ->
  wp (indexToPosition fuel index) (fun _ s' => store_ok s') (fun _ s' => store_ok s') s.
Proof.
  intros Hok. unfold indexToPosition.
  assert (Hanchor : forall k p, SCache.get (indexToPosCache s) k = Some p ->
            wp (p0 <- indexToPosition_lines fuel index (line p) (k - col p) k ;;
                ret {| col := col p0 + 1; line := line p0 + 1 |})
               (fun _ s' => store_ok s') (fun _ s' => store_ok s') s).
  { intros k p Hget. destruct Hok as (Hnl & Hb & Hl).
    destruct (Hb k p Hget) as (l & Hat & Hcol & Hk).
    replace (k - col p) with (lineStart (lines s) (line p)) by lia.
    wp_step.
    eapply wp_mono;
      [ apply indexToPosition_lines_ok; [split; [|split]; assumption | lia]
      | cbn beta; intros ? ? ?; wp_step; assumption
      | cbn beta; intros ? ? ?; assumption ]. }
  wp_step. wp_step. wp_step; [wp_step; exact Hok|].
  wp_step. wp_step.
  - wp_step. apply Hanchor. assumption.
  - wp_step.
    + wp_step. apply Hanchor. assumption.
    + wp_step. wp_step. wp_step.
      * wp_step. destruct p as [k p]. apply Hanchor.
        eapply findHighestCachedIndexToPos_sound. eassumption.
      * wp_step. cbn [line col]. change (0 - 0) with (lineStart (lines s) 0).
        wp_step.
        eapply wp_mono;
          [ apply indexToPosition_lines_ok; [exact Hok | rewrite lineStart_zero; lia]
          | cbn beta; intros ? ? ?; wp_step; assumption
          | cbn beta; intros ? ? ?; assumption ].
Qed.

Lemma zeroBasedPosToIndex_lines_ok fuel target :
  forall currentLine s,
    store_ok s -> 0 <= currentLine <= target -> target < Js.alen (lines s) ->
    wp (zeroBasedPosToIndex_lines fuel target currentLine (lineStart (lines s) currentLine))
       (fun offset s' => offset = lineStart (lines s) target /\ store_ok s'
                         /\ indexToPosCache s' = indexToPosCache s)
       (fun _ s' => store_ok s') s.
Proof.
  induction fuel as [|fuel IH]; intros cur s Hok Hcur Htarget;
    cbn [zeroBasedPosToIndex_lines]; [wp_step|].
  destruct (Js.at_ (lines s) cur) as [l|] eqn:Hl.
  2:{ unfold Js.at_ in Hl. destruct (Z.ltb_spec cur 0) as [H|_]; [lia|].
      apply nth_error_None in Hl. unfold Js.alen in Htarget. lia. }
  assert (Hone : (cur <? Js.alen (lines s)) = true) by (apply Z.ltb_lt; lia).
  assert (Hok1 : store_ok (with_lineToIndexCache s
                   (VCache.set (lineToIndexCache s) cur (lineStart (lines s) cur + 1)))).
  { apply store_ok_lineStarts; [exact Hok|].
    eapply lineStarts_ok_set; [apply Hok | exact Hl]. }
  wp_step. wp_step. rewrite Hone. wp_step. wp_step.
  destruct (Z.eqb_spec cur target) as [->|Hne].
  - wp_step. split; [reflexivity | split; [exact Hok1 | reflexivity]].
  - wp_step. cbn [lines with_lineToIndexCache]. rewrite Hl.
    apply wp_defined; [intros a Ha; inversion Ha; subst a; clear Ha | discriminate].
    set (s1 := with_lineToIndexCache _ _) in *.
    replace (lineStart (lines s) cur + (Js.len l + 1)) with (lineStart (lines s1) (cur + 1))
      by (subst s1; cbn [lines with_lineToIndexCache]; rewrite (lineStart_succ _ _ _ Hl); lia).
    eapply wp_mono; [apply IH; [exact Hok1 | lia | exact Htarget] | |];
      cbn beta; intros ? ? ?; assumption.
Qed.

Lemma zeroBasedPosToIndex_ok fuel pos s :
  store_ok s -> 0 <= line pos < Js.alen (lines s) ->
  anchored fuel (lineToIndexCache s) (line pos) ->
  wp (zeroBasedPosToIndex fuel pos)
     (fun idx s' => idx = lineStart (lines s) (line pos) + col pos /\ store_ok s'
                    /\ indexToPosCache s' = indexToPosCache s)
     (fun _ s' => store_ok s') s.
Proof.
  intros Hok Hline (l & v & Hanchor & Hle). unfold zeroBasedPosToIndex.
  wp_step. wp_step. rewrite Hanchor. cbn [within_fuel]. wp_step. wp_step. cbn beta iota.
  apply zeroBasedPosToIndex_anchor_sound in Hanchor. destruct Hanchor as [Hget Hv].
  pose proof (sparse_get_Some_nonneg _ _ _ Hget) as Hl0.
  destruct Hok as (Hnl & Hb & Hls). destruct (Hls l v Hget) as [_ ->].
  destruct (Z.leb_spec l (line pos)) as [_|H]; [|lia].
  replace (lineStart (lines s) l + 1 - 1) with (lineStart (lines s) l) by lia.
  wp_step.
  eapply wp_mono;
    [ apply zeroBasedPosToIndex_lines_ok; [split; [|split]; assumption | lia | lia]
    | cbn beta; intros offset s' (-> & Hok' & Hsame); wp_step; auto
    | cbn beta; intros ? ? ?; assumption ].
Qed.

Lemma flushCache_ok fuel from s :
  store_ok s -> 0 <= line from < Js.alen (lines s) -> 0 <= col from ->
  anchored fuel (lineToIndexCache s) (line from) ->
  wp (flushCache fuel from)
     (fun _ s' => flushed (lines s) from s')
     (fun _ s' => store_ok s') s.
Proof.
  intros Hok Hline Hcol Hanch. unfold flushCache.
  wp_step.
  eapply wp_mono;
    [ apply wp_and;
      [apply zeroBasedPosToIndex_ok; assumption | apply zeroBasedPosToIndex_keeps_doc]
    | | cbn beta; intros ? ? [? ?]; assumption].
  cbn beta. intros idx s' [(-> & Hok' & Hblocks) (_ & Hlines & _)].
  repeat wp_step.
  set (idx := lineStart (lines s) (line from) + col from).
  pose proof (roundToLowerBlockSize_spec idx) as [Hr Hmod].
  pose proof (lineStart_nonneg (lines s) (line from)) as Hnn.
  assert (H0 : 0 <= roundToLowerBlockSize idx).
  { unfold roundToLowerBlockSize, DEFAULT_BLOCK_SIZE. Z.div_mod_to_equations. lia. }
  destruct Hok' as (_ & Hb' & Hl'). rewrite Hlines in Hb', Hl'.
  split; cbn [lineToIndexCache indexToPosCache with_lineToIndexCache with_indexToPosCache].
  - intros L v. rewrite VCache_get_flush by lia.
    destruct (Z.ltb_spec L (line from)) as [HL|HL]; [|discriminate].
    intros Hget. split; [exact HL | apply (Hl' L v Hget)].
  - intros k p Hget. apply SCache_get_flush in Hget; [|exact H0|exact Hmod].
    destruct Hget as [Hk Hget]. split; [lia | apply (Hb' k p Hget)].
Qed.

(** ** The edits keep the invariant *)

Lemma has_nl_append a b : has_nl (a ++ b)%string = has_nl a || has_nl b.
Proof.
  induction a as [|c a IH]; simpl; [reflexivity|].
  rewrite IH. apply orb_assoc.
Qed.

Lemma has_nl_take n s : has_nl s = false -> has_nl (Js.take n s) = false.
Proof.
  revert s. induction n as [|n IH]; intros [|c s] H; simpl in *; try reflexivity.
  apply orb_false_iff in H. destruct H as [Hc Hs]. rewrite Hc, IH by assumption. reflexivity.
Qed.

Lemma split_no_nl s : Forall (fun l => has_nl l = false) (Js.split s).
Proof.
  induction s as [|c s IH]; simpl.
  - repeat constructor.
  - destruct (Js.is_nl c) eqn:Hc.
    + constructor; [reflexivity | exact IH].
    + destruct (Js.split s) as [|h t].
      * repeat constructor. simpl. rewrite Hc. reflexivity.
      * inversion IH; subst. constructor; [|assumption]. simpl. rewrite Hc. assumption.
Qed.

(** The first line of a split string starts with any newline-free prefix. *)
Lemma split_prefix a b :
  has_nl a = false -> exists h t, Js.split (a ++ b) = (a ++ h)%string :: t.
Proof.
  induction a as [|c a IH]; intros Ha; simpl in *.
  - pose proof (split_not_nil b) as Hne. destruct (Js.split b) as [|h t]; [congruence|].
    exists h, t. reflexivity.
  - apply orb_false_iff in Ha. destruct Ha as [Hc Ha]. rewrite Hc.
    destruct (IH Ha) as (h & t & ->). exists h, t. reflexivity.
Qed.

Lemma Forall_firstn {T} (P : T -> Prop) n (l : list T) : Forall P l -> Forall P (firstn n l).
Proof.
  intros H. revert n. induction H as [|x l Hx Hl IH]; intros [|n]; simpl; constructor; auto.
Qed.

Lemma Forall_skipn {T} (P : T -> Prop) n (l : list T) : Forall P l -> Forall P (skipn n l).
Proof.
  intros H. revert n. induction H as [|x l Hx Hl IH]; intros [|n]; simpl; try constructor; auto.
Qed.

Lemma spliced_no_nl ls L count updated :
  Forall (fun l => has_nl l = false) ls ->
  Forall (fun l => has_nl l = false) (spliced ls L count updated).
Proof.
  intros H. unfold spliced. apply Forall_app. split; [apply Forall_firstn, H|].
  apply Forall_app. split; [apply split_no_nl | apply Forall_skipn, H].
Qed.

Lemma firstn_spliced ls L L' count updated :
  0 <= L' <= L -> L < Js.alen ls ->
  firstn (Z.to_nat L') (spliced ls L count updated) = firstn (Z.to_nat L') ls.
Proof.
  intros HL' HL. unfold spliced, Js.alen in *.
  rewrite firstn_app, length_firstn.
  replace (Z.to_nat L' - Nat.min (Z.to_nat L) (List.length ls))%nat with 0%nat by lia.
  simpl. rewrite app_nil_r, firstn_firstn. f_equal. lia.
Qed.

Lemma at_spliced_before ls L L' count updated :
  0 <= L' < L -> L < Js.alen ls ->
  Js.at_ (spliced ls L count updated) L' = Js.at_ ls L'.
Proof.
  intros HL' HL. unfold Js.at_, spliced, Js.alen in *.
  destruct (Z.ltb_spec L' 0) as [H|_]; [lia|].
  rewrite nth_error_app1 by (rewrite length_firstn; lia).
  rewrite nth_error_firstn.
  destruct (Nat.ltb_spec (Z.to_nat L') (Z.to_nat L)) as [_|H]; [reflexivity | lia].
Qed.

Lemma at_spliced_here ls L count a b :
  0 <= L < Js.alen ls -> has_nl a = false ->
  exists h, Js.at_ (spliced ls L count (a ++ b)) L = Some (a ++ h)%string.
Proof.
  intros HL Ha. destruct (split_prefix a b Ha) as (h & t & Hsplit).
  exists h. unfold Js.at_, spliced, Js.alen in *.
  destruct (Z.ltb_spec L 0) as [H|_]; [lia|].
  rewrite nth_error_app2 by (rewrite length_firstn; lia).
  rewrite length_firstn, Hsplit.
  replace (Z.to_nat L - Nat.min (Z.to_nat L) (List.length ls))%nat with 0%nat by lia.
  reflexivity.
Qed.

Lemma Forall_at {T} (P : T -> Prop) (a : list T) k x :
  Forall P a -> Js.at_ a k = Some x -> P x.
Proof.
  intros HF H. unfold Js.at_ in H. destruct (k <? 0); [discriminate|].
  apply nth_error_In in H. rewrite Forall_forall in HF. apply HF, H.
Qed.

Lemma spliced_store_ok ls from l s1 count text suffix strv sizev :
  Forall (fun l => has_nl l = false) ls ->
  Js.at_ ls (line from) = Some l -> 0 <= col from <= Js.len l ->
  flushed ls from s1 ->
  store_ok (mkStore strv
              (spliced ls (line from) count
                 (Js.slice l 0 (col from) ++ text ++ suffix)%string)
              sizev (indexToPosCache s1) (lineToIndexCache s1)).
Proof.
  intros Hnl Hl Hcol [Hlines Hblocks].
  pose proof (at_Some_bounds _ _ _ Hl) as Hb.
  rewrite slice_prefix by assumption.
  set (a := Js.take (Z.to_nat (col from)) l).
  assert (Ha : has_nl a = false).
  { apply has_nl_take. apply (Forall_at _ _ _ _ Hnl Hl). }
  assert (Hlen : Js.len a = col from).
  { subst a. unfold Js.len in *. rewrite length_take. lia. }
  destruct (at_spliced_here ls (line from) count a (text ++ suffix) Hb Ha) as (h & Hhere).
  set (ls' := spliced ls (line from) count (a ++ text ++ suffix)%string) in *.
  pose proof (at_Some_bounds _ _ _ Hhere) as Hb'.
  split; [apply spliced_no_nl, Hnl | split]; cbn [lines indexToPosCache lineToIndexCache].
  - intros k p Hget. destruct (Hblocks k p Hget) as [Hk (l0 & Hl0 & Hc0 & Hk0)].
    pose proof (at_Some_bounds _ _ _ Hl0) as Hb0.
    destruct (Z.lt_trichotomy (line p) (line from)) as [Hlt|[Heq|Hgt]].
    + exists l0. split; [|split; [exact Hc0|]].
      * subst ls'. rewrite at_spliced_before by lia. exact Hl0.
      * rewrite (lineStart_prefix ls ls'); [exact Hk0|].
        subst ls'. apply firstn_spliced; lia.
    + exists (a ++ h)%string. rewrite Heq in *. split; [exact Hhere | split].
      * rewrite len_append. pose proof (len_nonneg h). lia.
      * rewrite (lineStart_prefix ls ls'); [exact Hk0|].
        subst ls'. apply firstn_spliced; lia.
    + exfalso.
      pose proof (lineStart_mono ls (line from + 1) (line p) ltac:(lia)) as Hmono.
      rewrite (lineStart_succ _ _ _ Hl) in Hmono. lia.
  - intros L v Hget. destruct (Hlines L v Hget) as [HL ->].
    pose proof (sparse_get_Some_nonneg _ _ _ Hget) as HL0.
    split; [lia|]. f_equal. symmetry. apply lineStart_prefix.
    subst ls'. apply firstn_spliced; lia.
Qed.

(** A position on a line and within it passes the check. *)
Lemma checkTextPosition_Ok pos s l :
  Js.at_ (lines s) (line pos) = Some l -> 0 <= col pos <= Js.len l ->
  checkTextPosition pos s = Ok tt s.
Proof.
  intros Hl Hcol. pose proof (at_Some_bounds _ _ _ Hl) as Hb.
  unfold checkTextPosition, bind, this.
  destruct (Z.gtb_spec (line pos) (Js.alen (lines s))) as [H|_]; [lia|].
  rewrite Hl. cbn [defined ret].
  destruct (Z.gtb_spec (col pos) (Js.len l)) as [H|_]; [lia|].
  destruct (Z.ltb_spec (col pos) 0) as [H|_]; [lia|].
  destruct (Z.ltb_spec (line pos) 0) as [H|_]; [lia | reflexivity].
Qed.

Lemma checkTextPosition_passes pos s l :
  Js.at_ (lines s) (line pos) = Some l -> 0 <= col pos <= Js.len l -> passes pos s = true.
Proof.
  intros Hl Hcol. unfold passes. rewrite (checkTextPosition_Ok pos s l Hl Hcol). reflexivity.
Qed.

Lemma insert_ok fuel text at_ s :
  store_ok s -> lookup_anchored fuel (Insert text at_) s ->
  wp (insert fuel text at_) (fun _ s' => store_ok s') (fun _ s' => store_ok s') s.
Proof.
  intros Hok Hanch. apply insert_wp.
  - intros _. exact Hok.
  - intros _. exact Hok.
  - intros l pos Htext Hl Hcol.
    pose proof (at_Some_bounds _ _ _ Hl) as Hb.
    unfold lookup_anchored, lookup_line in Hanch. fold pos in Hanch.
    rewrite (checkTextPosition_passes pos s l Hl Hcol) in Hanch.
    destruct (Z.eqb_spec (Js.len text) 0) as [H0|_]; [contradiction|].
    cbn [negb andb] in Hanch.
    eapply wp_mono; [apply flushCache_ok; [exact Hok | exact Hb | lia | exact Hanch] | |].
    + cbn beta. intros _ s1 Hflushed (_ & Hlines & _). rewrite Hlines.
      apply spliced_store_ok; [apply Hok | exact Hl | exact Hcol | exact Hflushed].
    + cbn beta. intros _ s1 Hok1 _. exact Hok1.
Qed.

Lemma replace_ok fuel range text s :
  store_ok s -> lookup_anchored fuel (Replace range text) s ->
  wp (replace fuel range text) (fun _ s' => store_ok s') (fun _ s' => store_ok s') s.
Proof.
  intros Hok Hanch. apply replace_wp.
  - intros _. exact Hok.
  - intros ls le from to Hls Hcs Hle Hce.
    pose proof (at_Some_bounds _ _ _ Hls) as Hb.
    unfold lookup_anchored, lookup_line in Hanch. fold from to in Hanch.
    rewrite (checkTextPosition_passes from s ls Hls Hcs),
            (checkTextPosition_passes to s le Hle Hce) in Hanch.
    cbn [andb] in Hanch.
    eapply wp_mono; [apply flushCache_ok; [exact Hok | exact Hb | lia | exact Hanch] | |].
    + cbn beta. intros _ s1 Hflushed (_ & Hlines & _). cbn zeta. rewrite Hlines.
      apply spliced_store_ok; [apply Hok | exact Hls | exact Hcs | exact Hflushed].
    + cbn beta. intros _ s1 Hok1 _. exact Hok1.
Qed.

Lemma positionToIndex_ok fuel pos s :
  store_ok s -> lookup_anchored fuel (PositionToIndex pos) s ->
  wp (positionToIndex fuel pos) (fun _ s' => store_ok s') (fun _ s' => store_ok s') s.
Proof.
  intros Hok Hanch. unfold positionToIndex. wp_step.
  wp_call checkTextPosition_spec; [|subst; exact Hok].
  destruct H as (-> & Hline & l & Hl & Hcol).
  pose proof (at_Some_bounds _ _ _ Hl) as Hb.
  unfold lookup_anchored, lookup_line in Hanch.
  rewrite (checkTextPosition_passes _ s l Hl Hcol) in Hanch.
  eapply wp_mono; [apply zeroBasedPosToIndex_ok; [exact Hok | exact Hb | exact Hanch] | |];
    cbn beta; [intros ? ? (_ & H & _) | intros ? ? H]; exact H.
Qed.

Lemma getContents_state range s :
  wp (getContents range) (fun _ s' => s' = s) (fun _ s' => s' = s) s.
Proof.
  unfold getContents, clampTextPosition. repeat wp_step; reflexivity.
Qed.

Lemma constructor_ok s : store_ok (constructor s).
Proof.
  split; [apply split_no_nl | split].
  - intros k p H. unfold SCache.get, constructor, SCache.empty in H. simpl in H.
    destruct (k mod DEFAULT_BLOCK_SIZE =? 0); [|discriminate].
    unfold Js.sparse_get, Js.at_ in H.
    destruct (k / DEFAULT_BLOCK_SIZE <? 0); [discriminate|].
    destruct (Z.to_nat (k / DEFAULT_BLOCK_SIZE)); discriminate.
  - intros L v H. unfold VCache.get, constructor, VCache.empty in H. simpl in H.
    unfold Js.sparse_get, Js.at_ in H.
    destruct (L <? 0); [discriminate|]. destruct (Z.to_nat L); discriminate.
Qed.

Lemma exec_store_ok fuel c st st' :
  lookup_anchored fuel c st -> store_ok st -> exec fuel c st = Some st' -> store_ok st'.
Proof.
  intros Hanch Hok Hexec. destruct c; unfold exec in Hexec;
    (eapply wp_state_of; [|exact Hexec]).
  - apply insert_ok; assumption.
  - apply replace_ok; assumption.
  - apply replace_ok; assumption.
  - unfold getSize. repeat wp_step. exact Hok.
  - wp_call getContents_state; subst; exact Hok.
  - apply indexToPosition_ok, Hok.
  - apply positionToIndex_ok; assumption.
Qed.

(** C9 (amended).  In every store reached from a fresh one by calls whose
    lookup in the line cache finds an entry at or before the line looked
    for, every line cache entry maps its line to one more than the offset
    at which the line begins: [1] for line [0]. *)
Theorem lineToIndexCache_holds_offsets_plus_one :
  forall st, reachable lookup_anchored st -> lineCache_holds_offsets_plus_one st.
Proof.
  intros st Hreach.
  assert (Hok : store_ok st).
  { induction Hreach as [s | fuel c st st' _ IH Hanch Hexec].
    - apply constructor_ok.
    - eapply exec_store_ok; eassumption. }
  intros L v Hget. apply Hok in Hget. apply Hget.
Qed.

(** ** The conversions on sound stores *)

(** The search over the block cache ends within as many calls as the range
    has blocks, and what it finds lies at or before [end_]. *)
Lemma findHighestCachedIndexToPos_ends cache (n : nat) :
  forall start end_ fuel,
    start mod 10 = 0 -> end_ mod 10 = 0 -> 10 <= start <= end_ ->
    end_ - start <= 10 * Z.of_nat n -> (n < fuel)%nat ->
    exists r, findHighestCachedIndexToPos fuel cache start end_ = Some r
              /\ forall k p, r = Some (k, p) -> k <= end_.
Proof.
  induction n as [|n IH]; intros start end_ fuel Hs He Hle Hn Hfuel;
    (destruct fuel as [|fuel]; [lia|]); cbn [findHighestCachedIndexToPos];
    set (m0 := (end_ - start) / 2 + start);
    set (middleIdx := if negb (m0 mod DEFAULT_BLOCK_SIZE =? 0)
                      then roundToLowerBlockSize m0 else m0);
    assert (Hmid : start <= middleIdx <= end_ /\ middleIdx mod 10 = 0
                   /\ (start < end_ -> middleIdx < end_)).
  1,3: (subst middleIdx m0; unfold roundToLowerBlockSize, DEFAULT_BLOCK_SIZE;
        destruct (Z.eqb_spec (((end_ - start) / 2 + start) mod 10) 0) as [E|E]; cbn [negb];
        [ split; [|split]; [ | exact E | ]; Z.div_mod_to_equations; lia
        | split; [|split]; [ | apply Z.mod_mul; lia | ]; Z.div_mod_to_equations; lia ]).
  - clearbody middleIdx. clear m0. destruct Hmid as (Hm & Hmod & _).
    assert (middleIdx = start) by lia. assert (end_ = start) by lia.
    destruct (Z.ltb_spec middleIdx DEFAULT_BLOCK_SIZE) as [H1|_];
      [unfold DEFAULT_BLOCK_SIZE in H1; lia|].
    destruct (SCache.get cache middleIdx) as [p|].
    + destruct (Z.eqb_spec start middleIdx) as [_|H1]; [|lia]. cbn [negb andb].
      eexists. split; [reflexivity|]. intros k q Hr. injection Hr as Hk _. lia.
    + destruct (Z.eqb_spec start middleIdx) as [_|H1]; [|lia]. cbn [negb].
      eexists. split; [reflexivity|]. intros k q Hr. discriminate.
  - clearbody middleIdx. clear m0. destruct Hmid as (Hm & Hmod & Hlt).
    destruct (Z.ltb_spec middleIdx DEFAULT_BLOCK_SIZE) as [H1|_];
      [unfold DEFAULT_BLOCK_SIZE in H1; lia|].
    destruct (SCache.get cache middleIdx) as [p|].
    + destruct (Z.eqb_spec start middleIdx) as [E1|E1]; cbn [negb andb].
      * eexists. split; [reflexivity|]. intros k q Hr. injection Hr as Hk _. lia.
      * destruct (Z.eqb_spec end_ middleIdx) as [E2|E2]; cbn [negb].
        -- eexists. split; [reflexivity|]. intros k q Hr. injection Hr as Hk _. lia.
        -- apply IH; try assumption; try lia.
           assert (middleIdx >= start + 10) by (Z.div_mod_to_equations; lia). lia.
    + destruct (Z.eqb_spec start middleIdx) as [E1|E1]; cbn [negb].
      * eexists. split; [reflexivity|]. intros k q Hr. discriminate.
      * destruct (IH start middleIdx fuel) as (r & Hr & Hk); try assumption; try lia.
        -- assert (start < end_) by lia. specialize (Hlt H).
           assert (middleIdx <= end_ - 10) by (Z.div_mod_to_equations; lia). lia.
        -- exists r. split; [exact Hr|]. intros k q Hrk. specialize (Hk k q Hrk). lia.
Qed.

(** One round of the outer loop, when the inner loop ends. *)
Lemma indexToPosition_lines_step fuel index L stepped ci s l cache' :
  Js.at_ (lines s) L = Some l ->
  indexToPosition_blocks (S fuel) (indexToPosCache s) ci
    (roundToLowerBlockSize (stepped + (Js.len l + 1))) L stepped
  = Some (roundToLowerBlockSize (stepped + (Js.len l + 1)), cache') ->
  indexToPosition_lines (S fuel) index L stepped ci s
  = let s1 := with_lineToIndexCache (with_indexToPosCache s cache')
                (VCache.set (lineToIndexCache s) L (stepped + 1)) in
    if stepped + (Js.len l + 1) >? index
    then Ok {| line := L; col := index - stepped |} s1
    else indexToPosition_lines fuel index (L + 1) (stepped + (Js.len l + 1))
           (roundToLowerBlockSize (stepped + (Js.len l + 1))) s1.
Proof.
  intros Hl Hblocks. pose proof (at_Some_bounds _ _ _ Hl) as Hb.
  cbn [indexToPosition_lines]. unfold bind at 1. unfold this at 1.
  destruct (Z.ltb_spec L (Js.alen (lines s))) as [_|H]; [|lia].
  unfold bind at 1. rewrite Hl. cbn [defined ret].
  destruct (Z.ltb_spec 0 (Js.alen (lines s))) as [_|H]; [|lia].
  unfold bind at 1. rewrite Hblocks. cbn [within_fuel ret].
  unfold bind, put, this. cbn zeta.
  destruct (stepped + (Js.len l + 1) >? index); reflexivity.
Qed.

(** The walk from the start of line [L] ends on the line that holds [index],
    keeps the caches sound and leaves that line's entry in the line cache. *)
Lemma indexToPosition_lines_finds index (n : nat) :
  forall L ci s fuel,
    store_ok s -> doc_ok s ->
    Z.of_nat n = Js.alen (lines s) - L -> 0 <= L ->
    lineStart (lines s) L <= index <= size s ->
    ci mod 10 = 0 -> 0 <= ci ->
    (forall l, Js.at_ (lines s) L = Some l -> ci <= lineStart (lines s) L + Js.len l + 1) ->
    lineStart (lines s) L < ci + 10 ->
    (n + blocks_bound (lines s) <= fuel)%nat ->
    exists L' l' s',
      indexToPosition_lines fuel index L (lineStart (lines s) L) ci s
      = Ok {| line := L'; col := index - lineStart (lines s) L' |} s'
      /\ Js.at_ (lines s) L' = Some l'
      /\ lineStart (lines s) L' <= index <= lineStart (lines s) L' + Js.len l'
      /\ store_ok s' /\ same_doc s s'
      /\ VCache.get (lineToIndexCache s') L' = Some (lineStart (lines s) L' + 1).
Proof.
  induction n as [|n IH]; intros L ci s fuel Hok Hdoc Hn HL Hidx Hmod Hci Hle Hlt Hfuel.
  - exfalso. destruct Hdoc as [Hne Hsz]. unfold size_consistent in Hsz.
    rewrite len_join in Hsz by assumption.
    assert (lineStart (lines s) L = span (lines s)).
    { unfold lineStart. rewrite firstn_all2; [reflexivity|]. unfold Js.alen in Hn. lia. }
    lia.
  - destruct (Js.at_ (lines s) L) as [l|] eqn:Hl.
    2:{ exfalso. unfold Js.at_ in Hl. destruct (Z.ltb_spec L 0) as [H|_]; [lia|].
        apply nth_error_None in Hl. unfold Js.alen in Hn. lia. }
    specialize (Hle l eq_refl).
    destruct fuel as [|fuel]; [unfold blocks_bound in Hfuel; lia|].
    set (after := lineStart (lines s) L + (Js.len l + 1)).
    pose proof (roundToLowerBlockSize_spec after) as [Hr Hrmod].
    pose proof (len_nonneg l) as Hlen.
    assert (Hafter : after <= span (lines s)).
    { subst after. rewrite Z.add_assoc, <- (lineStart_succ _ _ _ Hl).
      unfold lineStart. rewrite <- (firstn_skipn (Z.to_nat (L + 1)) (lines s)) at 2.
      rewrite span_app. pose proof (span_nonneg (skipn (Z.to_nat (L + 1)) (lines s))). lia. }
    assert (Hstop : ci <= roundToLowerBlockSize after).
    { unfold roundToLowerBlockSize, DEFAULT_BLOCK_SIZE in *. subst after.
      Z.div_mod_to_equations. lia. }
    destruct (indexToPosition_blocks_reaches
                (Z.to_nat ((roundToLowerBlockSize after - ci) / 10)) (S fuel)
                (indexToPosCache s) ci (roundToLowerBlockSize after) L
                (lineStart (lines s) L)) as [cache' Hblocks].
    { unfold DEFAULT_BLOCK_SIZE. rewrite Z2Nat.id by (Z.div_mod_to_equations; lia).
      Z.div_mod_to_equations. lia. }
    { unfold blocks_bound in Hfuel.
      assert ((roundToLowerBlockSize after - ci) / 10 <= span (lines s) / 10)
        by (apply Z.div_le_mono; lia).
      lia. }
    assert (Hblocks_ok : blocks_ok (lines s) cache').
    { eapply (indexToPosition_blocks_ok (lines s) L l (S fuel) (indexToPosCache s) ci
                (roundToLowerBlockSize after) (roundToLowerBlockSize after, cache'));
        [apply Hok | exact Hl | exact Hlt | subst after; lia | exact Hblocks]. }
    rewrite (indexToPosition_lines_step fuel index L _ ci s l cache' Hl Hblocks).
    cbn zeta. fold after.
    set (s1 := with_lineToIndexCache (with_indexToPosCache s cache')
                 (VCache.set (lineToIndexCache s) L (lineStart (lines s) L + 1))).
    assert (Hok1 : store_ok s1).
    { subst s1. apply store_ok_lineStarts; [apply store_ok_blocks; assumption|].
      eapply lineStarts_ok_set; [apply Hok | exact Hl]. }
    pose proof (at_Some_bounds _ _ _ Hl) as Hb.
    destruct (Z.gtb_spec after index) as [Hgt|Hngt].
    + exists L, l, s1. split; [reflexivity|]. split; [exact Hl|].
      split; [subst after; lia|]. split; [exact Hok1|]. split; [repeat split|].
      subst s1. cbn [lineToIndexCache with_lineToIndexCache].
      rewrite VCache_get_set by lia. rewrite Z.eqb_refl. reflexivity.
    + assert (Hsucc : lineStart (lines s1) (L + 1) = after).
      { subst s1 after. cbn [lines with_lineToIndexCache with_indexToPosCache].
        rewrite (lineStart_succ _ _ _ Hl). lia. }
      assert (Hdoc1 : doc_ok s1) by exact Hdoc.
      assert (Hn1 : Z.of_nat n = Js.alen (lines s1) - (L + 1))
        by (change (lines s1) with (lines s); lia).
      assert (Hidx1 : lineStart (lines s1) (L + 1) <= index <= size s1)
        by (rewrite Hsucc; change (size s1) with (size s); lia).
      assert (Hle1 : forall l2, Js.at_ (lines s1) (L + 1) = Some l2 ->
                roundToLowerBlockSize after <= lineStart (lines s1) (L + 1) + Js.len l2 + 1)
        by (intros l2 _; rewrite Hsucc; pose proof (len_nonneg l2); lia).
      assert (Hlt1 : lineStart (lines s1) (L + 1) < roundToLowerBlockSize after + 10)
        by (rewrite Hsucc; lia).
      assert (Hfuel1 : (n + blocks_bound (lines s1) <= fuel)%nat)
        by (change (lines s1) with (lines s); lia).
      destruct (IH (L + 1) (roundToLowerBlockSize after) s1 fuel Hok1 Hdoc1 Hn1
                  ltac:(lia) Hidx1 Hrmod ltac:(lia) Hle1 Hlt1 Hfuel1)
        as (L' & l' & s' & Hrun & Hrest).
      rewrite Hsucc in Hrun. change (lines s1) with (lines s) in Hrun, Hrest.
      exists L', l', s'. split; [exact Hrun|].
      destruct Hrest as (H1 & H2 & H3 & H4 & H5).
      split; [exact H1 | split; [exact H2 | split; [exact H3 | split; [exact H4 | exact H5]]]].
Qed.

(** [indexToPosition] from a sound block entry, or from the start of the
    document. *)
Lemma indexToPosition_from_anchor fuel index s k p :
  store_ok s -> doc_ok s -> index <= size s ->
  block_ok (lines s) k p -> k mod 10 = 0 -> 0 <= k <= index ->
  (conversion_bound s <= fuel)%nat ->
  locates s index
    ((q <- indexToPosition_lines fuel index (line p) (k - col p) k ;;
      ret {| col := col q + 1; line := line q + 1 |}) s).
Proof.
  intros Hok Hdoc Hsize (l & Hl & Hcol & Hk) Hmod Hk0 Hfuel.
  pose proof (at_Some_bounds _ _ _ Hl) as Hb.
  replace (k - col p) with (lineStart (lines s) (line p)) by lia.
  destruct (indexToPosition_lines_finds index
              (Z.to_nat (Js.alen (lines s) - line p)) (line p) k s fuel)
    as (L' & l' & s' & Hrun & Hl' & Hidx & Hok' & Hdoc' & Hget);
    try assumption; try lia.
  - intros l2 Hl2. rewrite Hl in Hl2. inversion Hl2; subst. lia.
  - unfold conversion_bound, Js.alen in *. lia.
  - exists L', l', s'. unfold bind. rewrite Hrun. cbn [ret line col].
    split; [reflexivity|].
    split; [exact Hl' | split; [exact Hidx | split; [exact Hok' | split; [exact Hdoc' | exact Hget]]]].
Qed.

(** On a sound store [indexToPosition] returns, and returns the position of
    [index]. *)
Lemma indexToPosition_sound fuel index s :
  store_ok s -> doc_ok s -> 0 <= index <= size s ->
  (conversion_bound s <= fuel)%nat ->
  locates s index (indexToPosition fuel index s).
Proof.
  intros Hok Hdoc Hidx Hfuel.
  pose proof (roundToLowerBlockSize_spec index) as [Hr Hrmod].
  assert (Hfallback : block_ok (lines s) 0 {| line := 0; col := 0 |}).
  { destruct Hdoc as [Hne _]. destruct (lines s) as [|l0 rest] eqn:E; [congruence|].
    exists l0. cbn [line col]. split; [reflexivity|]. pose proof (len_nonneg l0).
    split; [lia | reflexivity]. }
  unfold indexToPosition. unfold bind at 1. unfold this at 1.
  destruct (Z.gtb_spec index (size s)) as [H|_]; [lia|].
  unfold bind at 1.
  destruct (SCache.get (indexToPosCache s) (roundToLowerBlockSize index)) as [p|] eqn:Hget1.
  { cbn [ret]. apply indexToPosition_from_anchor; try assumption; try lia.
    - apply Hok, Hget1.
    - apply SCache_get_Some in Hget1. lia. }
  destruct (SCache.get (indexToPosCache s) (roundToLowerBlockSize index - DEFAULT_BLOCK_SIZE))
    as [p|] eqn:Hget2.
  { cbn [ret]. pose proof (SCache_get_Some _ _ _ Hget2) as [H0 Hm].
    apply indexToPosition_from_anchor; try assumption; try lia.
    - apply Hok, Hget2.
    - unfold DEFAULT_BLOCK_SIZE in *. lia. }
  unfold bind at 1.
  destruct (Z.lt_ge_cases (roundToLowerBlockSize index) DEFAULT_BLOCK_SIZE) as [Hsmall|Hbig].
  - destruct fuel as [|fuel]; [unfold conversion_bound, blocks_bound in Hfuel; lia|].
    rewrite findHighestCachedIndexToPos_below by assumption.
    cbn [within_fuel ret].
    apply indexToPosition_from_anchor; try assumption; try lia. reflexivity.
  - destruct (findHighestCachedIndexToPos_ends (indexToPosCache s)
                (Z.to_nat (span (lines s) / 10)) DEFAULT_BLOCK_SIZE
                (roundToLowerBlockSize index) fuel) as (r & Hfind & Hbound);
      try assumption; try reflexivity; unfold DEFAULT_BLOCK_SIZE in *; try lia.
    + destruct Hdoc as [Hne Hsz]. unfold size_consistent in Hsz.
      rewrite len_join in Hsz by assumption.
      rewrite Z2Nat.id by (pose proof (span_nonneg (lines s)); Z.div_mod_to_equations; lia).
      Z.div_mod_to_equations. lia.
    + unfold conversion_bound, blocks_bound in Hfuel. lia.
    + unfold DEFAULT_BLOCK_SIZE. rewrite Hfind. cbn [within_fuel ret].
      destruct r as [[k p]|]; cbn [ret].
      * pose proof (findHighestCachedIndexToPos_sound _ _ _ _ _ _ Hfind) as Hget.
        pose proof (SCache_get_Some _ _ _ Hget) as [H0 Hm].
        specialize (Hbound k p eq_refl).
        apply indexToPosition_from_anchor; try assumption; try lia.
        apply Hok, Hget.
      * apply indexToPosition_from_anchor; try assumption; try lia. reflexivity.
Qed.

(** [positionToIndex] when the line cache has the entry of the line. *)
Lemma positionToIndex_hit fuel L c s l :
  Js.at_ (lines s) L = Some l -> 0 <= c <= Js.len l ->
  VCache.get (lineToIndexCache s) L = Some (lineStart (lines s) L + 1) ->
  returns (positionToIndex (S fuel) {| line := L + 1; col := c + 1 |} s)
          (lineStart (lines s) L + c).
Proof.
  intros Hl Hc Hget. pose proof (at_Some_bounds _ _ _ Hl) as Hb.
  pose proof (lineStart_nonneg (lines s) L) as Hnn.
  unfold positionToIndex, convertPosToZeroBased. cbn [line col].
  rewrite !Z.add_simpl_r.
  unfold bind at 1.
  rewrite (checkTextPosition_Ok {| line := L; col := c |} s l Hl Hc).
  unfold zeroBasedPosToIndex, zeroBasedPosToIndex_anchor. cbn [line col].
  unfold bind at 1. unfold this at 1. unfold bind at 1.
  rewrite Hget. cbn [truthy or_zero].
  destruct (Z.eqb_spec (lineStart (lines s) L + 1) 0) as [H|_]; [lia|].
  cbn [negb within_fuel ret]. rewrite Z.leb_refl.
  cbn [zeroBasedPosToIndex_lines]. unfold bind, this, put, ret.
  rewrite Z.eqb_refl. eexists. f_equal. lia.
Qed.

(** [positionToIndex] of what [indexToPosition] returned: the line cache
    has the entry of that line. *)
Lemma indexToPosition_then_positionToIndex s index fuel :
  store_ok s -> doc_ok s -> 0 <= index <= size s ->
  (conversion_bound s <= fuel)%nat ->
  returns ((p <- indexToPosition fuel index ;; positionToIndex fuel p) s) index.
Proof.
  intros Hok Hdoc Hidx Hfuel.
  destruct (indexToPosition_sound fuel index s Hok Hdoc Hidx Hfuel)
    as (L & l & s' & Hrun & Hl & Hbounds & Hok' & (_ & Hlines & _) & Hget).
  unfold bind. rewrite Hrun.
  destruct fuel as [|fuel]; [unfold conversion_bound, blocks_bound in Hfuel; lia|].
  rewrite <- Hlines in Hl, Hget.
  destruct (positionToIndex_hit fuel L (index - lineStart (lines s) L) s' l) as [s'' Hback];
    [exact Hl | lia | rewrite Hlines in *; exact Hget |].
  rewrite Hlines in Hback. rewrite Hback. exists s''. f_equal. lia.
Qed.

(** X1.  On a sound store the round trip from an index in bounds gives the
    index back: [indexToPosition] leaves the entry of the line it returns in
    the line cache, so that [positionToIndex] does not fall back. *)
Theorem index_round_trip_on_sound_store :
  forall s index fuel,
    store_ok s -> doc_ok s -> 0 <= index <= size s ->
    (conversion_bound s <= fuel)%nat ->
    returns ((p <- indexToPosition fuel index ;; positionToIndex fuel p) s) index.
Proof.
  intros s index fuel. apply indexToPosition_then_positionToIndex.
Qed.

(** An index lies on one line only. *)
Lemma line_of_index_unique ls L L' l l' index :
  Js.at_ ls L = Some l -> lineStart ls L <= index <= lineStart ls L + Js.len l ->
  Js.at_ ls L' = Some l' -> lineStart ls L' <= index <= lineStart ls L' + Js.len l' ->
  L = L'.
Proof.
  intros Hl Hi Hl' Hi'.
  pose proof (at_Some_bounds _ _ _ Hl) as Hb. pose proof (at_Some_bounds _ _ _ Hl') as Hb'.
  destruct (Z.lt_trichotomy L L') as [Hlt|[Heq|Hgt]]; [exfalso | exact Heq | exfalso].
  - pose proof (lineStart_mono ls (L + 1) L' ltac:(lia)) as Hm.
    rewrite (lineStart_succ _ _ _ Hl) in Hm. lia.
  - pose proof (lineStart_mono ls (L' + 1) L ltac:(lia)) as Hm.
    rewrite (lineStart_succ _ _ _ Hl') in Hm. lia.
Qed.

(** X2.  On sound stores with the same lines [indexToPosition] returns the
    same position, whatever the caches hold. *)
Theorem indexToPosition_result_on_sound_stores :
  forall s1 s2 index fuel1 fuel2,
    store_ok s1 -> doc_ok s1 -> store_ok s2 -> doc_ok s2 ->
    lines s1 = lines s2 -> 0 <= index <= size s1 ->
    (conversion_bound s1 <= fuel1)%nat -> (conversion_bound s2 <= fuel2)%nat ->
    exists p, returns (indexToPosition fuel1 index s1) p
              /\ returns (indexToPosition fuel2 index s2) p.
Proof.
  intros s1 s2 index fuel1 fuel2 Hok1 Hdoc1 Hok2 Hdoc2 Hlines Hidx Hf1 Hf2.
  assert (Hsize : size s2 = size s1).
  { destruct Hdoc1 as [_ H1]. destruct Hdoc2 as [_ H2].
    unfold size_consistent in *. rewrite H1, H2, Hlines. reflexivity. }
  destruct (indexToPosition_sound fuel1 index s1 Hok1 Hdoc1 Hidx Hf1)
    as (L1 & l1 & s1' & Hrun1 & Hl1 & Hb1 & _).
  destruct (indexToPosition_sound fuel2 index s2 Hok2 Hdoc2 ltac:(lia) Hf2)
    as (L2 & l2 & s2' & Hrun2 & Hl2 & Hb2 & _).
  rewrite <- Hlines in Hl2, Hb2, Hrun2.
  assert (L1 = L2) by (eapply line_of_index_unique; eassumption). subst L2.
  eexists. split; [exists s1'; exact Hrun1 | exists s2'; exact Hrun2].
Qed.

(** X3.  The round trip from a position, when the line cache has the entry of
    its line. *)
Theorem position_round_trip_on_sound_store :
  forall s L c l v fuel,
    store_ok s -> doc_ok s ->
    Js.at_ (lines s) L = Some l -> 0 <= c <= Js.len l ->
    VCache.get (lineToIndexCache s) L = Some v ->
    (conversion_bound s < fuel)%nat ->
    returns ((i <- positionToIndex fuel {| line := L + 1; col := c + 1 |} ;;
              indexToPosition fuel i) s)
            {| line := L + 1; col := c + 1 |}.
Proof.
  intros s L c l v fuel Hok Hdoc Hl Hc Hget Hfuel.
  destruct fuel as [|fuel]; [lia|].
  pose proof (proj2 (proj2 Hok) L v Hget) as [_ Hv]. subst v.
  destruct (positionToIndex_hit fuel L c s l Hl Hc Hget) as [s' Hrun].
  pose proof (lineStart_nonneg (lines s) L) as Hnn.
  assert (Hanch : lookup_anchored (S fuel) (PositionToIndex {| line := L + 1; col := c + 1 |}) s).
  { unfold lookup_anchored, lookup_line, convertPosToZeroBased. cbn [line col].
    rewrite !Z.add_simpl_r.
    rewrite (checkTextPosition_passes {| line := L; col := c |} s l Hl Hc).
    exists L, (lineStart (lines s) L + 1). split; [|lia].
    unfold zeroBasedPosToIndex_anchor. rewrite Hget. cbn [truthy or_zero].
    destruct (Z.eqb_spec (lineStart (lines s) L + 1) 0) as [H|_]; [lia | reflexivity]. }
  pose proof (positionToIndex_ok (S fuel) _ s Hok Hanch) as Hok'.
  pose proof (positionToIndex_keeps_doc (S fuel) {| line := L + 1; col := c + 1 |} s) as Hdoc'.
  unfold wp in Hok', Hdoc'. rewrite Hrun in Hok', Hdoc'.
  destruct Hdoc' as (Hstr & Hlines & Hsize).
  assert (Hdoc1 : doc_ok s').
  { destruct Hdoc as [Hne Hsz]. unfold doc_ok, size_consistent in *.
    rewrite Hlines, Hsize. split; assumption. }
  assert (Hidx : 0 <= lineStart (lines s) L + c <= size s').
  { destruct Hdoc as [Hne Hsz]. unfold size_consistent in Hsz.
    rewrite len_join in Hsz by assumption. rewrite Hsize, Hsz.
    pose proof (at_Some_bounds _ _ _ Hl) as Hb.
    pose proof (lineStart_mono (lines s) (L + 1) (Js.alen (lines s)) ltac:(lia)) as Hm.
    rewrite (lineStart_succ _ _ _ Hl) in Hm.
    unfold lineStart at 2 in Hm. unfold Js.alen in Hm. rewrite Nat2Z.id, firstn_all in Hm. lia. }
  destruct (indexToPosition_sound (S fuel) (lineStart (lines s) L + c) s' Hok' Hdoc1 Hidx)
    as (L' & l' & s'' & Hrun' & Hl' & Hb' & _).
  { unfold conversion_bound in *. rewrite Hlines. lia. }
  rewrite Hlines in Hl', Hb', Hrun'.
  assert (L = L') by (eapply line_of_index_unique; try eassumption; lia). subst L'.
  unfold bind. rewrite Hrun, Hrun'. exists s''. f_equal. f_equal. lia.
Qed.

(** A fresh store is sound: the round trip from an index holds on it. *)
Corollary index_round_trip_on_new_store :
  forall text index fuel,
    0 <= index <= Js.len text ->
    (conversion_bound (constructor text) <= fuel)%nat ->
    returns ((p <- indexToPosition fuel index ;; positionToIndex fuel p) (constructor text))
            index.
Proof.
  intros text index fuel Hidx Hfuel.
  apply indexToPosition_then_positionToIndex;
    [apply constructor_ok | apply constructor_doc_ok | exact Hidx | exact Hfuel].
Qed.

(** ** More on strings *)

Lemma append_assoc a b c : ((a ++ b) ++ c = a ++ (b ++ c))%string.
Proof. induction a as [|x a IH]; simpl; [reflexivity | rewrite IH; reflexivity]. Qed.

Lemma append_empty_r a : (a ++ EmptyString)%string = a.
Proof. induction a as [|x a IH]; simpl; [reflexivity | rewrite IH; reflexivity]. Qed.

Lemma take_app_exact a b n :
  Js.take (String.length a + n) (a ++ b) = (a ++ Js.take n b)%string.
Proof. induction a as [|x a IH]; simpl; [reflexivity | rewrite IH; reflexivity]. Qed.

Lemma take_app_le a b n :
  (n <= String.length a)%nat -> Js.take n (a ++ b) = Js.take n a.
Proof.
  revert n. induction a as [|x a IH]; intros [|n] H; simpl in *; try reflexivity; try lia.
  rewrite IH by lia. reflexivity.
Qed.

Lemma drop_app_exact a b n :
  Js.drop (String.length a + n) (a ++ b) = Js.drop n b.
Proof. rewrite <- drop_drop, drop_append. reflexivity. Qed.

Lemma drop_app_le a b n :
  (n <= String.length a)%nat -> Js.drop n (a ++ b) = (Js.drop n a ++ b)%string.
Proof.
  revert n. induction a as [|x a IH]; intros [|n] H; simpl in *; try lia.
  - destruct b; reflexivity.
  - reflexivity.
  - apply IH. lia.
Qed.

Lemma take_drop n s : (Js.take n s ++ Js.drop n s)%string = s.
Proof.
  revert s. induction n as [|n IH]; intros [|c s]; simpl; try reflexivity.
  rewrite IH. reflexivity.
Qed.

Lemma append_cancel_r a b c : (a ++ c = b ++ c)%string -> a = b.
Proof.
  intros H.
  assert (Hlen : String.length a = String.length b).
  { apply (f_equal String.length) in H. rewrite !length_append in H. lia. }
  assert (Hpre : forall x, Js.take (String.length x) (x ++ c) = x).
  { intros x. rewrite take_app_le by lia. apply take_all. lia. }
  rewrite <- (Hpre a), <- (Hpre b), H, Hlen. reflexivity.
Qed.

(** ** Lines and their newlines *)

Lemma terminated_app a b : terminated (a ++ b) = (terminated a ++ terminated b)%string.
Proof.
  induction a as [|x a IH]; simpl; [reflexivity|].
  rewrite IH, append_assoc. reflexivity.
Qed.

Lemma terminated_join ls :
  ls <> [] -> terminated ls = (Js.join ls ++ String Js.nl EmptyString)%string.
Proof.
  induction ls as [|x ls IH]; intros Hne; [congruence|].
  destruct ls as [|y ls].
  - reflexivity.
  - change (Js.join (x :: y :: ls)) with (x ++ String Js.nl (Js.join (y :: ls)))%string.
    cbn [terminated] in *. rewrite IH by discriminate.
    rewrite append_assoc. reflexivity.
Qed.

Lemma terminated_split u : terminated (Js.split u) = (u ++ String Js.nl EmptyString)%string.
Proof. rewrite terminated_join by apply split_not_nil. rewrite join_split. reflexivity. Qed.

Lemma length_terminated ls : Z.of_nat (String.length (terminated ls)) = span ls.
Proof.
  induction ls as [|x ls IH]; simpl; [reflexivity|].
  rewrite length_append. simpl. unfold Js.len. lia.
Qed.

Lemma nth_error_middle {T} (ls : list T) n x :
  nth_error ls n = Some x -> ls = firstn n ls ++ x :: skipn (S n) ls.
Proof.
  revert ls. induction n as [|n IH]; intros [|y ls] H; simpl in *; try discriminate.
  - congruence.
  - f_equal. apply IH, H.
Qed.

Lemma terminated_at ls n x :
  nth_error ls n = Some x ->
  terminated ls
  = (terminated (firstn n ls) ++ x ++ String Js.nl (terminated (skipn (S n) ls)))%string.
Proof.
  intros H. rewrite (nth_error_middle ls n x H) at 1.
  rewrite terminated_app. reflexivity.
Qed.

(** The lines after an edit from line [n], column [cs], to line [m],
    column [ce], read as one string. *)
Lemma terminated_edit ls (n m cs ce : nat) a b text :
  nth_error ls n = Some a -> nth_error ls m = Some b ->
  (cs <= String.length a)%nat -> (ce <= String.length b)%nat ->
  terminated (firstn n ls ++ Js.split (Js.take cs a ++ text ++ Js.drop ce b)
              ++ skipn (S m) ls)
  = (Js.take (String.length (terminated (firstn n ls)) + cs) (terminated ls)
     ++ text
     ++ Js.drop (String.length (terminated (firstn m ls)) + ce) (terminated ls))%string.
Proof.
  intros Ha Hb Hcs Hce.
  rewrite !terminated_app, terminated_split.
  rewrite (terminated_at ls n a Ha) at 1.
  rewrite take_app_exact, take_app_le by assumption.
  rewrite (terminated_at ls m b Hb) at 1.
  rewrite drop_app_exact, drop_app_le by assumption.
  rewrite !append_assoc. reflexivity.
Qed.

Lemma lineStart_line_le_span ls L l :
  Js.at_ ls L = Some l -> lineStart ls L + Js.len l + 1 <= span ls.
Proof.
  intros Hl. rewrite <- (lineStart_succ _ _ _ Hl).
  unfold lineStart. rewrite <- (firstn_skipn (Z.to_nat (L + 1)) ls) at 2.
  rewrite span_app. pose proof (span_nonneg (skipn (Z.to_nat (L + 1)) ls)). lia.
Qed.

Lemma at_nth_error {T} (a : list T) k x :
  Js.at_ a k = Some x -> nth_error a (Z.to_nat k) = Some x.
Proof. unfold Js.at_. destruct (k <? 0); [discriminate | auto]. Qed.

Lemma to_nat_offset ls L c :
  0 <= c ->
  Z.to_nat (lineStart ls L + c)
  = (String.length (terminated (firstn (Z.to_nat L) ls)) + Z.to_nat c)%nat.
Proof.
  intros Hc. unfold lineStart. rewrite <- length_terminated. lia.
Qed.

(** The content after an edit that replaces the characters from line [Ls],
    column [cs], up to line [Le], column [ce], by [text]. *)
Lemma join_spliced ls Ls Le a b cs ce text :
  Js.at_ ls Ls = Some a -> Js.at_ ls Le = Some b -> Ls <= Le ->
  0 <= cs <= Js.len a -> 0 <= ce <= Js.len b ->
  Js.join (spliced ls Ls (Z.to_nat (Le + 1 - Ls))
             (Js.slice a 0 cs ++ text ++ Js.slice_from b ce))
  = content_replaced (Js.join ls) (lineStart ls Ls + cs) (lineStart ls Le + ce) text.
Proof.
  intros Ha Hb Hle Hcs Hce.
  pose proof (at_Some_bounds _ _ _ Ha) as Hba. pose proof (at_Some_bounds _ _ _ Hb) as Hbb.
  pose proof (lineStart_line_le_span _ _ _ Ha) as Hsa.
  pose proof (lineStart_line_le_span _ _ _ Hb) as Hsb.
  pose proof (lineStart_nonneg ls Ls) as Hna. pose proof (lineStart_nonneg ls Le) as Hnb.
  assert (Hne : ls <> []) by (intros ->; unfold Js.alen in Hba; simpl in Hba; lia).
  pose proof (len_join ls Hne) as Hlen.
  apply (append_cancel_r _ _ (String Js.nl EmptyString)).
  rewrite <- terminated_join by apply spliced_not_nil.
  unfold spliced, content_replaced.
  rewrite slice_prefix, slice_suffix by assumption.
  replace (Z.to_nat Ls + Z.to_nat (Le + 1 - Ls))%nat with (S (Z.to_nat Le)) by lia.
  rewrite (terminated_edit ls (Z.to_nat Ls) (Z.to_nat Le) (Z.to_nat cs) (Z.to_nat ce) a b text);
    [ | apply at_nth_error, Ha | apply at_nth_error, Hb
      | unfold Js.len in Hcs; lia | unfold Js.len in Hce; lia ].
  rewrite <- !to_nat_offset by lia.
  rewrite (terminated_join ls Hne).
  rewrite take_app_le by (unfold Js.len in Hlen; lia).
  rewrite drop_app_le by (unfold Js.len in Hlen; lia).
  rewrite !append_assoc. reflexivity.
Qed.

(** ** The walk of [zeroBasedPosToIndex] ends *)

Lemma at_in_bounds {T} (a : list T) k : 0 <= k < Js.alen a -> exists x, Js.at_ a k = Some x.
Proof.
  intros Hk. unfold Js.at_, Js.alen in *.
  destruct (Z.ltb_spec k 0) as [H|_]; [lia|].
  destruct (nth_error a (Z.to_nat k)) as [x|] eqn:E; [exists x; reflexivity|].
  apply nth_error_None in E. lia.
Qed.

Lemma zeroBasedPosToIndex_lines_returns (n : nat) :
  forall fuel target currentLine offset s,
    0 <= currentLine -> target < Js.alen (lines s) ->
    Z.of_nat n = target - currentLine -> (n < fuel)%nat ->
    exists v s', zeroBasedPosToIndex_lines fuel target currentLine offset s = Ok v s'.
Proof.
  induction n as [|n IH]; intros fuel target cur offset s Hcur Htarget Hn Hfuel;
    (destruct fuel as [|fuel]; [lia|]); cbn [zeroBasedPosToIndex_lines];
    unfold bind at 1; unfold this at 1; unfold bind at 1; unfold put at 1.
  - destruct (Z.eqb_spec cur target) as [_|H]; [|lia]. eexists _, _. reflexivity.
  - destruct (Z.eqb_spec cur target) as [H|_]; [lia|].
    destruct (at_in_bounds (lines s) cur ltac:(lia)) as [l Hl].
    unfold bind at 1. cbn [lines with_lineToIndexCache]. rewrite Hl. cbn [defined ret].
    apply IH; cbn [lines with_lineToIndexCache]; lia.
Qed.

Lemma zeroBasedPosToIndex_returns fuel pos s :
  0 <= line pos < Js.alen (lines s) ->
  lookup_ends fuel (lineToIndexCache s) (line pos) -> (Z.to_nat (line pos) < fuel)%nat ->
  exists v s', zeroBasedPosToIndex fuel pos s = Ok v s'.
Proof.
  intros Hline Hends Hfuel. unfold zeroBasedPosToIndex.
  unfold bind at 1. unfold this at 1. unfold bind at 1.
  unfold lookup_ends in Hends.
  destruct (zeroBasedPosToIndex_anchor fuel (lineToIndexCache s) (line pos)) as [r|] eqn:Hr;
    [clear Hends | congruence].
  cbn [within_fuel ret].
  assert (Hwalk : forall l0 v0, 0 <= l0 ->
            exists v s',
              (offset <- (if l0 <=? line pos
                          then zeroBasedPosToIndex_lines fuel (line pos) l0 (v0 - 1)
                          else ret (v0 - 1)) ;;
               ret (offset + col pos)) s = Ok v s').
  { intros l0 v0 Hl0. destruct (Z.leb_spec l0 (line pos)) as [Hle|Hgt].
    - destruct (zeroBasedPosToIndex_lines_returns (Z.to_nat (line pos - l0)) fuel
                  (line pos) l0 (v0 - 1) s) as (v & s' & Hrun); try lia.
      unfold bind. rewrite Hrun. eexists _, _. reflexivity.
    - eexists _, _. reflexivity. }
  destruct r as [[l0 v0]|].
  - apply Hwalk. apply zeroBasedPosToIndex_anchor_sound in Hr. destruct Hr as [Hget _].
    eapply sparse_get_Some_nonneg, Hget.
  - apply Hwalk. lia.
Qed.

Lemma flushCache_returns fuel from s :
  0 <= line from < Js.alen (lines s) ->
  lookup_ends fuel (lineToIndexCache s) (line from) -> (Z.to_nat (line from) < fuel)%nat ->
  exists s', flushCache fuel from s = Ok tt s' /\ same_doc s s'.
Proof.
  intros Hline Hends Hfuel.
  destruct (zeroBasedPosToIndex_returns fuel from s Hline Hends Hfuel) as (v & s1 & Hrun).
  pose proof (flushCache_keeps_doc fuel from s) as Hkeep. unfold wp in Hkeep.
  unfold flushCache in *. unfold bind at 1 in Hkeep. unfold bind at 1.
  rewrite Hrun in *. cbn in Hkeep |- *. eexists. split; [reflexivity | exact Hkeep].
Qed.

(** ** What an edit does to the content *)

Lemma len_zero s : Js.len s = 0 -> s = EmptyString.
Proof. destruct s; [reflexivity | unfold Js.len; simpl; lia]. Qed.

Lemma content_replaced_nothing content i :
  content_replaced content i i EmptyString = content.
Proof. unfold content_replaced. simpl. apply take_drop. Qed.

Lemma insert_returns fuel text L c l s :
  Js.at_ (lines s) L = Some l -> 0 <= c <= Js.len l ->
  lookup_ends fuel (lineToIndexCache s) L -> (Z.to_nat L < fuel)%nat ->
  exists s',
    insert fuel text {| line := L + 1; col := c + 1 |} s = Ok tt s'
    /\ Js.join (lines s')
       = content_replaced (Js.join (lines s))
           (lineStart (lines s) L + c) (lineStart (lines s) L + c) text
    /\ size s' = size s + Js.len text.
Proof.
  intros Hl Hc Hends Hfuel. pose proof (at_Some_bounds _ _ _ Hl) as Hb.
  unfold insert. destruct (Z.eqb_spec (Js.len text) 0) as [H0|H0].
  - exists s. split; [reflexivity|]. rewrite H0, (len_zero _ H0), content_replaced_nothing.
    split; [reflexivity | lia].
  - unfold convertPosToZeroBased. cbn [line col]. rewrite !Z.add_simpl_r.
    unfold bind at 1.
    rewrite (checkTextPosition_Ok {| line := L; col := c |} s l Hl Hc).
    destruct (flushCache_returns fuel {| line := L; col := c |} s Hb Hends Hfuel)
      as (s1 & Hflush & (Hstr & Hlines & Hsize)).
    unfold bind at 1. rewrite Hflush.
    unfold bind, this, put. cbn [lines str size indexToPosCache lineToIndexCache].
    rewrite Hlines, Hl. cbn [defined ret].
    rewrite splice_in_bounds by exact Hb.
    eexists. split; [reflexivity|]. cbn [lines size].
    split; [|lia].
    replace (delete_count (lines s) L 1) with (Z.to_nat (L + 1 - L))
      by (unfold delete_count; lia).
    apply join_spliced; try assumption. lia.
Qed.

Lemma span_firstn_add ls (n c : nat) :
  span (firstn (n + c) ls) = span (firstn n ls) + span (firstn c (skipn n ls)).
Proof.
  revert ls. induction n as [|n IH]; intros ls; simpl; [reflexivity|].
  destruct ls as [|x ls]; simpl.
  - rewrite firstn_nil. reflexivity.
  - rewrite IH. lia.
Qed.

Lemma replace_returns fuel text Ls cs Le ce ls le s :
  Js.at_ (lines s) Ls = Some ls -> 0 <= cs <= Js.len ls ->
  Js.at_ (lines s) Le = Some le -> 0 <= ce <= Js.len le ->
  Ls <= Le ->
  lookup_ends fuel (lineToIndexCache s) Ls -> (Z.to_nat Ls < fuel)%nat ->
  exists s',
    replace fuel {| start := {| line := Ls + 1; col := cs + 1 |};
                    end_ := {| line := Le + 1; col := ce + 1 |} |} text s = Ok tt s'
    /\ Js.join (lines s')
       = content_replaced (Js.join (lines s))
           (lineStart (lines s) Ls + cs) (lineStart (lines s) Le + ce) text
    /\ size s' = size s + Js.len text
                 - ((lineStart (lines s) Le + ce) - (lineStart (lines s) Ls + cs)).
Proof.
  intros Hls Hcs Hle Hce Hord Hends Hfuel.
  pose proof (at_Some_bounds _ _ _ Hls) as Hbs. pose proof (at_Some_bounds _ _ _ Hle) as Hbe.
  unfold replace, convertPosToZeroBased. cbn [start end_ line col]. rewrite !Z.add_simpl_r.
  unfold bind at 1.
  rewrite (checkTextPosition_Ok {| line := Ls; col := cs |} s ls Hls Hcs).
  unfold bind at 1.
  rewrite (checkTextPosition_Ok {| line := Le; col := ce |} s le Hle Hce).
  destruct (flushCache_returns fuel {| line := Ls; col := cs |} s Hbs Hends Hfuel)
    as (s1 & Hflush & (Hstr & Hlines & Hsize)).
  unfold bind at 1. rewrite Hflush.
  unfold bind, this. rewrite Hlines, Hls. cbn [defined ret]. rewrite Hle. cbn [defined ret].
  rewrite splice_in_bounds by exact Hbs.
  assert (Hcount : delete_count (lines s) Ls (Le + 1 - Ls) = Z.to_nat (Le + 1 - Ls))
    by (unfold delete_count; lia).
  rewrite Hcount. unfold put.
  eexists. split; [reflexivity|]. cbn [lines size]. split.
  - apply join_spliced; assumption.
  - rewrite (len_join (firstn _ _)) by (apply length_removed; [lia | exact Hbs]).
    rewrite len_slice_around, len_slice_from by assumption.
    assert (Hspan : span (firstn (Z.to_nat (Le + 1 - Ls)) (skipn (Z.to_nat Ls) (lines s)))
                    = lineStart (lines s) (Le + 1) - lineStart (lines s) Ls).
    { unfold lineStart.
      replace (Z.to_nat (Le + 1)) with (Z.to_nat Ls + Z.to_nat (Le + 1 - Ls))%nat by lia.
      rewrite span_firstn_add. lia. }
    rewrite Hspan, (lineStart_succ _ _ _ Hle), Hsize. lia.
Qed.

(** ** When the lookup in the line cache ends *)

Lemma anchor_hit fuel cache L v :
  VCache.get cache L = Some v -> v <> 0 ->
  zeroBasedPosToIndex_anchor fuel cache L = Some (Some (L, v)).
Proof.
  intros Hget Hv. unfold zeroBasedPosToIndex_anchor. rewrite Hget. cbn [truthy or_zero].
  destruct (Z.eqb_spec v 0) as [H|_]; [contradiction | reflexivity].
Qed.

Lemma anchored_lookup_ends fuel cache L : anchored fuel cache L -> lookup_ends fuel cache L.
Proof. intros (l & v & H & _). unfold lookup_ends. rewrite H. discriminate. Qed.

(** For the first line the search is over after one call. *)
Lemma anchor_first_line fuel cache :
  truthy (VCache.get cache 0) = false ->
  zeroBasedPosToIndex_anchor (S fuel) cache 0 = Some None.
Proof.
  intros Hcold. unfold zeroBasedPosToIndex_anchor. rewrite Hcold.
  change (VCache.get cache (0 - 1)) with (@None Z). cbn [truthy].
  cbn [findHighestCachedLineToIndex].
  change (Num.add (Num.div (Num.sub (Num.of_Z 0) (Num.of_Z 0)) (Num.of_Z 2)) (Num.of_Z 0))
    with (S754_zero false).
  change (Num.ltb (S754_zero false) (Num.of_Z 0)) with false. cbv iota.
  change (lineToIndexCache_get_num cache (S754_zero false)) with (VCache.get cache 0).
  rewrite Hcold.
  change (Num.eqb (Num.of_Z 0) (S754_zero false)) with true. reflexivity.
Qed.

Lemma lookup_ends_first_line fuel cache : lookup_ends (S fuel) cache 0.
Proof.
  unfold lookup_ends. destruct (truthy (VCache.get cache 0)) eqn:Ht.
  - apply truthy_Some in Ht. destruct Ht as (v & Hget & Hv).
    rewrite (anchor_hit _ _ _ _ Hget Hv). discriminate.
  - rewrite anchor_first_line by exact Ht. discriminate.
Qed.

(** ** The edits *)




(** ** [positionToIndex], warm and cold *)

(** X7.  On a sound store, a lookup that finds a cached entry at or before the
    line makes [positionToIndex] return the offset of the position. *)
Theorem positionToIndex_on_sound_store :
  forall fuel L c l st,
    store_ok st ->
    Js.at_ (lines st) L = Some l -> 0 <= c <= Js.len l ->
    anchored fuel (lineToIndexCache st) L -> (Z.to_nat L < fuel)%nat ->
    returns (positionToIndex fuel {| line := L + 1; col := c + 1 |} st)
            (lineStart (lines st) L + c).
Proof.
  intros fuel L c l st Hok Hl Hc Hanch Hfuel. pose proof (at_Some_bounds _ _ _ Hl) as Hb.
  unfold positionToIndex, convertPosToZeroBased. cbn [line col]. rewrite !Z.add_simpl_r.
  unfold bind at 1. rewrite (checkTextPosition_Ok {| line := L; col := c |} st l Hl Hc).
  destruct (zeroBasedPosToIndex_returns fuel {| line := L; col := c |} st Hb
              (anchored_lookup_ends _ _ _ Hanch) Hfuel) as (v & st' & Hrun).
  pose proof (zeroBasedPosToIndex_ok fuel {| line := L; col := c |} st Hok Hb Hanch) as Hwp.
  unfold wp in Hwp. rewrite Hrun in Hwp. destruct Hwp as (-> & _).
  exists st'. exact Hrun.
Qed.

(** X8.  While the line cache has no entry for the first line, or the entry
    [0], [positionToIndex] of a position on the first line returns one less
    than its offset, and writes the entry [0] for the first line, so that the
    next call is no better off. *)
Theorem positionToIndex_first_line_cold :
  forall fuel c l st,
    Js.at_ (lines st) 0 = Some l -> 0 <= c <= Js.len l ->
    truthy (VCache.get (lineToIndexCache st) 0) = false ->
    exists st',
      positionToIndex (S fuel) {| line := 1; col := c + 1 |} st = Ok (c - 1) st'
      /\ same_doc st st'
      /\ VCache.get (lineToIndexCache st') 0 = Some 0
      /\ truthy (VCache.get (lineToIndexCache st') 0) = false.
Proof.
  intros fuel c l st Hl Hc Hcold. pose proof (at_Some_bounds _ _ _ Hl) as Hb.
  unfold positionToIndex, convertPosToZeroBased. cbn [line col]. rewrite !Z.add_simpl_r.
  change (1 - 1) with 0.
  unfold bind at 1. rewrite (checkTextPosition_Ok {| line := 0; col := c |} st l Hl Hc).
  unfold zeroBasedPosToIndex. cbn [line col].
  unfold bind at 1. unfold this at 1. unfold bind at 1.
  rewrite (anchor_first_line fuel _ Hcold). cbn [within_fuel ret].
  change (0 <=? 0) with true. cbv iota.
  cbn [zeroBasedPosToIndex_lines]. unfold bind, this, put, ret.
  destruct (Z.ltb_spec 0 (Js.alen (lines st))) as [_|H]; [|lia].
  change (0 =? 0) with true. cbv iota.
  eexists. split; [f_equal; lia|]. split; [repeat split|].
  cbn [lineToIndexCache with_lineToIndexCache].
  rewrite VCache_get_set by lia. split; reflexivity.
Qed.

(** ** Edits addressed by index *)

Lemma line_of_index_mono ls L L' l l' i j :
  Js.at_ ls L = Some l -> lineStart ls L <= i <= lineStart ls L + Js.len l ->
  Js.at_ ls L' = Some l' -> lineStart ls L' <= j <= lineStart ls L' + Js.len l' ->
  i <= j -> L <= L'.
Proof.
  intros Hl Hi Hl' Hj Hij.
  pose proof (at_Some_bounds _ _ _ Hl) as Hb. pose proof (at_Some_bounds _ _ _ Hl') as Hb'.
  destruct (Z.le_gt_cases L L') as [Hle|Hgt]; [exact Hle | exfalso].
  pose proof (lineStart_mono ls (L' + 1) L ltac:(lia)) as Hm.
  rewrite (lineStart_succ _ _ _ Hl') in Hm. lia.
Qed.

Lemma conversion_bound_lines s s' : lines s' = lines s -> conversion_bound s' = conversion_bound s.
Proof. unfold conversion_bound. intros ->. reflexivity. Qed.

Lemma conversion_bound_line s L l :
  Js.at_ (lines s) L = Some l -> (Z.to_nat L < conversion_bound s)%nat.
Proof.
  intros Hl. apply at_Some_bounds in Hl. unfold conversion_bound, Js.alen in *. lia.
Qed.

Lemma lookup_anchored_insert_hit fuel text L c l s v :
  Js.at_ (lines s) L = Some l -> 0 <= c <= Js.len l ->
  VCache.get (lineToIndexCache s) L = Some v -> v <> 0 ->
  lookup_anchored fuel (Insert text {| line := L + 1; col := c + 1 |}) s.
Proof.
  intros Hl Hc Hget Hv. unfold lookup_anchored, lookup_line, convertPosToZeroBased.
  cbn [line col]. rewrite !Z.add_simpl_r.
  rewrite (checkTextPosition_passes {| line := L; col := c |} s l Hl Hc).
  destruct (negb (Js.len text =? 0)); cbn [andb]; [|exact I].
  exists L, v. split; [apply anchor_hit; assumption | lia].
Qed.

Lemma lookup_anchored_replace_hit fuel text Ls cs Le ce ls le s v :
  Js.at_ (lines s) Ls = Some ls -> 0 <= cs <= Js.len ls ->
  Js.at_ (lines s) Le = Some le -> 0 <= ce <= Js.len le ->
  VCache.get (lineToIndexCache s) Ls = Some v -> v <> 0 ->
  lookup_anchored fuel (Replace {| start := {| line := Ls + 1; col := cs + 1 |};
                                   end_ := {| line := Le + 1; col := ce + 1 |} |} text) s.
Proof.
  intros Hls Hcs Hle Hce Hget Hv. unfold lookup_anchored, lookup_line, convertPosToZeroBased.
  cbn [start end_ line col]. rewrite !Z.add_simpl_r.
  rewrite (checkTextPosition_passes {| line := Ls; col := cs |} s ls Hls Hcs).
  rewrite (checkTextPosition_passes {| line := Le; col := ce |} s le Hle Hce).
  cbn [andb]. exists Ls, v. split; [apply anchor_hit; assumption | lia].
Qed.

(** [insert] at the position of [index]: the store that is left. *)
Lemma insert_at fuel text index s :
  store_ok s -> doc_ok s -> 0 <= index <= size s ->
  (conversion_bound s <= fuel)%nat ->
  exists s2,
    (p <- indexToPosition fuel index ;; insert fuel text p) s = Ok tt s2
    /\ Js.join (lines s2) = content_replaced (Js.join (lines s)) index index text
    /\ size s2 = size s + Js.len text
    /\ store_ok s2 /\ doc_ok s2.
Proof.
  intros Hok Hdoc Hidx Hfuel.
  destruct (indexToPosition_sound fuel index s Hok Hdoc Hidx Hfuel)
    as (L & l & s1 & Hrun & Hl & Hbounds & Hok1 & Hsame1 & Hget).
  pose proof (same_doc_ok _ _ Hsame1 Hdoc) as Hdoc1.
  destruct Hsame1 as (_ & Hlines1 & Hsize1).
  pose proof (lineStart_nonneg (lines s) L) as Hnn.
  pose proof (conversion_bound_line s L l Hl) as HL.
  rewrite <- Hlines1 in Hl, Hget.
  set (c := index - lineStart (lines s) L) in *.
  assert (Hc : 0 <= c <= Js.len l) by (subst c; lia).
  destruct (insert_returns fuel text L c l s1 Hl Hc) as (s2 & Hins & Hjoin & Hsize2).
  { unfold lookup_ends. erewrite anchor_hit; [discriminate | exact Hget | rewrite Hlines1; lia]. }
  { lia. }
  assert (Hanch : lookup_anchored fuel (Insert text {| line := L + 1; col := c + 1 |}) s1).
  { eapply lookup_anchored_insert_hit; [exact Hl | exact Hc | exact Hget | rewrite Hlines1; lia]. }
  pose proof (insert_ok fuel text _ s1 Hok1 Hanch) as Hok2.
  pose proof (insert_doc_ok fuel text {| line := L + 1; col := c + 1 |} s1 Hdoc1) as Hdoc2.
  unfold wp in Hok2, Hdoc2. rewrite Hins in Hok2, Hdoc2.
  rewrite Hlines1 in Hjoin.
  replace (lineStart (lines s) L + c) with index in Hjoin by (subst c; lia).
  exists s2. unfold bind. rewrite Hrun. fold c. rewrite Hins.
  split; [reflexivity | split; [exact Hjoin | split; [lia | split; assumption]]].
Qed.

(** [replace] between the positions of [i] and [j]: the store that is
    left. *)
Lemma replace_between fuel text i j s :
  store_ok s -> doc_ok s -> 0 <= i <= j -> j <= size s ->
  (conversion_bound s <= fuel)%nat ->
  exists s3,
    (q <- indexToPosition fuel j ;;
     p <- indexToPosition fuel i ;;
     replace fuel {| start := p; end_ := q |} text) s = Ok tt s3
    /\ Js.join (lines s3) = content_replaced (Js.join (lines s)) i j text
    /\ store_ok s3 /\ doc_ok s3.
Proof.
  intros Hok Hdoc Hij Hj Hfuel.
  destruct (indexToPosition_sound fuel j s Hok Hdoc ltac:(lia) Hfuel)
    as (Lj & lj & s1 & Hrun1 & Hlj & Hbj & Hok1 & Hsame1 & _).
  pose proof (same_doc_ok _ _ Hsame1 Hdoc) as Hdoc1.
  destruct Hsame1 as (_ & Hlines1 & Hsize1).
  destruct (indexToPosition_sound fuel i s1 Hok1 Hdoc1) as
    (Li & li & s2 & Hrun2 & Hli & Hbi & Hok2 & Hsame2 & Hget);
    [lia | rewrite (conversion_bound_lines _ _ Hlines1); exact Hfuel |].
  pose proof (same_doc_ok _ _ Hsame2 Hdoc1) as Hdoc2.
  destruct Hsame2 as (_ & Hlines2 & _).
  rewrite Hlines1 in Hli, Hbi, Hget, Hrun2.
  pose proof (lineStart_nonneg (lines s) Li) as Hni.
  pose proof (lineStart_nonneg (lines s) Lj) as Hnj.
  pose proof (conversion_bound_line s Li li Hli) as HL.
  set (ci := i - lineStart (lines s) Li) in *.
  set (cj := j - lineStart (lines s) Lj) in *.
  assert (Hci : 0 <= ci <= Js.len li) by (subst ci; lia).
  assert (Hcj : 0 <= cj <= Js.len lj) by (subst cj; lia).
  assert (Hord : Li <= Lj)
    by (eapply line_of_index_mono; [exact Hli | exact Hbi | exact Hlj | exact Hbj | lia]).
  assert (Hli2 : Js.at_ (lines s2) Li = Some li) by (rewrite Hlines2, Hlines1; exact Hli).
  assert (Hlj2 : Js.at_ (lines s2) Lj = Some lj) by (rewrite Hlines2, Hlines1; exact Hlj).
  destruct (replace_returns fuel text Li ci Lj cj li lj s2 Hli2 Hci Hlj2 Hcj Hord)
    as (s3 & Hrep & Hjoin & _).
  { unfold lookup_ends. erewrite anchor_hit; [discriminate | exact Hget | lia]. }
  { lia. }
  set (range := {| start := {| line := Li + 1; col := ci + 1 |};
                   end_ := {| line := Lj + 1; col := cj + 1 |} |}) in *.
  assert (Hanch : lookup_anchored fuel (Replace range text) s2).
  { eapply lookup_anchored_replace_hit;
      [exact Hli2 | exact Hci | exact Hlj2 | exact Hcj | exact Hget | lia]. }
  pose proof (replace_ok fuel range text s2 Hok2 Hanch) as Hok3.
  assert (Hrange : line (start range) <= line (end_ range)) by (subst range; cbn [start end_ line]; lia).
  pose proof (replace_doc_ok fuel range text s2 Hrange Hdoc2) as Hdoc3.
  unfold wp in Hok3, Hdoc3. rewrite Hrep in Hok3, Hdoc3.
  rewrite Hlines2, Hlines1 in Hjoin.
  replace (lineStart (lines s) Li + ci) with i in Hjoin by (subst ci; lia).
  replace (lineStart (lines s) Lj + cj) with j in Hjoin by (subst cj; lia).
  exists s3. unfold bind. rewrite Hrun1, Hrun2. fold ci cj. fold range. rewrite Hrep.
  split; [reflexivity | split; [exact Hjoin | split; assumption]].
Qed.

(** X9.  On a sound store, [insert] at the position that [indexToPosition]
    returns for [index] puts the text in at [index], and the store that is
    left is sound again. *)
Theorem insert_at_index :
  forall fuel text index s,
    store_ok s -> doc_ok s -> 0 <= index <= size s ->
    (conversion_bound s <= fuel)%nat ->
    exists s',
      (p <- indexToPosition fuel index ;;
       insert fuel text p ;;;
       getContents None) s
      = Ok (content_replaced (Js.join (lines s)) index index text) s'
      /\ store_ok s' /\ doc_ok s'.
Proof.
  intros fuel text index s Hok Hdoc Hidx Hfuel.
  destruct (insert_at fuel text index s Hok Hdoc Hidx Hfuel)
    as (s2 & Hrun & Hjoin & _ & Hok2 & Hdoc2).
  exists s2. split; [|split; assumption].
  unfold bind in *.
  destruct (indexToPosition fuel index s) as [p s1| |]; try discriminate.
  rewrite Hrun. unfold getContents, bind, this, ret. rewrite Hjoin. reflexivity.
Qed.

(** X10.  On a sound store, [replace] and [remove] between the positions that
    [indexToPosition] returns for [i] and [j] act on the characters from [i]
    up to [j], and the store that is left is sound again. *)
Theorem replace_between_indices :
  forall fuel text i j s,
    store_ok s -> doc_ok s -> 0 <= i <= j -> j <= size s ->
    (conversion_bound s <= fuel)%nat ->
    (exists s',
        (q <- indexToPosition fuel j ;;
         p <- indexToPosition fuel i ;;
         replace fuel {| start := p; end_ := q |} text ;;;
         getContents None) s
        = Ok (Js.take (Z.to_nat i) (Js.join (lines s)) ++ text
              ++ Js.drop (Z.to_nat j) (Js.join (lines s)))%string s'
        /\ store_ok s' /\ doc_ok s')
    /\ (exists s',
           (q <- indexToPosition fuel j ;;
            p <- indexToPosition fuel i ;;
            remove fuel {| start := p; end_ := q |} ;;;
            getContents None) s
           = Ok (Js.take (Z.to_nat i) (Js.join (lines s))
                 ++ Js.drop (Z.to_nat j) (Js.join (lines s)))%string s'
           /\ store_ok s' /\ doc_ok s').
Proof.
  intros fuel text i j s Hok Hdoc Hij Hj Hfuel.
  assert (H : forall text',
            exists s',
              (q <- indexToPosition fuel j ;;
               p <- indexToPosition fuel i ;;
               replace fuel {| start := p; end_ := q |} text' ;;;
               getContents None) s
              = Ok (content_replaced (Js.join (lines s)) i j text') s'
              /\ store_ok s' /\ doc_ok s').
  { intros text'.
    destruct (replace_between fuel text' i j s Hok Hdoc Hij Hj Hfuel)
      as (s3 & Hrun & Hjoin & Hok3 & Hdoc3).
    exists s3. split; [|split; assumption].
    unfold bind in *.
    destruct (indexToPosition fuel j s) as [q s1| |]; try discriminate.
    destruct (indexToPosition fuel i s1) as [p s2| |]; try discriminate.
    rewrite Hrun. unfold getContents, bind, this, ret. rewrite Hjoin. reflexivity. }
  split; [apply H | apply (H EmptyString)].
Qed.

(** ** A position that is turned down *)

Lemma checkTextPosition_Throw pos s e s' :
  checkTextPosition pos s = Throw e s' -> s' = s.
Proof.
  intros H. pose proof (checkTextPosition_spec pos s) as Hspec.
  unfold wp in Hspec. rewrite H in Hspec. exact Hspec.
Qed.

(** X11.  The edits validate before they touch anything: when
    [checkTextPosition] raises for the position of an [insert] of a string
    that is not empty, or for a position of a [replace] or a [remove], the
    call raises that error and the store is as it was before the call, caches
    included.  An [insert] of the empty string returns without looking at
    the position. *)
Theorem rejected_position_changes_nothing :
  forall fuel st e,
    (forall text at_,
        Js.len text <> 0 ->
        checkTextPosition (convertPosToZeroBased at_) st = Throw e st ->
        insert fuel text at_ st = Throw e st)
    /\ (forall range text,
           checkTextPosition (convertPosToZeroBased (start range)) st = Throw e st ->
           replace fuel range text st = Throw e st /\ remove fuel range st = Throw e st)
    /\ (forall range text,
           checkTextPosition (convertPosToZeroBased (start range)) st = Ok tt st ->
           checkTextPosition (convertPosToZeroBased (end_ range)) st = Throw e st ->
           replace fuel range text st = Throw e st /\ remove fuel range st = Throw e st)
    /\ (forall pos st', checkTextPosition pos st = Throw e st' -> st' = st)
    /\ (forall at_, insert fuel EmptyString at_ st = Ok tt st).
Proof.
  intros fuel st e. split; [|split; [|split; [|split]]].
  - intros text at_ Htext Hcheck. unfold insert.
    destruct (Z.eqb_spec (Js.len text) 0) as [H|_]; [contradiction|].
    unfold bind at 1. rewrite Hcheck. reflexivity.
  - intros range text Hcheck. unfold remove, replace.
    unfold bind at 1. rewrite Hcheck. unfold bind at 1. rewrite Hcheck.
    split; reflexivity.
  - intros range text Hstart Hend. unfold remove, replace.
    unfold bind at 1. rewrite Hstart. unfold bind at 1. rewrite Hend.
    unfold bind at 1. rewrite Hstart. unfold bind at 1. rewrite Hend.
    split; reflexivity.
  - intros pos st'. apply checkTextPosition_Throw.
  - intros at_. reflexivity.
Qed.

(** ** The conversions touch the caches only *)

(** X12.  Whether they return or raise, [indexToPosition] and
    [positionToIndex] leave the lines and the size counter as they were;
    [getSize] and [getContents] leave the whole store as it was. *)
Theorem conversions_keep_the_document :
  forall fuel st,
    (forall index st', state_of (indexToPosition fuel index st) = Some st' ->
                       lines st' = lines st /\ size st' = size st)
    /\ (forall pos st', state_of (positionToIndex fuel pos st) = Some st' ->
                        lines st' = lines st /\ size st' = size st)
    /\ state_of (getSize st) = Some st
    /\ (forall range, state_of (getContents range st) = Some st).
Proof.
  intros fuel st. split; [|split; [|split]].
  - intros index st' H.
    apply (wp_state_of _ (fun s1 => lines s1 = lines st /\ size s1 = size st)) in H; [exact H|].
    wp_call indexToPosition_keeps_doc; destruct H0 as (_ & ? & ?); split; assumption.
  - intros pos st' H.
    apply (wp_state_of _ (fun s1 => lines s1 = lines st /\ size s1 = size st)) in H; [exact H|].
    wp_call positionToIndex_keeps_doc; destruct H0 as (_ & ? & ?); split; assumption.
  - reflexivity.
  - intros range. pose proof (getContents_state range st) as H. unfold wp in H.
    destruct (getContents range st) as [a s1|e s1|] eqn:E; cbn [state_of]; try (f_equal; exact H).
    exfalso. revert E. unfold getContents, clampTextPosition, bind, this, defined, ret, throw.
    destruct range as [range|]; [|discriminate].
    repeat match goal with
           | |- context [match ?o with Some _ => _ | None => _ end] => destruct o
           end; discriminate.
Qed.

(** ** What [flushCache] leaves on a sound store *)

(** X13.  On a sound store, when the lookup finds an entry at or before the
    line of [from], [flushCache(from)] returns and leaves no line entry from
    that line on and no block entry from the offset of [from] on; what is left
    is sound. *)
Theorem flushCache_on_sound_store :
  forall fuel from s,
    store_ok s -> 0 <= line from < Js.alen (lines s) -> 0 <= col from ->
    anchored fuel (lineToIndexCache s) (line from) -> (Z.to_nat (line from) < fuel)%nat ->
    exists s',
      flushCache fuel from s = Ok tt s'
      /\ same_doc s s'
      /\ (forall L, line from <= L -> VCache.get (lineToIndexCache s') L = None)
      /\ (forall k, lineStart (lines s) (line from) + col from <= k ->
                    SCache.get (indexToPosCache s') k = None)
      /\ store_ok s'.
Proof.
  intros fuel from s Hok Hline Hcol Hanch Hfuel.
  destruct (flushCache_returns fuel from s Hline (anchored_lookup_ends _ _ _ Hanch) Hfuel)
    as (s' & Hrun & Hsame).
  pose proof (flushCache_ok fuel from s Hok Hline Hcol Hanch) as Hwp.
  unfold wp in Hwp. rewrite Hrun in Hwp. destruct Hwp as [Hl Hb].
  exists s'. split; [exact Hrun | split; [exact Hsame | split; [|split]]].
  - intros L HL. destruct (VCache.get (lineToIndexCache s') L) as [v|] eqn:E; [|reflexivity].
    apply Hl in E. lia.
  - intros k Hk. destruct (SCache.get (indexToPosCache s') k) as [p|] eqn:E; [|reflexivity].
    apply Hb in E. lia.
  - destruct Hsame as (_ & Hlines & _). destruct Hok as (Hnl & _ & _).
    split; [rewrite Hlines; exact Hnl | split]; rewrite Hlines.
    + intros k p E. apply Hb in E. apply E.
    + intros L v E. apply Hl in E. split; [lia | apply E].
Qed.

(** ** The two cache classes as maps *)

Lemma sparse_get_nil {T} k : Js.sparse_get (@nil (option T)) k = None.
Proof.
  unfold Js.sparse_get, Js.at_. destruct (k <? 0); [reflexivity|].
  destruct (Z.to_nat k); reflexivity.
Qed.

Lemma sparse_get_negative {T} (a : list (option T)) k : k < 0 -> Js.sparse_get a k = None.
Proof.
  intros Hk. unfold Js.sparse_get, Js.at_.
  destruct (Z.ltb_spec k 0) as [_|H]; [reflexivity | lia].
Qed.

(** [arr.slice(0, n)] for any [n], negative ones included. *)
Lemma sparse_get_aslice_rel {T} (a : list (option T)) n k :
  Js.sparse_get (Js.aslice a 0 n) k
  = if k <? Js.rel_index (Js.alen a) n then Js.sparse_get a k else None.
Proof.
  assert (Hto : 0 <= Js.rel_index (Js.alen a) n <= Js.alen a).
  { unfold Js.rel_index, Js.alen. destruct (Z.ltb_spec n 0); lia. }
  unfold Js.aslice. set (to := Js.rel_index (Js.alen a) n) in *.
  assert (Hfrom : Js.rel_index (Js.alen a) 0 = 0) by (unfold Js.rel_index, Js.alen; simpl; lia).
  rewrite Hfrom. simpl (Z.to_nat 0). rewrite skipn_O, Z.sub_0_r.
  destruct (Z.ltb_spec k 0) as [Hk|Hk].
  - rewrite !sparse_get_negative by assumption. destruct (k <? to); reflexivity.
  - unfold Js.sparse_get, Js.at_. destruct (Z.ltb_spec k 0) as [H|_]; [lia|].
    destruct (Z.ltb_spec k to) as [Hlt|Hge].
    + rewrite nth_error_firstn.
      destruct (Nat.ltb_spec (Z.to_nat k) (Z.to_nat to)) as [_|Hc]; [reflexivity | lia].
    + replace (nth_error (firstn (Z.to_nat to) a) (Z.to_nat k)) with (@None (option T));
        [reflexivity|].
      symmetry. apply nth_error_None. rewrite length_firstn. unfold Js.alen in *. lia.
Qed.

(** X14.  [SCache] is a map on the multiples of the block size: [get] after
    [set] finds the value and no other key has changed, and [flush(from)]
    removes the keys from [from] on and no other. *)
Theorem SCache_get_after_set_and_flush :
  forall (T : Type) (arr : SCache.t T) (k from k' : Z) (v : T),
    0 <= k -> k mod 10 = 0 -> 0 <= from -> from mod 10 = 0 ->
    SCache.get (SCache.set arr k v) k' = (if k' =? k then Some v else SCache.get arr k')
    /\ SCache.get (SCache.flush arr from) k' = (if k' <? from then SCache.get arr k' else None)
    /\ SCache.get (@SCache.empty T) k' = None.
Proof.
  intros T arr k from k' v Hk Hkm Hfrom Hfm. split; [|split].
  - unfold SCache.get, SCache.set, DEFAULT_BLOCK_SIZE. rewrite Hkm. simpl (0 =? 0).
    cbv iota.
    destruct (Z.eqb_spec k' k) as [->|Hne].
    + rewrite Hkm. simpl (0 =? 0). cbv iota.
      rewrite sparse_get_set by (Z.div_mod_to_equations; lia). rewrite Z.eqb_refl. reflexivity.
    + destruct (Z.eqb_spec (k' mod 10) 0) as [Hm|Hm]; [|reflexivity].
      rewrite sparse_get_set by (Z.div_mod_to_equations; lia).
      destruct (Z.eqb_spec (k' / 10) (k / 10)) as [E|E]; [|reflexivity].
      exfalso. Z.div_mod_to_equations. lia.
  - unfold SCache.get, SCache.flush, DEFAULT_BLOCK_SIZE.
    destruct (Z.eqb_spec (k' mod 10) 0) as [Hm|Hm]; [|destruct (k' <? from); reflexivity].
    rewrite sparse_get_aslice by (apply Z.quot_pos; lia).
    rewrite Z.quot_div_nonneg by lia.
    destruct (Z.ltb_spec (k' / 10) (from / 10)) as [H1|H1];
      destruct (Z.ltb_spec k' from) as [H2|H2]; try reflexivity;
      exfalso; Z.div_mod_to_equations; lia.
  - unfold SCache.get, SCache.empty. destruct (k' mod DEFAULT_BLOCK_SIZE =? 0); [|reflexivity].
    apply sparse_get_nil.
Qed.

(** X15.  [flush] with a negative multiple of the block size truncates from
    the end: [arr.slice(0, from / 10)] keeps all but the last [- from / 10]
    slots, whatever offsets they stand for. *)
Theorem SCache_flush_negative :
  forall (T : Type) (arr : SCache.t T) (from k : Z),
    from < 0 -> from mod 10 = 0 ->
    SCache.get (SCache.flush arr from) k
    = if k <? 10 * Js.alen arr + from then SCache.get arr k else None.
Proof.
  intros T arr from k Hfrom Hfm.
  unfold SCache.get, SCache.flush, DEFAULT_BLOCK_SIZE.
  destruct (Z.eqb_spec (k mod 10) 0) as [Hm|Hm];
    [|destruct (k <? 10 * Js.alen arr + from); reflexivity].
  rewrite sparse_get_aslice_rel.
  assert (Hq : from ÷ 10 = from / 10).
  { rewrite <- (Z.opp_involutive from) at 1. rewrite Z.quot_opp_l by lia.
    rewrite Z.quot_div_nonneg by lia. Z.div_mod_to_equations. lia. }
  rewrite Hq. unfold Js.rel_index.
  destruct (Z.ltb_spec (from / 10) 0) as [_|H]; [|exfalso; Z.div_mod_to_equations; lia].
  destruct (Z.ltb_spec k 0) as [Hk|Hk].
  - rewrite sparse_get_negative by (Z.div_mod_to_equations; lia).
    destruct (k / 10 <? _); destruct (k <? _); reflexivity.
  - destruct (Z.ltb_spec (k / 10) (Z.max (Js.alen arr + from / 10) 0)) as [H1|H1];
      destruct (Z.ltb_spec k (10 * Js.alen arr + from)) as [H2|H2]; try reflexivity;
      exfalso; Z.div_mod_to_equations; lia.
Qed.

(** X16.  [VCache] is a map on the line numbers. *)
Theorem VCache_get_after_set_and_flush :
  forall (T : Type) (arr : VCache.t T) (k from k' : Z) (v : T),
    0 <= k -> 0 <= from ->
    VCache.get (VCache.set arr k v) k' = (if k' =? k then Some v else VCache.get arr k')
    /\ VCache.get (VCache.flush arr from) k' = (if k' <? from then VCache.get arr k' else None)
    /\ VCache.get (@VCache.empty T) k' = None.
Proof.
  intros T arr k from k' v Hk Hfrom. split; [|split].
  - apply VCache_get_set, Hk.
  - apply VCache_get_flush, Hfrom.
  - apply sparse_get_nil.
Qed.

(** ** Rounding to a block *)

(** X17.  [roundToLowerBlockSize] rounds toward minus infinity: the result is
    the greatest multiple of the block size that is not above the index, for a
    negative index as well. *)
Theorem roundToLowerBlockSize_is_floor :
  forall index,
    roundToLowerBlockSize index mod DEFAULT_BLOCK_SIZE = 0
    /\ roundToLowerBlockSize index <= index < roundToLowerBlockSize index + DEFAULT_BLOCK_SIZE
    /\ (index < 0 -> roundToLowerBlockSize index <= - DEFAULT_BLOCK_SIZE).
Proof.
  intros index. unfold roundToLowerBlockSize, DEFAULT_BLOCK_SIZE.
  split; [apply Z.mod_mul; lia | split; [|intros Hneg]]; Z.div_mod_to_equations; lia.
Qed.

(** ** The search over the block cache *)

Lemma findHighestCachedIndexToPos_lower fuel cache :
  forall start end_ k p,
    findHighestCachedIndexToPos fuel cache start end_ = Some (Some (k, p)) ->
    DEFAULT_BLOCK_SIZE <= k.
Proof.
  induction fuel as [|fuel IH]; intros start end_ k p H; [discriminate|].
  cbn [findHighestCachedIndexToPos] in H.
  set (m0 := (end_ - start) / 2 + start) in *.
  set (middleIdx := if negb (m0 mod DEFAULT_BLOCK_SIZE =? 0)
                    then roundToLowerBlockSize m0 else m0) in *.
  destruct (Z.ltb_spec middleIdx DEFAULT_BLOCK_SIZE) as [|Hge]; [discriminate|].
  destruct (SCache.get cache middleIdx) as [r|] eqn:Hget.
  - destruct (negb (start =? middleIdx) && negb (end_ =? middleIdx)).
    + eapply IH, H.
    + inversion H; subst. exact Hge.
  - destruct (negb (start =? middleIdx)); [|discriminate].
    eapply IH, H.
Qed.

(** X18.  [findHighestCachedIndexToPos(DEFAULT_BLOCK_SIZE, end)] comes to an
    end within as many calls as there are blocks up to [end], and what it
    returns is an entry of the cache, at a block boundary from the first one
    up to [end]; below the first boundary it returns nothing. *)
Theorem findHighestCachedIndexToPos_returns_an_entry :
  forall cache end_ fuel,
    end_ mod 10 = 0 -> (Z.to_nat (end_ / 10) < fuel)%nat ->
    exists r,
      findHighestCachedIndexToPos fuel cache DEFAULT_BLOCK_SIZE end_ = Some r
      /\ (forall k p, r = Some (k, p) ->
                      SCache.get cache k = Some p /\ DEFAULT_BLOCK_SIZE <= k <= end_)
      /\ (end_ < DEFAULT_BLOCK_SIZE -> r = None).
Proof.
  intros cache end_ fuel Hmod Hfuel.
  destruct (Z.lt_ge_cases end_ DEFAULT_BLOCK_SIZE) as [Hsmall|Hbig].
  - destruct fuel as [|fuel]; [lia|].
    exists None. split; [apply findHighestCachedIndexToPos_below, Hsmall|].
    split; [discriminate | reflexivity].
  - unfold DEFAULT_BLOCK_SIZE in Hbig.
    destruct (findHighestCachedIndexToPos_ends cache (Z.to_nat (end_ / 10))
                DEFAULT_BLOCK_SIZE end_ fuel) as (r & Hr & Hle);
      try assumption; try reflexivity; unfold DEFAULT_BLOCK_SIZE; try lia.
    + rewrite Z2Nat.id by (Z.div_mod_to_equations; lia). Z.div_mod_to_equations. lia.
    + exists r. split; [exact Hr|]. split; [|lia].
      intros k p ->. split; [eapply findHighestCachedIndexToPos_sound, Hr|].
      split; [eapply findHighestCachedIndexToPos_lower, Hr | apply (Hle k p eq_refl)].
Qed.

(** ** The outcome of [checkTextPosition] *)

(** Take a hypothesis on an outcome or on a line apart. *)
Ltac outcome_case :=
  repeat match goal with
         | H : exists _, _ |- _ => destruct H
         | H : _ /\ _ |- _ => destruct H
         | H : _ \/ _ |- _ => destruct H
         | H : Throw _ _ = Ok _ _ |- _ => discriminate H
         | H : Throw ?e _ = Throw ?e' _ |- _ =>
             tryif constr_eq e e' then clear H else discriminate H
         | H : Ok _ _ = Throw _ _ |- _ => discriminate H
         | H1 : ?a = Some _, H2 : ?a = None |- _ => rewrite H1 in H2; discriminate H2
         | H1 : ?a = Some _, H2 : ?a = Some _ |- _ =>
             rewrite H1 in H2; inversion H2; subst; clear H2
         end.

(** Close a goal on an outcome or on a line from what is known. *)
Ltac outcome_close st :=
  unfold Js.alen in *;
  solve [ reflexivity | lia | exists st; reflexivity
        | left; lia | right; lia | left; assumption | right; assumption
        | eexists; split; [eassumption | lia]
        | right; eexists; split; [eassumption | lia] ].

(** X19.  [checkTextPosition] accepts exactly the positions on a line of the
    store with a column from [0] to the length of the line. It raises
    [InvalidPosition] for a negative column on such a line and for nothing
    else, [PositionOutOfRange] for a line beyond [lines.length] and for a
    column beyond the line, and the runtime's [TypeError] for a negative line
    and for the line [lines.length]. *)
Theorem checkTextPosition_outcome :
  forall pos st,
    (checkTextPosition pos st = Ok tt st
     <-> exists l, Js.at_ (lines st) (line pos) = Some l /\ 0 <= col pos <= Js.len l)
    /\ (raises (checkTextPosition pos st) InvalidPosition
        <-> exists l, Js.at_ (lines st) (line pos) = Some l /\ col pos < 0)
    /\ (raises (checkTextPosition pos st) PositionOutOfRange
        <-> Js.alen (lines st) < line pos
            \/ exists l, Js.at_ (lines st) (line pos) = Some l /\ Js.len l < col pos)
    /\ (raises (checkTextPosition pos st) TypeError
        <-> line pos < 0 \/ line pos = Js.alen (lines st)).
Proof.
  intros pos st.
  assert (Hcases :
    (Js.alen (lines st) < line pos /\ checkTextPosition pos st = Throw PositionOutOfRange st
     /\ Js.at_ (lines st) (line pos) = None)
    \/ ((line pos < 0 \/ line pos = Js.alen (lines st))
        /\ checkTextPosition pos st = Throw TypeError st
        /\ Js.at_ (lines st) (line pos) = None)
    \/ (exists l, Js.at_ (lines st) (line pos) = Some l
                  /\ 0 <= line pos < Js.alen (lines st)
                  /\ checkTextPosition pos st
                     = if col pos >? Js.len l then Throw PositionOutOfRange st
                       else if col pos <? 0 then Throw InvalidPosition st
                       else Ok tt st)).
  { unfold checkTextPosition, bind, this.
    destruct (Z.gtb_spec (line pos) (Js.alen (lines st))) as [Hgt|Hle].
    - left. split; [lia | split; [reflexivity|]].
      unfold Js.at_. destruct (line pos <? 0); [reflexivity|].
      apply nth_error_None. unfold Js.alen in Hgt. lia.
    - right. destruct (Js.at_ (lines st) (line pos)) as [l|] eqn:Hl.
      + right. exists l. pose proof (at_Some_bounds _ _ _ Hl) as Hb.
        split; [reflexivity | split; [exact Hb|]]. cbn [defined ret].
        destruct (col pos >? Js.len l); [reflexivity|].
        destruct (Z.ltb_spec (line pos) 0) as [H|_]; [lia|]. rewrite orb_false_r.
        destruct (col pos <? 0); reflexivity.
      + left. split; [|split; reflexivity].
        unfold Js.at_ in Hl. destruct (Z.ltb_spec (line pos) 0) as [H|H]; [left; exact H|].
        apply nth_error_None in Hl. unfold Js.alen in *. right. lia. }
  unfold raises.
  destruct Hcases as [(Hline & Hrun & Hnone) | [(Hline & Hrun & Hnone) | (l & Hl & Hline & Hrun)]];
    rewrite Hrun; clear Hrun.
  - (split; [|split; [|split]]); split; intros H; outcome_case; outcome_close st.
  - (split; [|split; [|split]]); split; intros H; outcome_case; outcome_close st.
  - pose proof (len_nonneg l) as Hlen.
    destruct (Z.gtb_spec (col pos) (Js.len l)) as [Hgt|Hle];
      [|destruct (Z.ltb_spec (col pos) 0) as [Hneg|Hnn]];
      (split; [|split; [|split]]); split; intros H; outcome_case; outcome_close st.
Qed.

(** ** The outcome of [getContents] with a range *)

Lemma at_None_iff {T} (a : list T) k : Js.at_ a k = None <-> k < 0 \/ Js.alen a <= k.
Proof.
  unfold Js.at_, Js.alen. destruct (Z.ltb_spec k 0) as [Hk|Hk].
  - split; [left; exact Hk | reflexivity].
  - rewrite nth_error_None. lia.
Qed.

Lemma clampTextPosition_outcome pos st :
  (2 <= Js.alen (lines st) /\ line pos < Js.alen (lines st) ->
   exists p l, clampTextPosition pos st = Ok p st
               /\ Js.at_ (lines st) (line p) = Some l)
  /\ (Js.alen (lines st) < 2 \/ Js.alen (lines st) <= line pos ->
      clampTextPosition pos st = Throw TypeError st).
Proof.
  unfold clampTextPosition, bind, this. set (n := Js.alen (lines st)).
  assert (Hn : 0 <= n) by (subst n; unfold Js.alen; lia).
  split.
  - intros [H2 Hline].
    assert (Hc : 1 <= clamp (line pos) 1 n < n).
    { unfold clamp. destruct (Z.ltb_spec 1 n) as [_|H]; [|lia].
      destruct (Z.ltb_spec (line pos) 1); [lia|].
      destruct (Z.gtb_spec (line pos) n); lia. }
    destruct (at_in_bounds (lines st) (clamp (line pos) 1 n)) as [l Hl]; [fold n; lia|].
    rewrite Hl. cbn [defined ret]. eexists _, l. split; [reflexivity | exact Hl].
  - intros Hout.
    assert (Hc : n <= clamp (line pos) 1 n).
    { unfold clamp. destruct (Z.ltb_spec 1 n) as [H1|H1].
      - destruct (Z.ltb_spec (line pos) 1); [lia|].
        destruct (Z.gtb_spec (line pos) n); lia.
      - destruct (Z.ltb_spec (line pos) n); [lia|].
        destruct (Z.gtb_spec (line pos) 1); lia. }
    replace (Js.at_ (lines st) (clamp (line pos) 1 n)) with (@None string);
      [reflexivity|].
    symmetry. apply at_None_iff. right. exact Hc.
Qed.

(** X20.  [getContents(range)] returns a string when the store has two lines
    or more and neither endpoint names a line beyond the last one; in every
    other case it raises the runtime's [TypeError]. Either way the store is
    left as it was. *)
Theorem getContents_range_outcome :
  forall range st,
    (2 <= Js.alen (lines st)
     /\ line (start range) <= Js.alen (lines st)
     /\ line (end_ range) <= Js.alen (lines st) ->
     exists text, getContents (Some range) st = Ok text st)
    /\ (Js.alen (lines st) < 2
        \/ Js.alen (lines st) < line (start range)
        \/ Js.alen (lines st) < line (end_ range) ->
        getContents (Some range) st = Throw TypeError st).
Proof.
  intros range st.
  pose proof (clampTextPosition_outcome (convertPosToZeroBased (start range)) st) as [Hs1 Hs2].
  pose proof (clampTextPosition_outcome (convertPosToZeroBased (end_ range)) st) as [He1 He2].
  unfold convertPosToZeroBased in *. cbn [line col] in *.
  unfold getContents, bind, this, convertPosToZeroBased.
  split.
  - intros (H2 & Hstart & Hend).
    destruct Hs1 as (p & lp & Hp & Hlp); [lia|].
    destruct He1 as (q & lq & Hq & Hlq); [lia|].
    rewrite Hp, Hq, Hlp, Hlq. cbn [defined ret].
    eexists. reflexivity.
  - intros Hout.
    destruct (Z.lt_ge_cases (Js.alen (lines st)) 2) as [Hsmall|Hbig].
    + rewrite Hs2 by (left; exact Hsmall). reflexivity.
    + destruct (Z.lt_ge_cases (Js.alen (lines st)) (line (start range))) as [Hlt|Hge].
      * rewrite Hs2 by (right; lia). reflexivity.
      * destruct Hs1 as (p & lp & Hp & Hlp); [lia|].
        rewrite Hp, He2 by (right; lia). reflexivity.
Qed.

(** ** The lines are the content split at its newlines *)

Lemma split_line x : has_nl x = false -> Js.split x = [x].
Proof.
  induction x as [|c x IH]; simpl; [reflexivity|].
  intros H. apply orb_false_iff in H. destruct H as [Hc Hx].
  rewrite Hc, (IH Hx). reflexivity.
Qed.

Lemma split_append_nl x s :
  has_nl x = false -> Js.split (x ++ String Js.nl s) = x :: Js.split s.
Proof.
  induction x as [|c x IH]; simpl.
  - intros _. reflexivity.
  - intros H. apply orb_false_iff in H. destruct H as [Hc Hx].
    rewrite Hc, (IH Hx). reflexivity.
Qed.

Lemma split_join ls :
  ls <> [] -> Forall (fun l => has_nl l = false) ls -> Js.split (Js.join ls) = ls.
Proof.
  induction ls as [|x ls IH]; intros Hne Hnl; [congruence|].
  inversion Hnl as [|? ? Hx Hls]; subst.
  destruct ls as [|y ls].
  - apply split_line, Hx.
  - change (Js.join (x :: y :: ls)) with (x ++ String Js.nl (Js.join (y :: ls)))%string.
    rewrite split_append_nl by exact Hx. rewrite IH; [reflexivity | discriminate | exact Hls].
Qed.

Lemma same_doc_lines_ok s s' : same_doc s s' -> lines_ok s -> lines_ok s'.
Proof. unfold lines_ok. intros (_ & -> & _) H. exact H. Qed.

Lemma spliced_lines_ok s strv L count updated sizev blocks lineStarts :
  lines_ok s ->
  lines_ok (mkStore strv (spliced (lines s) L count updated) sizev blocks lineStarts).
Proof.
  intros [_ Hnl]. split; cbn [lines]; [apply spliced_not_nil | apply spliced_no_nl, Hnl].
Qed.

Lemma exec_lines_ok fuel c st st' :
  lines_ok st -> exec fuel c st = Some st' -> lines_ok st'.
Proof.
  intros Hok Hexec.
  assert (Hkeep : forall A (m : M A), keeps_doc m ->
            wp m (fun _ s1 => lines_ok s1) (fun _ s1 => lines_ok s1) st).
  { intros A m Hm. wp_call Hm; eapply same_doc_lines_ok; eassumption. }
  assert (Hreplace : forall range text,
            wp (replace fuel range text) (fun _ s1 => lines_ok s1) (fun _ s1 => lines_ok s1) st).
  { intros range text. apply replace_wp; [intros _; exact Hok|].
    intros ls le from to _ _ _ _.
    wp_call flushCache_keeps_doc; [|intros _; eapply same_doc_lines_ok; eassumption].
    intros _. cbn zeta. apply spliced_lines_ok. eapply same_doc_lines_ok; eassumption. }
  destruct c; unfold exec in Hexec; (apply (wp_state_of _ lines_ok _ _) in Hexec; [exact Hexec|]).
  - apply insert_wp; [intros _; exact Hok | intros _; exact Hok |].
    intros l pos _ _ _.
    wp_call flushCache_keeps_doc; [|intros _; eapply same_doc_lines_ok; eassumption].
    intros _. apply spliced_lines_ok. eapply same_doc_lines_ok; eassumption.
  - apply Hreplace.
  - apply Hreplace.
  - apply Hkeep, getSize_keeps_doc.
  - apply Hkeep, getContents_keeps_doc.
  - apply Hkeep, indexToPosition_keeps_doc.
  - apply Hkeep, positionToIndex_keeps_doc.
Qed.

(** X21.  Whatever calls were made, with whatever arguments, the store has at
    least one line, no line holds a newline, and the lines are the content
    split at its newlines. *)
Theorem lines_are_the_split_content :
  forall st,
    reachable (fun _ _ _ => True) st ->
    lines st <> []
    /\ Forall (fun l => has_nl l = false) (lines st)
    /\ Js.split (Js.join (lines st)) = lines st.
Proof.
  intros st Hreach.
  assert (Hok : lines_ok st).
  { induction Hreach as [s | fuel c st st' _ IH _ Hexec].
    - split; [apply split_not_nil | apply split_no_nl].
    - eapply exec_lines_ok; eassumption. }
  destruct Hok as [Hne Hnl]. split; [exact Hne | split; [exact Hnl|]].
  apply split_join; assumption.
Qed.

(** ** Sound stores *)

Lemma exec_sound fuel c st st' :
  well_used fuel c st -> store_ok st /\ doc_ok st -> exec fuel c st = Some st' ->
  store_ok st' /\ doc_ok st'.
Proof.
  intros (Hord & Hanch & _) [Hok Hdoc] Hexec. split.
  - eapply exec_store_ok; eassumption.
  - eapply exec_doc_ok; eassumption.
Qed.

Lemma reachable_sound st : reachable well_used st -> store_ok st /\ doc_ok st.
Proof.
  intros Hreach. induction Hreach as [s | fuel c st st' _ IH Hused Hexec].
  - split; [apply constructor_ok | apply constructor_doc_ok].
  - eapply exec_sound; eassumption.
Qed.

(** X22.  A store reached by calls that return, whose ranges are in order and
    whose lookups in the line cache find an entry, is sound: every block entry
    names the line and column of its offset, every line entry holds one more
    than the offset of its line, and the size counter is the length of the
    content. *)
Theorem well_used_store_is_sound :
  forall st,
    reachable well_used st ->
    (forall k p, SCache.get (indexToPosCache st) k = Some p ->
                 exists l, Js.at_ (lines st) (line p) = Some l
                           /\ 0 <= col p <= Js.len l + 1
                           /\ k = lineStart (lines st) (line p) + col p)
    /\ (forall L v, VCache.get (lineToIndexCache st) L = Some v ->
                    L < Js.alen (lines st) /\ v = lineStart (lines st) L + 1)
    /\ size st = Js.len (Js.join (lines st)).
Proof.
  intros st Hreach. destruct (reachable_sound st Hreach) as [(_ & Hb & Hl) [_ Hsz]].
  split; [exact Hb | split; [exact Hl | exact Hsz]].
Qed.

(** ** [indexToPosition] on a sound store *)

(** X23.  On a sound store [indexToPosition] returns for every index from [0]
    to the size, given a bound that covers the lines and the blocks of the
    document; the position it returns is on a line of the store, within the
    line or just after it, at the offset [index]. *)
Theorem indexToPosition_on_sound_store :
  forall fuel index s,
    store_ok s -> doc_ok s -> 0 <= index <= size s ->
    (conversion_bound s <= fuel)%nat ->
    exists L c l,
      returns (indexToPosition fuel index s) {| line := L + 1; col := c + 1 |}
      /\ Js.at_ (lines s) L = Some l
      /\ 0 <= c <= Js.len l
      /\ lineStart (lines s) L + c = index.
Proof.
  intros fuel index s Hok Hdoc Hidx Hfuel.
  destruct (indexToPosition_sound fuel index s Hok Hdoc Hidx Hfuel)
    as (L & l & s' & Hrun & Hl & Hbounds & _).
  exists L, (index - lineStart (lines s) L), l.
  split; [exists s'; exact Hrun | split; [exact Hl | split; lia]].
Qed.

(** ** A new store *)

(** X24.  A new store holds the string it was built from: [getContents()]
    returns it, [getSize()] returns its length, and both caches are empty. *)
Theorem new_store_holds_the_text :
  forall text,
    getContents None (constructor text) = Ok text (constructor text)
    /\ getSize (constructor text) = Ok (Js.len text) (constructor text)
    /\ (forall k, SCache.get (indexToPosCache (constructor text)) k = None)
    /\ (forall L, VCache.get (lineToIndexCache (constructor text)) L = None).
Proof.
  intros text. unfold getContents, getSize, bind, this, ret, constructor.
  cbn [lines size indexToPosCache lineToIndexCache]. rewrite join_split.
  split; [reflexivity | split; [reflexivity | split]].
  - intros k. unfold SCache.get, SCache.empty.
    destruct (k mod DEFAULT_BLOCK_SIZE =? 0); [apply sparse_get_nil | reflexivity].
  - intros L. apply sparse_get_nil.
Qed.

(** ** A range that ends before the line it starts on *)


(** ** Taking out what was put in *)

Lemma content_replaced_back old i text :
  0 <= i <= Js.len old ->
  content_replaced (content_replaced old i i text) i (i + Js.len text) EmptyString = old.
Proof.
  intros Hi. unfold content_replaced. cbn [append].
  assert (Hlen : String.length (Js.take (Z.to_nat i) old) = Z.to_nat i).
  { rewrite length_take. unfold Js.len in Hi. lia. }
  rewrite take_app_le by lia. rewrite (take_all (Z.to_nat i)) by lia.
  replace (Z.to_nat (i + Js.len text))
    with (String.length (Js.take (Z.to_nat i) old) + (String.length text + 0))%nat
    by (unfold Js.len; lia).
  rewrite !drop_app_exact. cbn [Js.drop]. apply take_drop.
Qed.

(** X26.  On a sound store, putting [text] in at [index] and then removing the
    characters from [index] up to [index + text.length], all positions taken
    from [indexToPosition], gives the content back; a bound that covers the
    lines and blocks of the document with [text] in it is enough. *)
Theorem insert_then_remove_restores :
  forall text index s,
    store_ok s -> doc_ok s -> 0 <= index <= size s ->
    exists fuel0, forall fuel, (fuel0 <= fuel)%nat ->
      returns ((p <- indexToPosition fuel index ;;
                insert fuel text p ;;;
                q <- indexToPosition fuel (index + Js.len text) ;;
                p' <- indexToPosition fuel index ;;
                remove fuel {| start := p'; end_ := q |} ;;;
                getContents None) s)
              (Js.join (lines s)).
Proof.
  intros text index s Hok Hdoc Hidx.
  set (ls2 := Js.split (content_replaced (Js.join (lines s)) index index text)).
  exists (Nat.max (conversion_bound s) (List.length ls2 + blocks_bound ls2)).
  intros fuel Hfuel.
  destruct (insert_at fuel text index s Hok Hdoc Hidx ltac:(lia))
    as (s2 & Hins & Hjoin & Hsize2 & Hok2 & Hdoc2).
  assert (Hlines2 : lines s2 = ls2).
  { subst ls2. rewrite <- Hjoin. symmetry. apply split_join; [apply Hdoc2 | apply Hok2]. }
  destruct (replace_between fuel EmptyString index (index + Js.len text) s2 Hok2 Hdoc2)
    as (s3 & Hrep & Hjoin3 & _).
  { pose proof (len_nonneg text). lia. }
  { lia. }
  { unfold conversion_bound. rewrite Hlines2. lia. }
  unfold bind in Hins, Hrep |- *.
  destruct (indexToPosition fuel index s) as [p s1| |]; try discriminate.
  rewrite Hins.
  destruct (indexToPosition fuel (index + Js.len text) s2) as [q s2'| |]; try discriminate.
  destruct (indexToPosition fuel index s2') as [p' s2''| |]; try discriminate.
  unfold remove. rewrite Hrep.
  exists s3. unfold getContents, bind, this, ret. f_equal.
  rewrite Hjoin3, Hjoin. apply content_replaced_back.
  destruct Hdoc as [_ Hsz]. unfold size_consistent in Hsz. lia.
Qed.

(** ** The conversions on concrete stores *)

Lemma stale_calls_reach_stale_store :
  forall fuel, stale_calls (4 + fuel) (constructor thirty) = Ok tt stale_store.
Proof. intros fuel. vm_compute. reflexivity. Qed.

Lemma indexToPosition_stale_store :
  forall fuel, indexToPosition fuel 10 stale_store = OutOfFuel.
Proof.
  intros fuel. unfold indexToPosition, bind, this.
  change (10 >? size stale_store) with false. cbv iota.
  change (SCache.get (indexToPosCache stale_store) (roundToLowerBlockSize 10))
    with (Some {| line := 0; col := 10 |}).
  cbv iota beta. unfold ret at 1. cbv iota beta.
  change (roundToLowerBlockSize 10) with 10. simpl col. simpl line.
  destruct fuel as [|fuel]; [reflexivity|].
  simpl indexToPosition_lines. unfold bind, this. simpl.
  rewrite indexToPosition_blocks_overshoot; [reflexivity | vm_compute; reflexivity].
Qed.

(** C1 (defect of the code).  On the fresh store of ["a"] the position
    [{line: 1, col: 1}] is in bounds, [positionToIndex] returns [-1] for it
    (the walk starts one below the synthetic anchor [{index: 0, line: 0}]),
    and [indexToPosition] of that index returns [{line: 1, col: 0}], not the
    position the round trip started from. *)
Theorem position_round_trip_on_fresh_store :
  forall fuel,
    returns (positionToIndex (S fuel) {| line := 1; col := 1 |} (constructor "a")) (-1)
    /\ returns ((i <- positionToIndex (S fuel) {| line := 1; col := 1 |} ;;
                 indexToPosition (S fuel) i) (constructor "a"))
               {| line := 1; col := 0 |}.
Proof.
  intros fuel. split; eexists; vm_compute; reflexivity.
Qed.

(** C2 (defect of the code).  The result of [positionToIndex] shows whether
    the line cache is warm: on the fresh store of ["a"] the position
    [{line: 1, col: 1}] has index [-1], after [indexToPosition(0)] on the
    same content it has index [0]. *)
Theorem positionToIndex_cold_and_warm :
  forall fuel,
    returns (positionToIndex (S fuel) {| line := 1; col := 1 |} (constructor "a")) (-1)
    /\ returns ((indexToPosition (S fuel) 0 ;;;
                 positionToIndex (S fuel) {| line := 1; col := 1 |}) (constructor "a")) 0.
Proof.
  intros fuel. split; eexists; vm_compute; reflexivity.
Qed.

Lemma clamp_one_one : forall value, clamp value 1 1 = 1.
Proof.
  intros value. unfold clamp. simpl.
  destruct (Z.ltb_spec value 1); [reflexivity|].
  destruct (Z.gtb_spec value 1); [reflexivity | lia].
Qed.

(** C3 (defect of the code).  On a store of one line [getContents(range)]
    raises a [TypeError] for every range: [clampTextPosition] clamps the
    zero-based line into [[1, lines.length]], which is [1] here, and
    [this.lines[1]] is [undefined]. *)
Theorem getContents_range_single_line :
  forall s l n blocks lineStarts range,
    getContents (Some range) (mkStore s [l] n blocks lineStarts)
    = Throw TypeError (mkStore s [l] n blocks lineStarts).
Proof.
  intros. unfold getContents, clampTextPosition, bind, this. simpl lines.
  change (Js.alen [l]) with 1. rewrite clamp_one_one. reflexivity.
Qed.

(** C4 (defect of the code).  A zero-based line below [0] (a line number
    of [0] or less) makes [checkTextPosition] read
    [this.lines[pos.line].length] of [undefined]: the call raises a
    [TypeError], not [InvalidPosition]; so does the line just past the last
    one, where the specification has [PositionOutOfRange].  [positionToIndex]
    passes both on. *)
Theorem checkTextPosition_line_outside :
  forall (k : nat) c st fuel,
    checkTextPosition {| line := -1 - Z.of_nat k; col := c |} st = Throw TypeError st
    /\ checkTextPosition {| line := Js.alen (lines st); col := c |} st = Throw TypeError st
    /\ positionToIndex fuel {| line := - Z.of_nat k; col := c |} st = Throw TypeError st.
Proof.
  intros k c st fuel.
  assert (Hneg : forall c', checkTextPosition {| line := -1 - Z.of_nat k; col := c' |} st
                            = Throw TypeError st).
  { intros c'. unfold checkTextPosition, bind, this. cbn [line col].
    destruct (Z.gtb_spec (-1 - Z.of_nat k) (Js.alen (lines st))) as [E|E].
    - unfold Js.alen in E. lia.
    - unfold Js.at_. destruct (Z.ltb_spec (-1 - Z.of_nat k) 0); [reflexivity | lia]. }
  split; [apply Hneg | split].
  - unfold checkTextPosition, bind, this. cbn [line col].
    rewrite Z.gtb_ltb, Z.ltb_irrefl.
    unfold Js.at_, Js.alen.
    destruct (Z.ltb_spec (Z.of_nat (List.length (lines st))) 0); [reflexivity|].
    rewrite Nat2Z.id.
    destruct (nth_error (lines st) (List.length (lines st))) eqn:E; [|reflexivity].
    assert (E' : nth_error (lines st) (List.length (lines st)) <> None) by congruence.
    apply nth_error_Some in E'. lia.
  - unfold positionToIndex, convertPosToZeroBased, bind. cbn [line col].
    replace (- Z.of_nat k - 1) with (-1 - Z.of_nat k) by lia.
    rewrite Hneg. reflexivity.
Qed.

(** C5 (defect of the code).  [stale_store] is reached by three calls on a
    fresh store; its size is [32], and for the index [10] the round trip
    through [indexToPosition] and [positionToIndex] yields no index at all:
    it does not finish within any bound. *)
Theorem index_round_trip_on_stale_store :
  forall fuel,
    stale_calls (4 + fuel) (constructor thirty) = Ok tt stale_store
    /\ 0 <= 10 <= size stale_store
    /\ forall fuel', (p <- indexToPosition fuel' 10 ;; positionToIndex fuel' p) stale_store
                     = OutOfFuel.
Proof.
  intros fuel. split; [apply stale_calls_reach_stale_store | split].
  - simpl. lia.
  - intros fuel'. unfold bind. rewrite indexToPosition_stale_store. reflexivity.
Qed.

(** C6 (defect of the code).  [insert("\n", {line: 1, col: 1})] on
    [edited_store] is an edit at offset [0], yet the block entry of offset
    [10] survives it: [zeroBasedPosToIndex] returns [-1], the flush is
    [arr.slice(0, -1)] and drops the last entry only.  The entry that is
    left still names line [0], which is empty after the edit. *)
Theorem insert_leaves_stale_block :
  forall fuel,
    zeroBasedPosToIndex (S fuel) {| line := 0; col := 0 |} edited_store
    = Ok (-1) (with_lineToIndexCache edited_store [Some 0])
    /\ insert (S fuel) newline {| line := 1; col := 1 |} edited_store = Ok tt stale_store
    /\ SCache.get (indexToPosCache stale_store) 10 = Some {| line := 0; col := 10 |}
    /\ Js.at_ (lines stale_store) 0 = Some EmptyString.
Proof.
  intros fuel. repeat split; vm_compute; reflexivity.
Qed.

(** C8 (defect of the code).  On [stale_store], reached by three calls on
    a fresh store, [indexToPosition(10)] does not terminate: the anchor is
    the stale block entry of offset [10], the first line ends before it, and
    the inner loop counts up from [10] to meet [0]. *)
Theorem indexToPosition_does_not_terminate :
  forall fuel,
    stale_calls (4 + fuel) (constructor thirty) = Ok tt stale_store
    /\ forall fuel', indexToPosition fuel' 10 stale_store = OutOfFuel.
Proof.
  intros fuel. split.
  - apply stale_calls_reach_stale_store.
  - apply indexToPosition_stale_store.
Qed.

(** ** The scenarios of the specification, and the bound of the search *)

(** Scenario A on a fresh store: the size is [11] and [indexToPosition(6)]
    is [{line: 2, col: 1}], but [positionToIndex({line: 2, col: 1})] is [5];
    it is [6] once [indexToPosition(6)] has filled the line cache.  The cold
    lookup halves the interval from [0] to [1] until the midpoint underflows
    to [0]: 1075 calls of [findHighestCachedLineToIndex]. *)
Example scenario_A :
  returns (getSize (constructor hello_world)) 11
  /\ indexToPosition 2 6 (constructor hello_world) = Ok {| line := 2; col := 1 |} warm_store
  /\ positionToIndex 1074 {| line := 2; col := 1 |} (constructor hello_world) = OutOfFuel
  /\ returns (positionToIndex 1075 {| line := 2; col := 1 |} (constructor hello_world)) 5
  /\ returns (positionToIndex 1 {| line := 2; col := 1 |} warm_store) 6.
Proof.
  repeat split; try (eexists; vm_compute; reflexivity); vm_compute; reflexivity.
Qed.

(** Scenarios B, C and D. *)
Example scenarios_B_C_D :
  returns ((insert 1 "X" {| line := 1; col := 6 |} ;;; getContents None) warm_store)
          ("helloX" ++ newline ++ "world")%string
  /\ returns ((insert 1 "X" {| line := 1; col := 6 |} ;;; getSize) warm_store) 12
  /\ returns ((replace 1 whole_range "HI" ;;; getContents None) warm_store) "HI"
  /\ returns ((remove 1 {| start := {| line := 1; col := 6 |};
                           end_ := {| line := 2; col := 1 |} |} ;;;
               getContents None) warm_store) "helloworld".
Proof.
  repeat split; eexists; vm_compute; reflexivity.
Qed.

(** ** Counterexamples to the specification as stated *)

(** C7 as stated fails: [replace(reversed_range, "x")] on the fresh store of
    [a_b] returns, the lines are then ["a"], ["xa"] and ["b"], six characters
    with their separators, and the size counter is [5]. *)
Lemma size_differs_after_reversed_replace :
  replace 1075 reversed_range "x" (constructor a_b) = Ok tt reversed_store
  /\ getSize reversed_store = Ok 5 reversed_store
  /\ getContents None reversed_store
     = Ok ("a" ++ newline ++ "xa" ++ newline ++ "b")%string reversed_store
  /\ ~ size_consistent reversed_store.
Proof.
  repeat split; try (vm_compute; reflexivity).
  unfold size_consistent. vm_compute. discriminate.
Qed.

(** C9 as stated fails: after [indexToPosition(0)] on the fresh store of
    ["a"] the line cache maps line [0] to [1], and line [0] begins at
    offset [0]. *)
Lemma line_cache_entry_is_not_the_offset :
  indexToPosition 1 0 (constructor "a") = Ok {| line := 1; col := 1 |} one_line_warm_store
  /\ VCache.get (lineToIndexCache one_line_warm_store) 0 = Some 1
  /\ lineStart (lines one_line_warm_store) 0 = 0
  /\ ~ lineCache_holds_offsets one_line_warm_store.
Proof.
  repeat split; try (vm_compute; reflexivity).
  intros H. specialize (H 0 1 eq_refl). vm_compute in H. discriminate.
Qed.

(** C10 as stated fails: two replacements of a range that ends before the
    line it starts on, then the removal of all four lines, leave a store
    with the size counter [-2], and [indexToPosition(-1)] on it raises
    [IndexOutOfRange], whatever the bound. *)
Lemma indexToPosition_raises_for_negative_index :
  shrinking_calls 1075 (constructor a_b) = Ok tt shrunk_store
  /\ getSize shrunk_store = Ok (-2) shrunk_store
  /\ -1 < 0
  /\ (forall fuel,
        indexToPosition fuel (-1) shrunk_store = Throw IndexOutOfRange shrunk_store).
Proof.
  split; [vm_compute; reflexivity | split; [reflexivity | split; [lia|]]].
  intros fuel. reflexivity.
Qed.

(** ** The theorems at concrete stores *)

Lemma size_consistent_ordered_witness :
  reachable successful_and_ordered replaced_store
  /\ exists n text,
       getSize replaced_store = Ok n replaced_store
       /\ getContents None replaced_store = Ok text replaced_store
       /\ n = Js.len text.
Proof.
  assert (H : reachable successful_and_ordered replaced_store).
  { apply (reach_call _ 1 (Replace whole_range "HI") (constructor hello_world)).
    - apply reach_new.
    - split; [simpl; lia | vm_compute; exact I].
    - vm_compute. reflexivity. }
  split; [exact H | apply (size_consistent_ordered replaced_store H)].
Defined.

Lemma lineToIndexCache_holds_offsets_plus_one_witness :
  reachable lookup_anchored warm_edited_store
  /\ lineCache_holds_offsets_plus_one warm_edited_store.
Proof.
  assert (Hwarm : reachable lookup_anchored warm_store).
  { apply (reach_call _ 2 (IndexToPosition 6) (constructor hello_world)).
    - apply reach_new.
    - exact I.
    - vm_compute. reflexivity. }
  assert (Hagain : reachable lookup_anchored warm_store).
  { apply (reach_call _ 1 (PositionToIndex {| line := 2; col := 1 |}) warm_store).
    - exact Hwarm.
    - change (anchored 1 (lineToIndexCache warm_store) 1).
      exists 1, 7. split; [vm_compute; reflexivity | lia].
    - vm_compute. reflexivity. }
  assert (H : reachable lookup_anchored warm_edited_store).
  { apply (reach_call _ 1 (Insert "X" {| line := 2; col := 3 |}) warm_store).
    - exact Hagain.
    - change (anchored 1 (lineToIndexCache warm_store) 1).
      exists 1, 7. split; [vm_compute; reflexivity | lia].
    - vm_compute. reflexivity. }
  split; [exact H | apply (lineToIndexCache_holds_offsets_plus_one warm_edited_store H)].
Defined.

Lemma indexToPosition_negative_index_witness :
  lines (constructor "hello") <> []
  /\ -3 < 0
  /\ -3 <= size (constructor "hello")
  /\ (exists fuel0, forall fuel, (fuel0 <= fuel)%nat ->
        returns (indexToPosition fuel (-3) (constructor "hello"))
                {| line := 1; col := -3 + 1 |})
  /\ -3 + 1 < 1
  /\ (forall fuel j,
        raises (indexToPosition fuel j (constructor "hello")) IndexOutOfRange
        <-> size (constructor "hello") < j).
Proof.
  assert (Hne : lines (constructor "hello") <> []) by (simpl; discriminate).
  assert (Hneg : -3 < 0) by lia.
  assert (Hsize : -3 <= size (constructor "hello")) by (vm_compute; discriminate).
  split; [exact Hne | split; [exact Hneg | split; [exact Hsize |]]].
  exact (indexToPosition_negative_index (constructor "hello") (-3) Hne Hneg Hsize).
Defined.

(** ** The further theorems at concrete stores *)

Lemma warm_store_ok : store_ok warm_store /\ doc_ok warm_store.
Proof.
  split.
  - pose proof (indexToPosition_ok 2 6 (constructor hello_world) (constructor_ok _)) as H.
    unfold wp in H.
    replace (indexToPosition 2 6 (constructor hello_world))
      with (Ok {| line := 2; col := 1 |} warm_store) in H by (vm_compute; reflexivity).
    exact H.
  - split; [discriminate | vm_compute; reflexivity].
Qed.

Lemma warm_store_anchored : anchored 2 (lineToIndexCache warm_store) 1.
Proof. exists 1, 7. split; [vm_compute; reflexivity | lia]. Qed.





Lemma rejected_position_changes_nothing_witness :
  insert 1 "x" {| line := 0; col := 1 |} (constructor "a") = Throw TypeError (constructor "a").
Proof.
  apply (proj1 (rejected_position_changes_nothing 1 (constructor "a") TypeError)).
  - vm_compute. discriminate.
  - vm_compute. reflexivity.
Defined.

Lemma lines_are_the_split_content_witness :
  reachable (fun _ _ _ => True) reversed_store
  /\ lines reversed_store <> []
  /\ Forall (fun l => has_nl l = false) (lines reversed_store)
  /\ Js.split (Js.join (lines reversed_store)) = lines reversed_store.
Proof.
  assert (H : reachable (fun _ _ _ => True) reversed_store).
  { apply (reach_call _ 1075 (Replace reversed_range "x") (constructor a_b)).
    - apply reach_new.
    - exact I.
    - vm_compute. reflexivity. }
  split; [exact H | apply (lines_are_the_split_content reversed_store H)].
Defined.

Lemma well_used_store_is_sound_witness :
  reachable well_used warm_edited_store
  /\ (forall k p, SCache.get (indexToPosCache warm_edited_store) k = Some p ->
                  exists l, Js.at_ (lines warm_edited_store) (line p) = Some l
                            /\ 0 <= col p <= Js.len l + 1
                            /\ k = lineStart (lines warm_edited_store) (line p) + col p)
  /\ (forall L v, VCache.get (lineToIndexCache warm_edited_store) L = Some v ->
                  L < Js.alen (lines warm_edited_store)
                  /\ v = lineStart (lines warm_edited_store) L + 1)
  /\ size warm_edited_store = Js.len (Js.join (lines warm_edited_store)).
Proof.
  assert (Hwarm : reachable well_used warm_store).
  { apply (reach_call _ 2 (IndexToPosition 6) (constructor hello_world)).
    - apply reach_new.
    - split; [exact I | split; [exact I | vm_compute; exact I]].
    - vm_compute. reflexivity. }
  assert (H : reachable well_used warm_edited_store).
  { apply (reach_call _ 1 (Insert "X" {| line := 2; col := 3 |}) warm_store).
    - exact Hwarm.
    - split; [exact I | split; [|vm_compute; exact I]].
      change (anchored 1 (lineToIndexCache warm_store) 1).
      exists 1, 7. split; [vm_compute; reflexivity | lia].
    - vm_compute. reflexivity. }
  split; [exact H | apply (well_used_store_is_sound warm_edited_store H)].
Defined.

Lemma hello_world_bound : (conversion_bound (constructor hello_world) <= 4)%nat.
Proof. vm_compute. lia. Qed.

Lemma hello_world_index : 0 <= 6 <= size (constructor hello_world).
Proof. split; vm_compute; discriminate. Qed.

Lemma indexToPosition_on_sound_store_witness :
  exists L c l,
    returns (indexToPosition 4 6 (constructor hello_world)) {| line := L + 1; col := c + 1 |}
    /\ Js.at_ (lines (constructor hello_world)) L = Some l
    /\ 0 <= c <= Js.len l
    /\ lineStart (lines (constructor hello_world)) L + c = 6.
Proof.
  exact (indexToPosition_on_sound_store 4 6 (constructor hello_world)
           (constructor_ok _) (constructor_doc_ok _) hello_world_index hello_world_bound).
Defined.

Lemma index_round_trip_on_sound_store_witness :
  returns ((p <- indexToPosition 4 6 ;; positionToIndex 4 p) (constructor hello_world)) 6.
Proof.
  exact (index_round_trip_on_sound_store (constructor hello_world) 6 4
           (constructor_ok _) (constructor_doc_ok _) hello_world_index hello_world_bound).
Defined.

Lemma indexToPosition_result_on_sound_stores_witness :
  exists p, returns (indexToPosition 4 6 (constructor hello_world)) p
            /\ returns (indexToPosition 4 6 warm_store) p.
Proof.
  apply (indexToPosition_result_on_sound_stores (constructor hello_world) warm_store 6 4 4).
  - apply constructor_ok.
  - apply constructor_doc_ok.
  - apply warm_store_ok.
  - apply warm_store_ok.
  - reflexivity.
  - exact hello_world_index.
  - exact hello_world_bound.
  - vm_compute. lia.
Defined.

Lemma position_round_trip_on_sound_store_witness :
  returns ((i <- positionToIndex 5 {| line := 1 + 1; col := 0 + 1 |} ;;
            indexToPosition 5 i) warm_store)
          {| line := 1 + 1; col := 0 + 1 |}.
Proof.
  apply (position_round_trip_on_sound_store warm_store 1 0 "world" 7 5).
  - apply warm_store_ok.
  - apply warm_store_ok.
  - reflexivity.
  - split; vm_compute; discriminate.
  - reflexivity.
  - vm_compute. lia.
Defined.

Lemma positionToIndex_on_sound_store_witness :
  returns (positionToIndex 2 {| line := 1 + 1; col := 2 + 1 |} warm_store)
          (lineStart (lines warm_store) 1 + 2).
Proof.
  apply (positionToIndex_on_sound_store 2 1 2 "world" warm_store).
  - apply warm_store_ok.
  - reflexivity.
  - split; vm_compute; discriminate.
  - exact warm_store_anchored.
  - vm_compute. lia.
Defined.

Lemma positionToIndex_first_line_cold_witness :
  exists st',
    positionToIndex 1 {| line := 1; col := 0 + 1 |} (constructor "a") = Ok (0 - 1) st'
    /\ same_doc (constructor "a") st'
    /\ VCache.get (lineToIndexCache st') 0 = Some 0
    /\ truthy (VCache.get (lineToIndexCache st') 0) = false.
Proof.
  apply (positionToIndex_first_line_cold 0 0 "a" (constructor "a")).
  - reflexivity.
  - split; vm_compute; discriminate.
  - reflexivity.
Defined.

Lemma insert_at_index_witness :
  exists s',
    (p <- indexToPosition 4 6 ;; insert 4 "X" p ;;; getContents None) (constructor hello_world)
    = Ok (content_replaced (Js.join (lines (constructor hello_world))) 6 6 "X") s'
    /\ store_ok s' /\ doc_ok s'.
Proof.
  exact (insert_at_index 4 "X" 6 (constructor hello_world)
           (constructor_ok _) (constructor_doc_ok _) hello_world_index hello_world_bound).
Defined.

Lemma replace_between_indices_witness :
  (exists s',
      (q <- indexToPosition 4 6 ;;
       p <- indexToPosition 4 2 ;;
       replace 4 {| start := p; end_ := q |} "X" ;;;
       getContents None) (constructor hello_world)
      = Ok (Js.take (Z.to_nat 2) (Js.join (lines (constructor hello_world))) ++ "X"
            ++ Js.drop (Z.to_nat 6) (Js.join (lines (constructor hello_world))))%string s'
      /\ store_ok s' /\ doc_ok s')
  /\ (exists s',
         (q <- indexToPosition 4 6 ;;
          p <- indexToPosition 4 2 ;;
          remove 4 {| start := p; end_ := q |} ;;;
          getContents None) (constructor hello_world)
         = Ok (Js.take (Z.to_nat 2) (Js.join (lines (constructor hello_world)))
               ++ Js.drop (Z.to_nat 6) (Js.join (lines (constructor hello_world))))%string s'
         /\ store_ok s' /\ doc_ok s').
Proof.
  apply (replace_between_indices 4 "X" 2 6 (constructor hello_world)).
  - apply constructor_ok.
  - apply constructor_doc_ok.
  - lia.
  - vm_compute. discriminate.
  - exact hello_world_bound.
Defined.

Lemma flushCache_on_sound_store_witness :
  exists s',
    flushCache 2 {| line := 1; col := 2 |} warm_store = Ok tt s'
    /\ same_doc warm_store s'
    /\ (forall L, 1 <= L -> VCache.get (lineToIndexCache s') L = None)
    /\ (forall k, lineStart (lines warm_store) 1 + 2 <= k ->
                  SCache.get (indexToPosCache s') k = None)
    /\ store_ok s'.
Proof.
  apply (flushCache_on_sound_store 2 {| line := 1; col := 2 |} warm_store).
  - apply warm_store_ok.
  - split; vm_compute; [discriminate | reflexivity].
  - vm_compute. discriminate.
  - exact warm_store_anchored.
  - vm_compute. lia.
Defined.

Lemma SCache_get_after_set_and_flush_witness :
  SCache.get (SCache.set (indexToPosCache warm_store) 20 {| line := 1; col := 14 |}) 20
  = (if 20 =? 20 then Some {| line := 1; col := 14 |}
     else SCache.get (indexToPosCache warm_store) 20)
  /\ SCache.get (SCache.flush (indexToPosCache warm_store) 10) 20
     = (if 20 <? 10 then SCache.get (indexToPosCache warm_store) 20 else None)
  /\ SCache.get (@SCache.empty ITextPosition) 20 = None.
Proof.
  apply (SCache_get_after_set_and_flush ITextPosition (indexToPosCache warm_store) 20 10 20
           {| line := 1; col := 14 |}).
  - lia.
  - reflexivity.
  - lia.
  - reflexivity.
Defined.

Lemma SCache_flush_negative_witness :
  SCache.get (SCache.flush (indexToPosCache edited_store) (-10)) 10
  = if 10 <? 10 * Js.alen (indexToPosCache edited_store) + -10
    then SCache.get (indexToPosCache edited_store) 10 else None.
Proof.
  apply (SCache_flush_negative ITextPosition (indexToPosCache edited_store) (-10) 10).
  - lia.
  - reflexivity.
Defined.

Lemma VCache_get_after_set_and_flush_witness :
  VCache.get (VCache.set (lineToIndexCache warm_store) 2 13) 2
  = (if 2 =? 2 then Some 13 else VCache.get (lineToIndexCache warm_store) 2)
  /\ VCache.get (VCache.flush (lineToIndexCache warm_store) 1) 2
     = (if 2 <? 1 then VCache.get (lineToIndexCache warm_store) 2 else None)
  /\ VCache.get (@VCache.empty Z) 2 = None.
Proof.
  apply (VCache_get_after_set_and_flush Z (lineToIndexCache warm_store) 2 1 2 13); lia.
Defined.

Lemma findHighestCachedIndexToPos_returns_an_entry_witness :
  exists r,
    findHighestCachedIndexToPos 3 (indexToPosCache warm_store) DEFAULT_BLOCK_SIZE 20 = Some r
    /\ (forall k p, r = Some (k, p) ->
                    SCache.get (indexToPosCache warm_store) k = Some p
                    /\ DEFAULT_BLOCK_SIZE <= k <= 20)
    /\ (20 < DEFAULT_BLOCK_SIZE -> r = None).
Proof.
  apply (findHighestCachedIndexToPos_returns_an_entry (indexToPosCache warm_store) 20 3).
  - reflexivity.
  - vm_compute. lia.
Defined.


Lemma insert_then_remove_restores_witness :
  exists fuel0, forall fuel, (fuel0 <= fuel)%nat ->
    returns ((p <- indexToPosition fuel 6 ;;
              insert fuel "X" p ;;;
              q <- indexToPosition fuel (6 + Js.len "X") ;;
              p' <- indexToPosition fuel 6 ;;
              remove fuel {| start := p'; end_ := q |} ;;;
              getContents None) (constructor hello_world))
            (Js.join (lines (constructor hello_world))).
Proof.
  exact (insert_then_remove_restores "X" 6 (constructor hello_world)
           (constructor_ok _) (constructor_doc_ok _) hello_world_index).
Defined.
